(** * Verboten ("Proscribed Words"): the turn-based game and the live relay

    A shallow embedding of [cmd/cli/verboten_cli.go] (the turn-based
    game: [normalize], [isWinning], [saidForbidden], [haveSameRoot],
    [isTranslation], the turn loop of [main]) and of the live game
    handler [liveGame] of package [verboten].

    Go strings are modelled by the sequence of code points they
    encode.  The packages the program imports ([strings], [unicode],
    [golang.org/x/text], [encoding/json], [errgroup], [genai],
    [websocket]) are interfaces here: type classes whose operations
    are the calls the program makes. *)

From Stdlib Require Import List NArith ZArith Bool Lia String Ascii.
Import ListNotations.

Set Implicit Arguments.

(* ================================================================== *)
(** * Part I: definitions                                              *)
(* ================================================================== *)

(** ** Go strings *)

Definition rune := N.
Definition gostring := list rune.

(** An ASCII literal of the source, as a Go string. *)
Definition lit (s : string) : gostring :=
  map N_of_ascii (list_ascii_of_string s).

Fixpoint gostring_eqb (s t : gostring) : bool :=
  match s, t with
  | [], [] => true
  | c :: s', d :: t' => (c =? d)%N && gostring_eqb s' t'
  | _, _ => false
  end.

(** [strings.HasPrefix] *)
Fixpoint HasPrefix (s prefix : gostring) {struct prefix} : bool :=
  match prefix, s with
  | [], _ => true
  | _ :: _, [] => false
  | c :: p', d :: s' => (c =? d)%N && HasPrefix s' p'
  end.

(** [strings.Index]: the index of the first instance of [substr] in
    [s], or -1. *)
Fixpoint Index (s substr : gostring) : Z :=
  if HasPrefix s substr then 0%Z
  else match s with
       | [] => (-1)%Z
       | _ :: s' =>
           let i := Index s' substr in
           if (i <? 0)%Z then (-1)%Z else (i + 1)%Z
       end.

(** [strings.Contains(s, substr)] is [Index(s, substr) >= 0].  (The
    library searches bytes; between strings of valid UTF-8 that is
    the search for a run of code points.) *)
Definition Contains (s substr : gostring) : bool :=
  (0 <=? Index s substr)%Z.

(** [strings.Join] *)
Fixpoint Join (elems : list gostring) (sep : gostring) : gostring :=
  match elems with
  | [] => []
  | [e] => e
  | e :: rest => e ++ sep ++ Join rest sep
  end.

(** ** The Unicode packages

    [unicode.ToLower], [unicode.IsSpace], membership in the range
    table [unicode.Mn] (nonspacing marks), and the two normal forms
    of [golang.org/x/text/unicode/norm]. *)

Class Unicode := {
  ToLowerRune : rune -> rune;
  IsSpace : rune -> bool;
  IsMn : rune -> bool;
  NFD : gostring -> gostring;
  NFC : gostring -> gostring
}.

Section Normalize.
Context {U : Unicode}.

(** [strings.ToLower] maps every rune through [unicode.ToLower]. *)
Definition ToLower (s : gostring) : gostring := map ToLowerRune s.

(** [strings.TrimSpace]: leading and trailing white space removed. *)
Fixpoint TrimLeft (s : gostring) : gostring :=
  match s with
  | c :: s' => if IsSpace c then TrimLeft s' else s
  | [] => []
  end.

Definition TrimSpace (s : gostring) : gostring :=
  rev (TrimLeft (rev (TrimLeft s))).

(** [runes.Remove(runes.In(unicode.Mn))] *)
Definition removeMn (s : gostring) : gostring :=
  filter (fun r => negb (IsMn r)) s.

(** [tr := transform.Chain(norm.NFD, runes.Remove(...), norm.NFC)];
    none of the three transformers reports an error of its own, so
    [transform.String] returns a nil error and the [panic] branch of
    [normalize] is not taken. *)
Definition tr (s : gostring) : gostring := NFC (removeMn (NFD s)).

(** [normalize] returns its argument lowercased and without
    diacritics. *)
Definition normalize (s : gostring) : gostring := tr (ToLower s).

(** A string is lowered when [unicode.ToLower] fixes each rune. *)
Definition lowered (s : gostring) : Prop :=
  Forall (fun r => ToLowerRune r = r) s.

(** A string carries no nonspacing mark. *)
Definition noMn (s : gostring) : Prop :=
  Forall (fun r => IsMn r = false) s.

(** The properties of case mapping and of canonical normalisation
    that [normalize] relies on: lowercasing is idempotent and is
    preserved by both normal forms; NFC and NFD of canonically
    equivalent strings agree; decomposing a decomposed string whose
    marks were removed brings no mark back. *)
Record UnicodeLaws : Prop := {
  lower_idem : forall r, ToLowerRune (ToLowerRune r) = ToLowerRune r;
  nfd_lowered : forall s, lowered s -> lowered (NFD s);
  nfc_lowered : forall s, lowered s -> lowered (NFC s);
  nfd_nfc : forall s, NFD (NFC s) = NFD s;
  nfc_nfd : forall s, NFC (NFD s) = NFC s;
  nfd_stripped : forall s, noMn (NFD (removeMn (NFD s)))
}.
End Normalize.

(** ** Errors and results *)

Inductive error : Type :=
| Error (msg : gostring)
| Errorf_w (format : gostring) (cause : error).   (* fmt.Errorf("...%w", err) *)

(** A Go [(value, error)] pair returned by a library call. *)
Inductive Result (A : Type) : Type :=
| Ok (a : A)
| Fail (e : error).
Arguments Ok {A} a.
Arguments Fail {A} e.

(** ** The word catalog entry *)

Record forbiddenWord := {
  Word : gostring;
  Forbidden : list gostring;
  languageName : gostring
}.

Section Winning.
Context {U : Unicode}.

Definition isWinning (fw : forbiddenWord) (guess : gostring)
  : bool * option error :=
  let lowGuess := normalize guess in
  let lowGoal := normalize (Word fw) in
  (Contains lowGuess lowGoal, None).
End Winning.

(** ** Effects: backend requests, console output, abnormal ends *)

(** [resp.Candidates[i].Content.Parts[j].Text], as the texts of the
    parts of each candidate. *)
Record Candidate := { Parts : list gostring }.
Record GenerateContentResponse := { Candidates : list Candidate }.

(** The three shapes of request the turn-based game sends. *)
Inductive Request : Type :=
| JudgeRequest (systemInstruction said : gostring)  (* JSON schema {lost, forbiddenWord, fragment} *)
| PromptRequest (text : gostring)                   (* GenerateContent(ctx, modelName, prompt, nil) *)
| ChatMessage (history : list gostring) (text : gostring).  (* chat.SendMessage *)

(** [client.Models.GenerateContent] and [chat.SendMessage]: the
    backend is opaque; it answers a request with a response or an
    error. *)
Class Backend := {
  GenerateContent : Request -> Result GenerateContentResponse
}.

(** The struct [saidForbidden] parses the structured answer into. *)
Record JudgeResult := {
  Lost : bool;
  ForbiddenWord : gostring;
  Fragment : gostring
}.

(** [json.Unmarshal([]byte(structureAnswer), &result)] *)
Class JsonVerdict := {
  Unmarshal : gostring -> Result JudgeResult
}.

(** What the game prints, up to the localised wording. *)
Inductive Message : Type :=
| JudgeNotSure (fragment forbidden : gostring)
| JudgeSameRoot (fragment forbidden : gostring)
| JudgeTranslationOf (fragment forbidden : gostring)
| describeTheWord
| usedForbiddenWord (matched : gostring)
| usedForbiddenInflection (said matched : gostring)
| aiGuess (text : gostring)
| aiGuessedTheWord
| wordWas (word : gostring).

Inductive Effect : Type :=
| Call (r : Request)
| Print (m : Message).

(** How a computation ends: it returns, it panics (index out of range,
    nil dereference), or it leaves the process through [log.Fatal]. *)
Inductive Outcome (A : Type) : Type :=
| Returns (a : A)
| Panics
| Exits.
Arguments Returns {A} a.
Arguments Panics {A}.
Arguments Exits {A}.

(** A computation with its effects, in the order they happen. *)
Definition Io (A : Type) : Type := (list Effect * Outcome A)%type.

Definition ret {A} (a : A) : Io A := ([], Returns a).

Definition bind {A B} (m : Io A) (k : A -> Io B) : Io B :=
  match m with
  | (t, Returns a) => let (t', o) := k a in (t ++ t', o)
  | (t, Panics) => (t, Panics)
  | (t, Exits) => (t, Exits)
  end.

Notation "x <- m ;; k" := (bind m (fun x => k))
  (at level 61, m at next level, right associativity).
Notation "m ;;; k" := (bind m (fun _ => k))
  (at level 61, right associativity).

Definition emit (e : Effect) : Io unit := ([e], Returns tt).
Definition panic {A} : Io A := ([], Panics).
Definition logFatal {A} : Io A := ([], Exits).

Definition generate {B : Backend} (r : Request)
  : Io (Result GenerateContentResponse) :=
  ([Call r], Returns (GenerateContent r)).

(** [resp.Candidates[0].Content.Parts[0].Text]; an index out of range
    is a run-time panic. *)
Definition firstText (resp : GenerateContentResponse) : Io gostring :=
  match Candidates resp with
  | [] => panic
  | c :: _ => match Parts c with
              | [] => panic
              | t :: _ => ret t
              end
  end.

(** ** errgroup

    [g.Go(f)] starts [f] in a goroutine; [g.Wait()] blocks until
    every started function has returned, then returns the first
    non-nil error any of them returned.  The closures of this program
    all have the shape [x, err = call(); return err] over variables
    they share with their caller: an assignment to the shared store
    when the call comes back, then a return that reads the shared
    [err].  A schedule picks which goroutine moves next. *)

Section Errgroup.
Variable St : Type.

Record Group := { vars : St; first_err : option error }.

Record Goroutine := {
  body : St -> option St;            (* [None]: the goroutine panics *)
  returned : St -> option error      (* the value of [return err] *)
}.

Definition action := Group -> option Group.

Definition body_step (f : Goroutine) : action :=
  fun g => match body f (vars g) with
           | Some s => Some {| vars := s; first_err := first_err g |}
           | None => None
           end.

(** [g.errOnce.Do(func() { g.err = err })] when [err != nil] *)
Definition return_step (f : Goroutine) : action :=
  fun g => Some {| vars := vars g;
                   first_err := match first_err g with
                                | Some e => Some e
                                | None => returned f (vars g)
                                end |}.

Definition Go (f : Goroutine) : list action :=
  [body_step f; return_step f].

Fixpoint exec (l : list action) (g : Group) : option Group :=
  match l with
  | [] => Some g
  | a :: l' => match a g with
               | Some g' => exec l' g'
               | None => None
               end
  end.

(** [true] moves the first goroutine, [false] the second; when the
    schedule is used up, or one goroutine is done, what remains runs
    to completion. *)
Fixpoint interleave (sched : list bool) (a b : list action) (g : Group)
  : option Group :=
  match sched with
  | [] => exec (a ++ b) g
  | pick :: sched' =>
      match a, b with
      | [], _ => exec b g
      | _, [] => exec a g
      | x :: a', y :: b' =>
          if pick
          then match x g with
               | Some g' => interleave sched' a' b g'
               | None => None
               end
          else match y g with
               | Some g' => interleave sched' a b' g'
               | None => None
               end
      end
  end.

(** Two [g.Go] calls followed by [g.Wait()]: the shared store and
    the error [Wait] returns, or [None] when a goroutine panicked. *)
Definition Wait (sched : list bool) (f1 f2 : Goroutine) (s : St)
  : option (St * option error) :=
  match interleave sched (Go f1) (Go f2) {| vars := s; first_err := None |} with
  | Some g => Some (vars g, first_err g)
  | None => None
  end.
End Errgroup.

(** [Merge a b l]: [l] interleaves [a] and [b], keeping the order of
    each. *)
Inductive Merge (A : Type) : list A -> list A -> list A -> Prop :=
| Merge_left a : Merge a [] a
| Merge_right b : Merge [] b b
| Merge_a x a b l : Merge a b l -> Merge (x :: a) b (x :: l)
| Merge_b y a b l : Merge a b l -> Merge a (y :: b) (y :: l).

(** ** The verdict pipeline of the turn-based game *)

Section Judge.
Context {U : Unicode} {B : Backend} {J : JsonVerdict}.

(** The fixed wording of [systemInstruction] before and after the
    list of proscribed words. *)
Variables judgeIntro judgeRules : gostring.

(** The second line of both yes/no prompts, with the indentation of
    the raw string literal. *)
Definition answerYesOrNo : gostring :=
  [10; 9; 9; 9; 9; 32]%N ++ lit "Answer just Yes or No, and nothing else.".

Definition haveSameRoot (word1 word2 : gostring) : Io (bool * option error) :=
  let prompt :=
    lit "Can we say that the words '" ++ word1 ++ lit "' and '" ++ word2
      ++ lit "' share the same root?" ++ answerYesOrNo in
  r <- generate (PromptRequest prompt) ;;
  match r with
  | Fail e => ret (false, Some e)
  | Ok resp =>
      text <- firstText resp ;;
      let answer := ToLower text in
      ret (gostring_eqb answer (lit "yes"), None)
  end.

Definition isTranslation (word1 word2 word2Lang : gostring)
  : Io (bool * option error) :=
  let prompt :=
    lit "Can we say that the word '" ++ word1 ++ lit "' is a translation of the "
      ++ word2Lang ++ lit " word '" ++ word2 ++ lit "' in another language?"
      ++ answerYesOrNo in
  r <- generate (PromptRequest prompt) ;;
  match r with
  | Fail e => ret (false, Some e)
  | Ok resp =>
      answer <- firstText resp ;;
      ret (gostring_eqb (ToLower answer) (lit "yes"), None)
  end.

(** The variables the two confirmation goroutines share with
    [saidForbidden]: [isSameRoot], [isTranslated] and the named
    result [err]; and what they did to the outside world. *)
Record Checks := {
  isSameRoot : bool;
  isTranslated : bool;
  checks_err : option error;
  checks_effects : list Effect
}.

(** [isSameRoot, err = haveSameRoot(ctx, result.Fragment, result.ForbiddenWord); return err] *)
Definition goSameRoot (result : JudgeResult) : Goroutine Checks :=
  {| body := fun st =>
       match haveSameRoot (Fragment result) (ForbiddenWord result) with
       | (t, Returns (b, e)) =>
           Some {| isSameRoot := b; isTranslated := isTranslated st;
                   checks_err := e;
                   checks_effects := checks_effects st ++ t |}
       | _ => None
       end;
     returned := checks_err |}.

(** [isTranslated, err = isTranslation(ctx, result.Fragment, result.ForbiddenWord, fw.languageName); return err] *)
Definition goTranslation (result : JudgeResult) (fw : forbiddenWord)
  : Goroutine Checks :=
  {| body := fun st =>
       match isTranslation (Fragment result) (ForbiddenWord result)
               (languageName fw) with
       | (t, Returns (b, e)) =>
           Some {| isSameRoot := isSameRoot st; isTranslated := b;
                   checks_err := e;
                   checks_effects := checks_effects st ++ t |}
       | _ => None
       end;
     returned := checks_err |}.

(** [var isSameRoot, isTranslated bool], and [err] is nil once the
    structured judgment has come back. *)
Definition checks0 : Checks :=
  {| isSameRoot := false; isTranslated := false;
     checks_err := None; checks_effects := [] |}.

(** What [saidForbidden] returns:
    [(lost, forbiddenSaid, forbiddenMatched, err)]. *)
Definition Verdict : Type :=
  (bool * gostring * gostring * option error)%type.

Definition noViolation (err : option error) : Verdict :=
  (false, [], [], err).

Definition systemInstruction (fw : forbiddenWord) : gostring :=
  judgeIntro ++ Word fw ++ lit ", " ++ Join (Forbidden fw) (lit ", ")
    ++ judgeRules.

Definition saidForbidden (sched : list bool) (fw : forbiddenWord)
    (said : gostring) : Io Verdict :=
  r <- generate (JudgeRequest (systemInstruction fw) said) ;;
  match r with
  | Fail err => ret (noViolation (Some err))
  | Ok resp =>
      structureAnswer <- firstText resp ;;
      match Unmarshal structureAnswer with
      | Fail err =>
          ret (noViolation
                 (Some (Errorf_w (lit "failed to parse AI response: ") err)))
      | Ok result =>
          if negb (Lost result) then ret (noViolation None)
          else
            match Wait sched (goSameRoot result) (goTranslation result fw)
                    checks0 with
            | None => panic
            | Some (st, err) =>
                (checks_effects st, Returns tt) ;;;
                match err with
                | Some e => ret (noViolation (Some e))
                | None =>
                    if negb (isSameRoot st) && negb (isTranslated st)
                    then
                      (* False alarm *)
                      emit (Print (JudgeNotSure (Fragment result)
                                     (ForbiddenWord result))) ;;;
                      ret (noViolation None)
                    else
                      (if isSameRoot st
                       then emit (Print (JudgeSameRoot (Fragment result)
                                           (ForbiddenWord result)))
                       else ret tt) ;;;
                      (if isTranslated st
                       then emit (Print (JudgeTranslationOf (Fragment result)
                                           (ForbiddenWord result)))
                       else ret tt) ;;;
                      ret (Lost result, Fragment result,
                           ForbiddenWord result, None)
                end
            end
      end
  end.
End Judge.

(** ** The turn loop of [main] *)

Section Game.
Context {U : Unicode} {B : Backend} {J : JsonVerdict}.
Variables judgeIntro judgeRules : gostring.

(** The variables the two goroutines of a turn share with [main]:
    [lost], [forbiddenSaid], [forbiddenMatched] and [result] of the
    loop body, and the [err] of [main] itself. *)
Record TurnVars := {
  lost : bool;
  forbiddenSaid : gostring;
  forbiddenMatched : gostring;
  result : option GenerateContentResponse;   (* a pointer, nil at first *)
  main_err : option error;
  turn_effects : list Effect
}.

(** [lost, forbiddenSaid, forbiddenMatched, err = gameWord.saidForbidden(ctx, description); return err].
    The call is one step of the schedule: it touches none of the
    variables of [main] before it returns. *)
Definition goJudge (inner : list bool) (gameWord : forbiddenWord)
    (description : gostring) : Goroutine TurnVars :=
  {| body := fun st =>
       match saidForbidden judgeIntro judgeRules inner gameWord description with
       | (t, Returns (l, said, matched, e)) =>
           Some {| lost := l; forbiddenSaid := said;
                   forbiddenMatched := matched; result := result st;
                   main_err := e;
                   turn_effects := turn_effects st ++ t |}
       | _ => None
       end;
     returned := main_err |}.

(** [result, err = chat.SendMessage(ctx, genai.Part{Text: description}); return err] *)
Definition goGuess (history : list gostring) (description : gostring)
  : Goroutine TurnVars :=
  {| body := fun st =>
       let req := ChatMessage history description in
       let (res, e) := match GenerateContent req with
                       | Ok resp => (Some resp, None)
                       | Fail e => (None, Some e)
                       end in
       Some {| lost := lost st; forbiddenSaid := forbiddenSaid st;
               forbiddenMatched := forbiddenMatched st; result := res;
               main_err := e;
               turn_effects := turn_effects st ++ [Call req] |};
     returned := main_err |}.

(** [checkNotEmpty]: [log.Fatalf] on a response without candidates or
    without parts; a nil [res] is a nil dereference. *)
Definition checkNotEmpty (res : option GenerateContentResponse) : Io unit :=
  match res with
  | None => panic
  | Some r =>
      match Candidates r with
      | [] => logFatal
      | c :: _ => match Parts c with
                  | [] => logFatal
                  | _ :: _ => ret tt
                  end
      end
  end.

Definition textOf (res : option GenerateContentResponse) : Io gostring :=
  checkNotEmpty res ;;;
  match res with
  | None => panic
  | Some r => firstText r
  end.

(** How one pass through the loop body ends: [main] returns after a
    loss or a win, or the next turn starts (with the [err] of [main]
    as the goroutines left it). *)
Inductive TurnEnd : Type :=
| GameLost
| GameWon
| NextTurn (err : option error).

(** One pass through the body of [for guesses > 0]; [outer]
    schedules the judge and guesser goroutines, [inner] the two
    confirmation checks inside [saidForbidden]. *)
Definition turn (outer inner : list bool) (gameWord : forbiddenWord)
    (history : list gostring) (line : gostring) (err : option error)
  : Io TurnEnd :=
  emit (Print describeTheWord) ;;;
  let description := TrimSpace line in
  match Wait outer (goJudge inner gameWord description)
          (goGuess history description)
          {| lost := false; forbiddenSaid := []; forbiddenMatched := [];
             result := None; main_err := err; turn_effects := [] |} with
  | None => panic
  | Some (st, werr) =>
      (turn_effects st, Returns tt) ;;;
      match werr with
      | Some _ => logFatal
      | None =>
          if lost st then
            (if gostring_eqb (normalize (forbiddenSaid st))
                  (normalize (forbiddenMatched st))
             then emit (Print (usedForbiddenWord (forbiddenMatched st)))
             else emit (Print (usedForbiddenInflection (forbiddenSaid st)
                                 (forbiddenMatched st)))) ;;;
            ret GameLost
          else
            aiResponse <- textOf (result st) ;;
            emit (Print (aiGuess aiResponse)) ;;;
            let (winning, err') := isWinning gameWord aiResponse in
            match err' with
            | Some _ => logFatal
            | None =>
                if winning
                then emit (Print aiGuessedTheWord) ;;; ret GameWon
                else ret (NextTurn (main_err st))
            end
      end
  end.

Inductive Ending : Type :=
| YouLose          (* a proscribed word was used *)
| YouWin           (* the AI guessed the word *)
| OutOfGuesses.    (* "The word was ..." *)

Definition hd_tl {A} (d : A) (l : list A) : A * list A :=
  match l with
  | [] => (d, [])
  | x :: l' => (x, l')
  end.

(** [guesses := 3; for guesses > 0 { ... guesses-- }] and the final
    [wordWas]; [stdin] holds the lines still to be read (the empty
    line at end of input), [scheds] the schedules of the turns to
    come. *)
Fixpoint gameLoop (guesses : nat) (scheds : list (list bool * list bool))
    (stdin : list gostring) (gameWord : forbiddenWord)
    (history : list gostring) (err : option error) : Io Ending :=
  match guesses with
  | O => emit (Print (wordWas (Word gameWord))) ;;; ret OutOfGuesses
  | S guesses' =>
      let (sc, scheds') := hd_tl ([], []) scheds in
      let (line, stdin') := hd_tl [] stdin in
      e <- turn (fst sc) (snd sc) gameWord history line err ;;
      match e with
      | GameLost => ret YouLose
      | GameWon => ret YouWin
      | NextTurn err' =>
          gameLoop guesses' scheds' stdin' gameWord
            (history ++ [TrimSpace line]) err'
      end
  end.

Definition play (scheds : list (list bool * list bool))
    (stdin : list gostring) (gameWord : forbiddenWord) : Io Ending :=
  gameLoop 3 scheds stdin gameWord [] None.
End Game.

(** ** The live game handler of package [verboten] *)

Definition bytes := list N.

(** The part of [genai.LiveServerMessage] the handler looks into: the
    optional server content and its optional output transcription;
    [Payload] stands for every other field (audio, input
    transcription, turn completion, ...). *)
Record Transcription := { Text : gostring }.
Record LiveServerContent := {
  OutputTranscription : option Transcription;
  ContentPayload : bytes
}.
Record LiveServerMessage := {
  ServerContent : option LiveServerContent;
  Payload : bytes
}.

(** [encoding/json] on the two frame types; [LiveRealtimeInput] is
    never looked into by the handler. *)
Class LiveWire := {
  LiveRealtimeInput : Type;
  UnmarshalRealtimeInput : bytes -> Result LiveRealtimeInput;
  Marshal : LiveServerMessage -> Result bytes
}.

Inductive Session := Guesser | Judge.
Inductive Thread := Handler | GuessingLoop | JudgeLoop.
Inductive Lang := en | fr | ar.

(** [strings.TrimPrefix] *)
Definition TrimPrefix (s prefix : gostring) : gostring :=
  if HasPrefix s prefix then skipn (List.length prefix) s else s.

Inductive Instruction : Type :=
| guesserPrompt (l : Lang)
| judgePrompt (proscribed : gostring).  (* fixed text ++ strings.Join(forbiddenWords, ", ") *)

Inductive LogLine : Type :=
| UnsupportedLanguage (lang : gostring)
| StartingGame (gameID lang : gostring) (forbiddenWords : list gostring)
| GuesserDeconnected (e : error)
| WriteMessageError (e : error)
| ReadFromClientError (e : error)
| JudgeDeconnected (e : error)
| JudgeSays (gameID text : gostring).

Inductive FatalLine : Type :=
| UpgradeError (e : error)
| ConnectToModelError (e : error)
| MarshalError (e : error)
| UnmarshalMessageError (message : bytes) (e : error).

Section Live.
Context {W : LiveWire}.

Inductive LiveEvent : Type :=
| Println (l : LogLine)                  (* log.Printf, log.Println *)
| Fatal (l : FatalLine)                  (* log.Fatal: print, then os.Exit(1) *)
| NotFound                               (* http.NotFound(w, r) *)
| Connect (s : Session) (i : Instruction)   (* genaiClient.Live.Connect *)
| GoFunc (t : Thread)                    (* go func() { ... }() *)
| SendRealtimeInput (s : Session) (f : LiveRealtimeInput)
| WriteMessage (b : bytes)               (* c.WriteMessage(websocket.TextMessage, b) *)
| CloseSession (s : Session)             (* deferred session.Close() *)
| CloseClient.                           (* deferred c.Close() *)

(** How a loop or the handler stands: still blocked in a receive
    the environment has not answered, returned, or the process has
    exited. *)
Inductive Status := Blocked | Returned | ProcessExit.

(** What the outside world does during one request: the request
    itself, and the result of every call that leaves the handler. *)
Record Environment := {
  path : gostring;                                   (* r.URL.Path *)
  forbiddenWords : list gostring;                    (* r.URL.Query()["forbidden"] *)
  gameID : gostring;                                 (* randomString(4) *)
  upgrade : option error;                            (* upgrader.Upgrade *)
  connectGuesser : option error;                     (* first Live.Connect *)
  connectJudge : option error;                       (* second Live.Connect *)
  clientReads : list (Result bytes);                 (* c.ReadMessage, in order *)
  guesserReceives : list (Result LiveServerMessage); (* session.Receive, in order *)
  clientWrites : list (option error);                (* c.WriteMessage, in order *)
  judgeReceives : list (Result LiveServerMessage)    (* sessionJudge.Receive, in order *)
}.

(** Guessing Loop: receive from the guesser session, forward to the
    player's browser. *)
Fixpoint guessingLoop (receives : list (Result LiveServerMessage))
    (writes : list (option error)) : list LiveEvent * Status :=
  match receives with
  | [] => ([], Blocked)
  | Fail err :: _ => ([Println (GuesserDeconnected err)], Returned)
  | Ok message :: receives' =>
      match Marshal message with
      | Fail err => ([Fatal (MarshalError err)], ProcessExit)
      | Ok messageBytes =>
          match hd_tl None writes with
          | (Some err, _) =>
              ([WriteMessage messageBytes; Println (WriteMessageError err)],
               Returned)
          | (None, writes') =>
              let (t, s) := guessingLoop receives' writes' in
              (WriteMessage messageBytes :: t, s)
          end
      end
  end.

(** Human speech Loop: receive from the player's browser, forward
    to the guesser's session, then to the judge's session.
    [Returned] stands for the [break]. *)
Fixpoint humanSpeechLoop (reads : list (Result bytes))
  : list LiveEvent * Status :=
  match reads with
  | [] => ([], Blocked)
  | Fail err :: _ => ([Println (ReadFromClientError err)], Returned)
  | Ok message :: reads' =>
      match UnmarshalRealtimeInput message with
      | Fail err => ([Fatal (UnmarshalMessageError message err)], ProcessExit)
      | Ok realtimeInput =>
          let (t, s) := humanSpeechLoop reads' in
          (SendRealtimeInput Guesser realtimeInput
             :: SendRealtimeInput Judge realtimeInput :: t, s)
      end
  end.

(** Judge Loop: receive from the judge session, log the output
    transcription when there is one. *)
Fixpoint judgeLoop (gameID : gostring)
    (receives : list (Result LiveServerMessage))
  : list LiveEvent * Status :=
  match receives with
  | [] => ([], Blocked)
  | Fail err :: _ => ([Println (JudgeDeconnected err)], Returned)
  | Ok message :: receives' =>
      let (t, s) := judgeLoop gameID receives' in
      match ServerContent message with
      | Some sc =>
          match OutputTranscription sc with
          | Some ot => (Println (JudgeSays gameID (Text ot)) :: t, s)
          | None => (t, s)
          end
      | None => (t, s)
      end
  end.

Definition langOf (lang : gostring) : option Lang :=
  if gostring_eqb lang (lit "en") then Some en
  else if gostring_eqb lang (lit "fr") then Some fr
  else if gostring_eqb lang (lit "ar") then Some ar
  else None.

(** The body of [liveGame], run by the goroutine that serves the
    request: what it does, in program order, and how it stands at
    the end.  [log.Fatal] leaves the process, so no deferred
    [Close] runs after it.  Of the two session configurations only
    the system instruction is kept; the model name, the voice and the
    transcription and activity-detection settings play no part in the
    control flow. *)
Definition liveGame (r : Environment) : list LiveEvent * Status :=
  let lang := TrimPrefix (path r) (lit "/live/") in
  match langOf lang with
  | None => ([Println (UnsupportedLanguage lang); NotFound], Returned)
  | Some l =>
      match upgrade r with
      | Some err => ([Fatal (UpgradeError err)], ProcessExit)
      | None =>
          let start := [Println (StartingGame (gameID r) lang (forbiddenWords r));
                        Connect Guesser (guesserPrompt l)] in
          match connectGuesser r with
          | Some err => (start ++ [Fatal (ConnectToModelError err)], ProcessExit)
          | None =>
              let judge :=
                [Connect Judge
                   (judgePrompt (Join (forbiddenWords r) (lit ", ")))] in
              match connectJudge r with
              | Some err =>
                  (start ++ judge ++ [Fatal (ConnectToModelError err)],
                   ProcessExit)
              | None =>
                  let (t, s) := humanSpeechLoop (clientReads r) in
                  let before := start ++ judge ++ [GoFunc GuessingLoop] ++ t in
                  match s with
                  | Returned =>
                      (before ++ [GoFunc JudgeLoop; CloseSession Judge;
                                  CloseSession Guesser; CloseClient],
                       Returned)
                  | _ => (before, s)
                  end
              end
          end
      end
  end.

(** *** The goroutines of one game, interleaved *)

Record Pool := {
  handler : list LiveEvent;
  guessing : list LiveEvent;
  judging : list LiveEvent;
  guessingStarted : bool;
  judgeStarted : bool
}.

Definition pool (r : Environment) : Pool :=
  {| handler := fst (liveGame r);
     guessing := fst (guessingLoop (guesserReceives r) (clientWrites r));
     judging := fst (judgeLoop (gameID r) (judgeReceives r));
     guessingStarted := false;
     judgeStarted := false |}.

Definition isGoFunc (t : Thread) (e : LiveEvent) : bool :=
  match e, t with
  | GoFunc GuessingLoop, GuessingLoop => true
  | GoFunc JudgeLoop, JudgeLoop => true
  | _, _ => false
  end.

Definition isFatal (e : LiveEvent) : bool :=
  match e with
  | Fatal _ => true
  | _ => false
  end.

(** The next event of thread [t], when it has been started and has
    one. *)
Definition next (t : Thread) (p : Pool) : option (LiveEvent * Pool) :=
  match t with
  | Handler =>
      match handler p with
      | e :: h =>
          Some (e, {| handler := h; guessing := guessing p;
                      judging := judging p;
                      guessingStarted :=
                        guessingStarted p || isGoFunc GuessingLoop e;
                      judgeStarted := judgeStarted p || isGoFunc JudgeLoop e |})
      | [] => None
      end
  | GuessingLoop =>
      match guessingStarted p, guessing p with
      | true, e :: g =>
          Some (e, {| handler := handler p; guessing := g;
                      judging := judging p;
                      guessingStarted := true;
                      judgeStarted := judgeStarted p |})
      | _, _ => None
      end
  | JudgeLoop =>
      match judgeStarted p, judging p with
      | true, e :: j =>
          Some (e, {| handler := handler p; guessing := guessing p;
                      judging := j;
                      guessingStarted := guessingStarted p;
                      judgeStarted := true |})
      | _, _ => None
      end
  end.

(** A run of the game under a schedule: the events of the three
    goroutines in the order they happen; a thread that cannot move
    when it is picked is passed over; a [log.Fatal] ends the
    process, and the run with it. *)
Fixpoint run (sched : list Thread) (p : Pool) : list (Thread * LiveEvent) :=
  match sched with
  | [] => []
  | t :: sched' =>
      match next t p with
      | Some (e, p') =>
          if isFatal e then [(t, e)] else (t, e) :: run sched' p'
      | None => run sched' p
      end
  end.

Definition runGame (sched : list Thread) (r : Environment)
  : list (Thread * LiveEvent) :=
  run sched (pool r).
End Live.

(** ** An implementation of the Unicode interface: Latin-1

    The Unicode character data for Basic Latin and the Latin-1
    Supplement (U+0000 to U+00FF) with the combining marks of
    U+0300 to U+036F: the simple lowercase mapping, the white space
    property, general category Mn, and the canonical decompositions
    of the accented letters.  On strings over U+0000 to U+00FF every
    mark follows its base at once, so decomposition needs no
    reordering and composition is the pairing of a base with the mark
    that follows it. *)

Module Latin1.
Open Scope N_scope.

(** [(precomposed, (base, mark))] for the capital letters. *)
Definition capitals : list (rune * (rune * rune)) :=
  [ (192, (65, 768)); (193, (65, 769)); (194, (65, 770));
    (195, (65, 771)); (196, (65, 776)); (197, (65, 778));
    (199, (67, 807));
    (200, (69, 768)); (201, (69, 769)); (202, (69, 770)); (203, (69, 776));
    (204, (73, 768)); (205, (73, 769)); (206, (73, 770)); (207, (73, 776));
    (209, (78, 771));
    (210, (79, 768)); (211, (79, 769)); (212, (79, 770));
    (213, (79, 771)); (214, (79, 776));
    (217, (85, 768)); (218, (85, 769)); (219, (85, 770)); (220, (85, 776));
    (221, (89, 769)) ].

(** The small letters are 32 above their capitals, and U+00FF has
    no capital in the block. *)
Definition decompositions : list (rune * (rune * rune)) :=
  capitals
    ++ map (fun e => (fst e + 32, (fst (snd e) + 32, snd (snd e)))) capitals
    ++ [ (255, (121, 776)) ].

Fixpoint lookup (c : rune) (t : list (rune * (rune * rune)))
  : option (rune * rune) :=
  match t with
  | [] => None
  | (p, bm) :: t' => if p =? c then Some bm else lookup c t'
  end.

Fixpoint lookup_pair (b m : rune) (t : list (rune * (rune * rune)))
  : option rune :=
  match t with
  | [] => None
  | (p, (b', m')) :: t' =>
      if (b' =? b) && (m' =? m) then Some p else lookup_pair b m t'
  end.

Definition decompose (c : rune) : option (rune * rune) :=
  lookup c decompositions.

Definition compose (b m : rune) : option rune :=
  lookup_pair b m decompositions.

Definition toLower (r : rune) : rune :=
  if ((65 <=? r) && (r <=? 90))
     || ((192 <=? r) && (r <=? 222) && negb (r =? 215))
  then r + 32 else r.

Definition isSpace (r : rune) : bool :=
  ((9 <=? r) && (r <=? 13)) || (r =? 32) || (r =? 133) || (r =? 160).

Definition isMn (r : rune) : bool := (768 <=? r) && (r <=? 879).

Definition nfd (s : gostring) : gostring :=
  flat_map (fun c => match decompose c with
                     | Some (b, m) => [b; m]
                     | None => [c]
                     end) s.

Fixpoint nfc (s : gostring) : gostring :=
  match s with
  | [] => []
  | b :: s' =>
      match s' with
      | m :: s'' =>
          match compose b m with
          | Some p => p :: nfc s''
          | None => b :: nfc s'
          end
      | [] => [b]
      end
  end.

Definition unicode : Unicode :=
  {| ToLowerRune := toLower; IsSpace := isSpace; IsMn := isMn;
     NFD := nfd; NFC := nfc |}.

(** What the table says of each entry: base and mark decompose no
    further, the entry composes back, only the mark is of category
    Mn, and the letter is small exactly when its base is. *)
Definition entry_ok (e : rune * (rune * rune)) : Prop :=
  let '(p, (b, m)) := e in
  decompose b = None /\ decompose m = None /\
  decompose p = Some (b, m) /\ compose b m = Some p /\
  isMn m = true /\ isMn b = false /\ isMn p = false /\
  toLower m = m /\ (toLower p =? p) = (toLower b =? b).
End Latin1.

(** The two strings of the example, code point by code point:
    "café" with U+00E9, and "CAFE". *)
Definition cafe_accent : gostring := [99; 97; 102; 233]%N.
Definition CAFE : gostring := lit "CAFE".


(** What the example needs from the Unicode packages: the case
    mapping of the eight letters, the decomposition of U+00E9 into
    [e] and U+0301 (a nonspacing mark), and that the unaccented word
    is already in both normal forms. *)
Definition CafeData (U : Unicode) : Prop :=
  ToLower CAFE = lit "cafe" /\
  ToLower cafe_accent = cafe_accent /\
  NFD cafe_accent = lit "cafe" ++ [769%N] /\
  NFD (lit "cafe") = lit "cafe" /\
  IsMn 769%N = true /\
  noMn (lit "cafe") /\
  NFC (lit "cafe") = lit "cafe".

(** ** Reading the pipeline's collaborators *)

Section JudgeReadings.
Context {U : Unicode} {B : Backend} {J : JsonVerdict}.
Variables judgeIntro judgeRules : gostring.

(** The initial structured judgment of [said] comes back from the
    backend and parses into [result]. *)
Definition judged (fw : forbiddenWord) (said : gostring)
    (result : JudgeResult) : Prop :=
  exists resp text,
    GenerateContent (JudgeRequest (systemInstruction judgeIntro judgeRules fw) said)
    = Ok resp /\
    firstText resp = ret text /\
    Unmarshal text = Ok result.

(** A confirmation check comes back with the answer [yes] and a nil
    error. *)
Definition answers (check : Io (bool * option error)) (yes : bool) : Prop :=
  snd check = Returns (yes, None).
End JudgeReadings.

(** ** Scripted collaborators, for the examples *)

Module Script.
Definition response (text : gostring) : GenerateContentResponse :=
  {| Candidates := [ {| Parts := [text] |} ] |}.

Definition answer (text : string) : Result GenerateContentResponse :=
  Ok (response (lit text)).

Definition reply (text : gostring) : Result GenerateContentResponse :=
  Ok (response text).

(** A backend that answers each kind of request as scripted; the two
    yes/no prompts are told apart by their first words. *)
Definition backend
    (judge sameRoot translation guess : Result GenerateContentResponse)
  : Backend :=
  {| GenerateContent := fun r =>
       match r with
       | JudgeRequest _ _ => judge
       | PromptRequest text =>
           if HasPrefix text (lit "Can we say that the words '")
           then sameRoot else translation
       | ChatMessage _ _ => guess
       end |}.

Definition quoted (s : string) : gostring := [34%N] ++ lit s ++ [34%N].

(** The structured answer [{"lost":..,"forbiddenWord":"..","fragment":".."}]. *)
Definition verdictJSON (lost : bool) (forbiddenWord fragment : string)
  : gostring :=
  lit "{" ++ quoted "lost" ++ lit ":"
    ++ (if lost then lit "true" else lit "false") ++ lit ","
    ++ quoted "forbiddenWord" ++ lit ":" ++ quoted forbiddenWord ++ lit ","
    ++ quoted "fragment" ++ lit ":" ++ quoted fragment ++ lit "}".

(** A decoder that knows the structured answers of the examples and
    rejects every other text. *)
Definition json : JsonVerdict :=
  {| Unmarshal := fun s =>
       if gostring_eqb s (verdictJSON true "Pousser" "poussent")
       then Ok {| Lost := true; ForbiddenWord := lit "Pousser";
                  Fragment := lit "poussent" |}
       else if gostring_eqb s (verdictJSON true "Agrume" "orange")
       then Ok {| Lost := true; ForbiddenWord := lit "Agrume";
                  Fragment := lit "orange" |}
       else if gostring_eqb s (verdictJSON true "Pousser" "grow")
       then Ok {| Lost := true; ForbiddenWord := lit "Pousser";
                  Fragment := lit "grow" |}
       else if gostring_eqb s (verdictJSON false "" "")
       then Ok {| Lost := false; ForbiddenWord := []; Fragment := [] |}
       else Fail (Error (lit "invalid character")) |}.

Definition plante : forbiddenWord :=
  {| Word := lit "Plante";
     Forbidden := [lit "Pousser"; lit "Feuille"; lit "Vert"];
     languageName := lit "French" |}.

Definition fruit : forbiddenWord :=
  {| Word := lit "Fruit";
     Forbidden := [lit "Agrume"; lit "Pomme"];
     languageName := lit "French" |}.

Definition unavailable : error := Error (lit "503 service unavailable").

Definition poussent : Result GenerateContentResponse :=
  reply (verdictJSON true "Pousser" "poussent").
Definition orange : Result GenerateContentResponse :=
  reply (verdictJSON true "Agrume" "orange").
Definition grow : Result GenerateContentResponse :=
  reply (verdictJSON true "Pousser" "grow").
Definition clean : Result GenerateContentResponse :=
  reply (verdictJSON false "" "").

(** Three scripted backends: both checks answer (yes, no); the
    same-root request fails while the translation check answers
    yes; both checks answer no. *)
Definition confirming : Backend :=
  backend poussent (answer "Yes") (answer "No") (answer "plante").
Definition failing : Backend :=
  backend grow (Fail unavailable) (answer "Yes") (answer "plante").
Definition doubting : Backend :=
  backend orange (answer "No") (answer "No") (answer "fruit").
End Script.

(** The line [main] prints when the judge's verdict is a loss: the
    exact match or the fuzzy match. *)
Definition lossMessage {U : Unicode} (said matched : gostring) : Message :=
  if gostring_eqb (normalize said) (normalize matched)
  then usedForbiddenWord matched
  else usedForbiddenInflection said matched.

(** ** Reading the traces of the live game *)

Section LiveReadings.
Context {W : LiveWire}.

Definition Session_eqb (a b : Session) : bool :=
  match a, b with
  | Guesser, Guesser | Judge, Judge => true
  | _, _ => false
  end.

Definition isSend (e : LiveEvent) : bool :=
  match e with
  | SendRealtimeInput _ _ => true
  | _ => false
  end.

Definition isWrite (e : LiveEvent) : bool :=
  match e with
  | WriteMessage _ => true
  | _ => false
  end.

Definition noSend (t : list LiveEvent) : bool :=
  forallb (fun e => negb (isSend e)) t.

(** The frames sent to session [s], in the order of the trace. *)
Fixpoint sentTo (s : Session) (t : list LiveEvent) : list LiveRealtimeInput :=
  match t with
  | [] => []
  | SendRealtimeInput s' f :: t' =>
      if Session_eqb s s' then f :: sentTo s t' else sentTo s t'
  | _ :: t' => sentTo s t'
  end.

(** Each frame to the guesser's session, then to the judge's. *)
Definition fanOut (frames : list LiveRealtimeInput) : list LiveEvent :=
  flat_map (fun f => [SendRealtimeInput Guesser f; SendRealtimeInput Judge f])
    frames.

(** The request is for a supported language, the upgrade succeeds and
    both sessions connect: a game is on. *)
Definition established (r : Environment) (l : Lang) : Prop :=
  langOf (TrimPrefix (path r) (lit "/live/")) = Some l /\
  upgrade r = None /\ connectGuesser r = None /\ connectJudge r = None.

(** The events a thread of the pool has still to perform. *)
Definition eventsOf (t : Thread) (p : Pool) : list LiveEvent :=
  match t with
  | Handler => handler p
  | GuessingLoop => guessing p
  | JudgeLoop => judging p
  end.

(** No [SendRealtimeInput] follows the start of the judge loop in the
    handler's program. *)
Fixpoint quiet (h : list LiveEvent) : bool :=
  match h with
  | [] => true
  | GoFunc JudgeLoop :: h' => noSend h'
  | _ :: h' => quiet h'
  end.

(** In a run, every [SendRealtimeInput] comes before the first event
    of the judge loop. *)
Fixpoint sendsBeforeJudge (run : list (Thread * LiveEvent)) : bool :=
  match run with
  | [] => true
  | (JudgeLoop, _) :: run' => noSend (map snd run')
  | _ :: run' => sendsBeforeJudge run'
  end.

(** What has been written to the client in a run. *)
Definition written (run : list (Thread * LiveEvent)) : list bytes :=
  flat_map (fun te => match snd te with
                      | WriteMessage b => [b]
                      | _ => []
                      end) run.

(** The judge loop has done something in the run. *)
Definition judgeActive (run : list (Thread * LiveEvent)) : bool :=
  existsb (fun te => match fst te with JudgeLoop => true | _ => false end) run.
End LiveReadings.

(** ** A scripted connection, for the examples *)

Module Scenario.
(** Frames are JSON objects, kept as their text; anything that does
    not open with a brace is rejected. *)
Definition wire : LiveWire :=
  {| LiveRealtimeInput := bytes;
     UnmarshalRealtimeInput := fun message =>
       match message with
       | 123%N :: _ => Ok message
       | _ => Fail (Error (lit "invalid character"))
       end;
     Marshal := fun message => Ok (Payload message) |}.

Definition audio1 : bytes := lit "{audio:1}".
Definition audio2 : bytes := lit "{audio:2}".
Definition garbage : bytes := lit "not json".

Definition guess (text : string) : LiveServerMessage :=
  {| ServerContent := Some {| OutputTranscription := Some {| Text := lit text |};
                              ContentPayload := [] |};
     Payload := lit text |}.

Definition closed : error := Error (lit "websocket: close 1001 (going away)").
Definition eof : error := Error (lit "EOF").
Definition handshake : error :=
  Error (lit "websocket: the client is not using the websocket protocol").
Definition unavailable : error := Error (lit "503 service unavailable").

(** A game in which the player sends two frames and leaves; both
    sessions have something to say from the start. *)
Definition game : Environment :=
  {| path := lit "/live/fr";
     forbiddenWords := [lit "Pousser"; lit "Feuille"];
     gameID := lit "aB3x";
     upgrade := None;
     connectGuesser := None;
     connectJudge := None;
     clientReads := [Ok audio1; Ok audio2; Fail closed];
     guesserReceives := [Ok (guess "arbre"); Fail eof];
     clientWrites := [];
     judgeReceives := [Ok (guess "poussent"); Fail eof] |}.

(** The same game while the player is still connected. *)
Definition ongoing : Environment :=
  {| path := path game; forbiddenWords := forbiddenWords game;
     gameID := gameID game; upgrade := None; connectGuesser := None;
     connectJudge := None;
     clientReads := [Ok audio1; Ok audio2];
     guesserReceives := guesserReceives game;
     clientWrites := [];
     judgeReceives := judgeReceives game |}.

(** The second frame is not JSON. *)
Definition malformed : Environment :=
  {| path := path game; forbiddenWords := forbiddenWords game;
     gameID := gameID game; upgrade := None; connectGuesser := None;
     connectJudge := None;
     clientReads := [Ok audio1; Ok garbage; Ok audio2];
     guesserReceives := guesserReceives game;
     clientWrites := [];
     judgeReceives := judgeReceives game |}.

(** A plain GET of [/live/fr]: the upgrade fails. *)
Definition plainGet : Environment :=
  {| path := path game; forbiddenWords := []; gameID := gameID game;
     upgrade := Some handshake; connectGuesser := None; connectJudge := None;
     clientReads := []; guesserReceives := []; clientWrites := [];
     judgeReceives := [] |}.

(** The backend refuses the first, or the second, live session. *)
Definition guesserDown : Environment :=
  {| path := path game; forbiddenWords := []; gameID := gameID game;
     upgrade := None; connectGuesser := Some unavailable; connectJudge := None;
     clientReads := []; guesserReceives := []; clientWrites := [];
     judgeReceives := [] |}.

Definition judgeDown : Environment :=
  {| path := path game; forbiddenWords := []; gameID := gameID game;
     upgrade := None; connectGuesser := None; connectJudge := Some unavailable;
     clientReads := []; guesserReceives := []; clientWrites := [];
     judgeReceives := [] |}.
End Scenario.

(** ** Further readings of the turn-based game *)

(** The prompts [haveSameRoot] and [isTranslation] send. *)
Definition sameRootPrompt (word1 word2 : gostring) : gostring :=
  lit "Can we say that the words '" ++ word1 ++ lit "' and '" ++ word2
    ++ lit "' share the same root?" ++ answerYesOrNo.

Definition translationPrompt (word1 word2 word2Lang : gostring) : gostring :=
  lit "Can we say that the word '" ++ word1 ++ lit "' is a translation of the "
    ++ word2Lang ++ lit " word '" ++ word2 ++ lit "' in another language?"
    ++ answerYesOrNo.

(** The requests among the effects, in order. *)
Fixpoint calls (t : list Effect) : list Request :=
  match t with
  | [] => []
  | Call r :: t' => r :: calls t'
  | Print _ :: t' => calls t'
  end.

(** The lines printed among the effects, in order. *)
Fixpoint printed (t : list Effect) : list Message :=
  match t with
  | [] => []
  | Call _ :: t' => printed t'
  | Print m :: t' => m :: printed t'
  end.

(** What the loop body of [main] does with the guesser's answer once
    the judge has found no violation: print the guess, test it, and
    win or go on to the next turn (with the [err] of [main] as it
    stands). *)
Definition evaluateGuess {U : Unicode} (gameWord : forbiddenWord)
    (res : option GenerateContentResponse) (err : option error) : Io TurnEnd :=
  aiResponse <- textOf res ;;
  emit (Print (aiGuess aiResponse)) ;;;
  let (winning, err') := isWinning gameWord aiResponse in
  match err' with
  | Some _ => logFatal
  | None =>
      if winning
      then emit (Print aiGuessedTheWord) ;;; ret GameWon
      else ret (NextTurn err)
  end.

(** The number of "Describe the word" prompts, and of messages to the
    guesser, among the effects. *)
Fixpoint prompts (t : list Effect) : nat :=
  match t with
  | [] => 0
  | Print describeTheWord :: t' => S (prompts t')
  | _ :: t' => prompts t'
  end.

Fixpoint guessesAsked (t : list Effect) : nat :=
  match t with
  | [] => 0
  | Call (ChatMessage _ _) :: t' => S (guessesAsked t')
  | _ :: t' => guessesAsked t'
  end.

(** Scripted backends for whole turns: the judge finds nothing and
    the guesser names the word, or misses it; the guesser's request
    fails; the judge's request fails. *)
Module Play.
Definition winning : Backend :=
  Script.backend Script.clean (Script.answer "No") (Script.answer "No")
    (Script.answer "Une plante").
Definition missing : Backend :=
  Script.backend Script.clean (Script.answer "No") (Script.answer "No")
    (Script.answer "Un arbre").
Definition guesserDown : Backend :=
  Script.backend Script.clean (Script.answer "No") (Script.answer "No")
    (Fail Script.unavailable).
Definition judgeDown : Backend :=
  Script.backend (Fail Script.unavailable) (Script.answer "No")
    (Script.answer "No") (Script.answer "Une plante").
Definition line : gostring := lit "elle est verte" ++ [10%N].
End Play.

(** ** Further readings of the live game *)

Section MoreLiveReadings.
Context {W : LiveWire}.

(** The number of connections to, and of closings of, session [s]
    among the events. *)
Fixpoint connects (s : Session) (t : list LiveEvent) : nat :=
  match t with
  | [] => 0
  | Connect s' _ :: t' =>
      (if Session_eqb s s' then 1 else 0) + connects s t'
  | _ :: t' => connects s t'
  end.

Fixpoint closes (s : Session) (t : list LiveEvent) : nat :=
  match t with
  | [] => 0
  | CloseSession s' :: t' =>
      (if Session_eqb s s' then 1 else 0) + closes s t'
  | _ :: t' => closes s t'
  end.

(** The messages written to the client among the events, in order. *)
Fixpoint writesOf (t : list LiveEvent) : list bytes :=
  match t with
  | [] => []
  | WriteMessage b :: t' => b :: writesOf t'
  | _ :: t' => writesOf t'
  end.

(** The text of the output transcription of a message, when it has one. *)
Definition transcript (message : LiveServerMessage) : list gostring :=
  match ServerContent message with
  | Some sc =>
      match OutputTranscription sc with
      | Some ot => [Text ot]
      | None => []
      end
  | None => []
  end.
End MoreLiveReadings.

(** Whether the goroutine of thread [t] has been started; the handler
    runs from the beginning. *)
Definition started {W : LiveWire} (t : Thread) (p : Pool) : bool :=
  match t with
  | Handler => true
  | GuessingLoop => guessingStarted p
  | JudgeLoop => judgeStarted p
  end.

(** ** Random choices *)

(** [rand.Intn(n)]: it panics when [n <= 0] and gives a number of
    [[0, n)] otherwise; [draw] is the value the generator comes up
    with. *)
Definition Intn (draw : Z) (n : Z) : Outcome Z :=
  if (n <=? 0)%Z then Panics else Returns (draw mod n)%Z.




(** ** The start of the turn-based game *)

Record wordsByLang := {
  En : list forbiddenWord;
  Fr : list forbiddenWord;
  Ar : list forbiddenWord
}.

(** What the language switch of [main] sets: the word list, the
    phrases and the instructions (both known by their language) and
    the name of the language. *)
Record Choice := {
  words : list forbiddenWord;
  currentPhrases : Lang;
  instructions : Lang;
  langName : gostring
}.

Definition choose (allWords : wordsByLang) (lang : gostring) : option Choice :=
  if gostring_eqb lang (lit "fr") then
    Some {| words := Fr allWords; currentPhrases := fr; instructions := fr;
            langName := lit "French" |}
  else if gostring_eqb lang (lit "en") then
    Some {| words := En allWords; currentPhrases := en; instructions := en;
            langName := lit "English" |}
  else if gostring_eqb lang (lit "ar") then
    Some {| words := Ar allWords; currentPhrases := ar; instructions := ar;
            langName := lit "Arabic" |}
  else None.

(** [for !langChosen { ... }]: each round prints the English prompt
    and reads a line, the read error ignored; [stdin] holds the lines
    still to be read (the empty line at end of input).  The result is
    the number of prompts printed and, when a language was chosen
    within [fuel] rounds, the choice and the lines left. *)
Fixpoint languageLoop {U : Unicode} (fuel : nat) (allWords : wordsByLang)
    (stdin : list gostring) : nat * option (Choice * list gostring) :=
  match fuel with
  | O => (0, None)
  | S fuel' =>
      let (line, stdin') := hd_tl [] stdin in
      match choose allWords (TrimSpace line) with
      | Some c => (1, Some (c, stdin'))
      | None =>
          let (n, r) := languageLoop fuel' allWords stdin' in (S n, r)
      end
  end.

(** [gameWord := words[r.Intn(len(words))]] and
    [gameWord.languageName = langName]. *)
Definition pickWord (draw : Z) (c : Choice) : Outcome forbiddenWord :=
  match Intn draw (Z.of_nat (List.length (words c))) with
  | Returns i =>
      match nth_error (words c) (Z.to_nat i) with
      | Some w => Returns {| Word := Word w; Forbidden := Forbidden w;
                             languageName := langName c |}
      | None => Panics
      end
  | Panics => Panics
  | Exits => Exits
  end.

(** What is printed about the word picked: an empty line, the word
    and its proscribed words; the text of a phrase is known by its
    language. *)
Inductive StartMessage : Type :=
| emptyLine                                       (* fmt.Println() *)
| wordToDescribe (l : Lang) (word : gostring)
| forbiddenWordsAre (l : Lang) (joined : gostring).

Definition announce (c : Choice) (gameWord : forbiddenWord) : list StartMessage :=
  [emptyLine;
   wordToDescribe (currentPhrases c) (Word gameWord);
   forbiddenWordsAre (currentPhrases c) (Join (Forbidden gameWord) (lit ", "))].

(** The language code the player types for a language. *)
Definition codeOf (l : Lang) : gostring :=
  match l with
  | en => lit "en"
  | fr => lit "fr"
  | ar => lit "ar"
  end.

Definition wordsOf (allWords : wordsByLang) (l : Lang) : list forbiddenWord :=
  match l with
  | en => En allWords
  | fr => Fr allWords
  | ar => Ar allWords
  end.

Definition nameOf (l : Lang) : gostring :=
  match l with
  | en => lit "English"
  | fr => lit "French"
  | ar => lit "Arabic"
  end.
(* ================================================================== *)
(** * Part II: properties                                              *)
(* ================================================================== *)

(** ** Substrings *)

Lemma HasPrefix_spec (s p : gostring) :
  HasPrefix s p = true <-> exists post, s = p ++ post.
Proof.
  revert s; induction p as [|c p IH]; intros s.
  - split; [intros _; now exists s | now destruct s].
  - destruct s as [|d s]; simpl.
    + split; [discriminate | intros [post H]; discriminate].
    + rewrite andb_true_iff, N.eqb_eq, IH. split.
      * intros [-> [post ->]]. now exists post.
      * intros [post H]. injection H as -> ->. split; [reflexivity | now exists post].
Qed.

Lemma Index_lower_bound (s substr : gostring) : (-1 <= Index s substr)%Z.
Proof.
  induction s as [|d s IH]; simpl.
  - destruct (HasPrefix [] substr); lia.
  - destruct (HasPrefix (d :: s) substr); [lia|].
    destruct (Z.ltb_spec (Index s substr) 0); lia.
Qed.

Lemma Contains_spec (s substr : gostring) :
  Contains s substr = true <-> exists pre post, s = pre ++ substr ++ post.
Proof.
  unfold Contains. rewrite Z.leb_le.
  induction s as [|d s IH]; simpl.
  - destruct (HasPrefix [] substr) eqn:E.
    + apply HasPrefix_spec in E. destruct E as [post E].
      split; [intros _; now exists [], post | lia].
    + split; [lia|]. intros (pre & post & H).
      destruct pre; [|discriminate]. simpl in H.
      assert (HasPrefix [] substr = true) by (apply HasPrefix_spec; now exists post).
      congruence.
  - destruct (HasPrefix (d :: s) substr) eqn:E.
    + apply HasPrefix_spec in E. destruct E as [post E].
      split; [intros _; now exists [], post | lia].
    + pose proof (Index_lower_bound s substr).
      destruct (Z.ltb_spec (Index s substr) 0).
      * split; [lia|]. intros (pre & post & H1).
        destruct pre as [|c pre]; simpl in H1.
        -- assert (HasPrefix (d :: s) substr = true)
             by (apply HasPrefix_spec; now exists post).
           congruence.
        -- injection H1 as -> ->.
           assert (0 <= Index (pre ++ substr ++ post) substr)%Z
             by (apply IH; now exists pre, post).
           lia.
      * split; [|lia]. intros _.
        destruct (proj1 IH) as (pre & post & ->); [lia|].
        now exists (d :: pre), post.
Qed.

(** ** [normalize] *)

Section NormalizeFacts.
Context {U : Unicode}.

Lemma ToLower_lowered (s : gostring) : lowered s -> ToLower s = s.
Proof.
  induction 1 as [|r s Hr _ IH]; simpl; [reflexivity|].
  now rewrite Hr, IH.
Qed.

Lemma removeMn_lowered (s : gostring) : lowered s -> lowered (removeMn s).
Proof.
  unfold lowered, removeMn. rewrite !Forall_forall.
  intros H r Hr. apply filter_In in Hr. now apply H.
Qed.

Lemma removeMn_noMn (s : gostring) : noMn s -> removeMn s = s.
Proof.
  induction 1 as [|r s Hr _ IH]; simpl; [reflexivity|].
  now rewrite Hr, IH.
Qed.

Hypothesis laws : UnicodeLaws.

Lemma lowered_ToLower (s : gostring) : lowered (ToLower s).
Proof.
  unfold lowered, ToLower. apply Forall_forall. intros r Hr.
  apply in_map_iff in Hr. destruct Hr as [r' [<- _]].
  apply (lower_idem laws).
Qed.

Lemma lowered_normalize (s : gostring) : lowered (normalize s).
Proof.
  unfold normalize, tr.
  apply (nfc_lowered laws), removeMn_lowered, (nfd_lowered laws),
    lowered_ToLower.
Qed.

Lemma tr_normalize (s : gostring) : tr (normalize s) = normalize s.
Proof.
  unfold normalize, tr.
  rewrite (nfd_nfc laws).
  rewrite (removeMn_noMn (nfd_stripped laws (ToLower s))).
  apply (nfc_nfd laws).
Qed.
End NormalizeFacts.

(** ** The Latin-1 implementation satisfies the laws *)

Lemma list_ind2 (A : Type) (P : list A -> Prop) :
  P [] -> (forall a, P [a]) ->
  (forall a b l, P l -> P (b :: l) -> P (a :: b :: l)) ->
  forall l, P l.
Proof.
  intros H0 H1 H2 l.
  enough (P l /\ forall a, P (a :: l)) by tauto.
  induction l as [|b l [IHl IHc]]; split; auto.
Qed.

Module Latin1Facts.
Import Latin1.
Local Open Scope N_scope.

Lemma lookup_In c t bm : lookup c t = Some bm -> In (c, bm) t.
Proof.
  induction t as [|[p bm'] t IH]; simpl; [discriminate|].
  destruct (N.eqb_spec p c) as [->|_].
  - intros [= ->]. now left.
  - intros H. right. auto.
Qed.

Lemma lookup_pair_In b m t p : lookup_pair b m t = Some p -> In (p, (b, m)) t.
Proof.
  induction t as [|[q [b' m']] t IH]; simpl; [discriminate|].
  destruct (N.eqb_spec b' b) as [->|_]; simpl.
  - destruct (N.eqb_spec m' m) as [->|_].
    + intros [= ->]. now left.
    + intros H. right. auto.
  - intros H. right. auto.
Qed.

Lemma table_ok : Forall entry_ok decompositions.
Proof. repeat (constructor; [vm_compute; intuition congruence|]). constructor. Qed.

Lemma entry_In p b m : In (p, (b, m)) decompositions -> entry_ok (p, (b, m)).
Proof. intros H. exact (proj1 (Forall_forall _ _) table_ok _ H). Qed.

Lemma decompose_Some c b m :
  decompose c = Some (b, m) -> entry_ok (c, (b, m)).
Proof. intros H. apply entry_In, lookup_In, H. Qed.

Lemma compose_Some b m p : compose b m = Some p -> entry_ok (p, (b, m)).
Proof. intros H. apply entry_In, lookup_pair_In, H. Qed.

(** A precomposed letter is no base, and neither a base nor a
    precomposed letter is a mark. *)
Lemma compose_key c b m x : decompose c = Some (b, m) -> compose c x = None.
Proof.
  intros H. destruct (compose c x) as [q|] eqn:E; [|reflexivity].
  apply compose_Some in E. destruct E as (E & _). congruence.
Qed.

Lemma compose_not_mark c x : isMn x = false -> compose c x = None.
Proof.
  intros H. destruct (compose c x) as [q|] eqn:E; [|reflexivity].
  apply compose_Some in E. destruct E as (_ & _ & _ & _ & E & _). congruence.
Qed.

Lemma nfd_cons c s :
  nfd (c :: s) = match decompose c with
                 | Some (b, m) => b :: m :: nfd s
                 | None => c :: nfd s
                 end.
Proof. unfold nfd; simpl. now destruct (decompose c) as [[b m]|]. Qed.

Lemma nfc_cons2 a b l :
  nfc (a :: b :: l) = match compose a b with
                      | Some p => p :: nfc l
                      | None => a :: nfc (b :: l)
                      end.
Proof. reflexivity. Qed.

Lemma latin1_lower_idem r : toLower (toLower r) = toLower r.
Proof.
  unfold toLower.
  destruct (((65 <=? r) && (r <=? 90))
            || ((192 <=? r) && (r <=? 222) && negb (r =? 215))) eqn:E;
    [|now rewrite E].
  rewrite orb_true_iff, !andb_true_iff, !N.leb_le in E.
  destruct (N.leb_spec 65 (r + 32)), (N.leb_spec (r + 32) 90),
    (N.leb_spec 192 (r + 32)), (N.leb_spec (r + 32) 222);
    simpl; try reflexivity; lia.
Qed.

Lemma latin1_nfd_lowered s :
  Forall (fun r => toLower r = r) s ->
  Forall (fun r => toLower r = r) (nfd s).
Proof.
  induction 1 as [|c s Hc _ IH]; [constructor|].
  rewrite nfd_cons. destruct (decompose c) as [[b m]|] eqn:E.
  - apply decompose_Some in E.
    destruct E as (_ & _ & _ & _ & _ & _ & _ & Hm & Hpb).
    apply N.eqb_eq in Hc. rewrite Hpb in Hc. apply N.eqb_eq in Hc.
    now repeat constructor.
  - now constructor.
Qed.

Lemma latin1_nfc_lowered s :
  Forall (fun r => toLower r = r) s ->
  Forall (fun r => toLower r = r) (nfc s).
Proof.
  induction s as [| a | a b l IH1 IH2] using list_ind2; intros H.
  - constructor.
  - exact H.
  - rewrite nfc_cons2. inversion H as [|? ? Ha H']; subst.
    inversion H' as [|? ? Hb Hl]; subst.
    destruct (compose a b) as [p|] eqn:E.
    + apply compose_Some in E.
      destruct E as (_ & _ & _ & _ & _ & _ & _ & _ & Hpb).
      apply N.eqb_eq in Ha. rewrite <- Hpb in Ha. apply N.eqb_eq in Ha.
      constructor; auto.
    + constructor; auto.
Qed.

Lemma latin1_nfd_nfc s : nfd (nfc s) = nfd s.
Proof.
  induction s as [| a | a b l IH1 IH2] using list_ind2; try reflexivity.
  rewrite nfc_cons2. destruct (compose a b) as [p|] eqn:E.
  - apply compose_Some in E. destruct E as (Ea & Eb & Ep & _).
    rewrite !nfd_cons, Ea, Eb, Ep, IH1. reflexivity.
  - rewrite (nfd_cons a (nfc _)), IH2, (nfd_cons a). reflexivity.
Qed.

Lemma latin1_nfc_nfd s : nfc (nfd s) = nfc s.
Proof.
  induction s as [| a | a b l IH1 IH2] using list_ind2; try reflexivity.
  - rewrite nfd_cons. destruct (decompose a) as [[ba ma]|] eqn:Ea;
      [|reflexivity].
    apply decompose_Some in Ea. destruct Ea as (_ & _ & _ & Ec & _).
    simpl. now rewrite Ec.
  - rewrite (nfd_cons a). destruct (decompose a) as [[ba ma]|] eqn:Ea.
    + rewrite nfc_cons2, (nfc_cons2 a b), (compose_key a b Ea), IH2.
      apply decompose_Some in Ea. destruct Ea as (_ & _ & _ & -> & _).
      reflexivity.
    + rewrite (nfc_cons2 a b). rewrite nfd_cons in IH2 |- *.
      destruct (decompose b) as [[bb mb]|] eqn:Eb.
      * rewrite nfc_cons2.
        pose proof (decompose_Some _ Eb) as (_ & _ & _ & _ & _ & Hbb & Hb & _).
        rewrite (compose_not_mark a _ Hbb), (compose_not_mark a _ Hb), IH2.
        reflexivity.
      * rewrite nfc_cons2. destruct (compose a b) as [p|];
          [now rewrite IH1 | now rewrite IH2].
Qed.

Lemma nfd_inert s : Forall (fun c => decompose c = None) (nfd s).
Proof.
  induction s as [|c s IH]; [constructor|].
  rewrite nfd_cons. destruct (decompose c) as [[b m]|] eqn:E.
  - apply decompose_Some in E. destruct E as (Eb & Em & _).
    now repeat constructor.
  - now constructor.
Qed.

Lemma nfd_of_inert s : Forall (fun c => decompose c = None) s -> nfd s = s.
Proof.
  induction 1 as [|c s Hc _ IH]; [reflexivity|].
  now rewrite nfd_cons, Hc, IH.
Qed.

Lemma latin1_laws : @UnicodeLaws unicode.
Proof.
  split; simpl.
  - exact latin1_lower_idem.
  - exact latin1_nfd_lowered.
  - exact latin1_nfc_lowered.
  - exact latin1_nfd_nfc.
  - exact latin1_nfc_nfd.
  - intros s. unfold noMn, removeMn; simpl.
    rewrite nfd_of_inert.
    + apply Forall_forall. intros r Hr. apply filter_In in Hr.
      destruct Hr as [_ Hr]. now destruct (isMn r).
    + pose proof (nfd_inert s) as H. rewrite Forall_forall in H |- *.
      intros r Hr. apply filter_In in Hr. now apply H.
Qed.
End Latin1Facts.

(** ** The guess-match predicate *)

Lemma normalize_cafe (U : Unicode) :
  CafeData U -> normalize cafe_accent = lit "cafe" /\ normalize CAFE = lit "cafe".
Proof.
  intros (HL & Hl & Hd & Hd' & Hm & Hn & Hc).
  unfold normalize, tr. rewrite HL, Hl, Hd, Hd'. split.
  - unfold removeMn. rewrite filter_app. fold (removeMn (lit "cafe")).
    rewrite (removeMn_noMn Hn). simpl. rewrite Hm. simpl.
    exact Hc.
  - now rewrite (removeMn_noMn Hn).
Qed.

(** C5. [isWinning] returns true, with a nil error, exactly when the
    normalized guess contains the normalized secret word as a
    substring; and, given the Unicode data of the eight letters
    involved, "café" and "CAFE" normalize to the same string. *)
Theorem isWinning_contains_normalized :
  forall U : Unicode,
    (forall (fw : forbiddenWord) (guess : gostring),
        snd (isWinning fw guess) = None /\
        (fst (isWinning fw guess) = true <->
         exists pre post,
           normalize guess = pre ++ normalize (Word fw) ++ post)) /\
    (CafeData U -> normalize cafe_accent = normalize CAFE).
Proof.
  intros U. split.
  - intros fw guess. split; [reflexivity|].
    unfold isWinning; simpl. apply Contains_spec.
  - intros H. destruct (normalize_cafe H) as [-> ->]. reflexivity.
Qed.

Lemma Latin1_CafeData : CafeData Latin1.unicode.
Proof.
  repeat split; try reflexivity.
  repeat constructor.
Qed.

Lemma isWinning_contains_normalized_witness :
  CafeData Latin1.unicode /\
  @normalize Latin1.unicode cafe_accent = @normalize Latin1.unicode CAFE.
Proof.
  split.
  - exact Latin1_CafeData.
  - exact (proj2 (isWinning_contains_normalized Latin1.unicode) Latin1_CafeData).
Defined.

(** C9. [normalize] is idempotent, for every implementation of the
    Unicode packages that satisfies the laws of case mapping and of
    canonical normalisation. *)
Theorem normalize_idempotent :
  forall U : Unicode, UnicodeLaws ->
  forall s : gostring, normalize (normalize s) = normalize s.
Proof.
  intros U laws s.
  unfold normalize at 1.
  rewrite (ToLower_lowered (lowered_normalize laws s)).
  apply (tr_normalize laws).
Qed.

Lemma normalize_idempotent_witness :
  @UnicodeLaws Latin1.unicode /\
  @normalize Latin1.unicode (@normalize Latin1.unicode cafe_accent)
  = @normalize Latin1.unicode cafe_accent.
Proof.
  split.
  - exact Latin1Facts.latin1_laws.
  - exact (@normalize_idempotent Latin1.unicode Latin1Facts.latin1_laws cafe_accent).
Defined.

(** ** errgroup: every schedule is one of the interleavings *)

Section ErrgroupFacts.
Variable St : Type.

Lemma Merge_app (A : Type) (a b : list A) : Merge a b (a ++ b).
Proof.
  induction a as [|x a IH]; simpl; [apply Merge_right|].
  now apply Merge_a.
Qed.

Lemma interleave_Merge (sched : list bool) :
  forall (a b : list (action St)) (g : Group St),
  exists l, Merge a b l /\ interleave sched a b g = exec l g.
Proof.
  induction sched as [|pick sched IH]; intros a b g; simpl.
  - exists (a ++ b). split; [apply Merge_app | reflexivity].
  - destruct a as [|x a]; [exists b; split; [apply Merge_right | reflexivity]|].
    destruct b as [|y b]; [exists (x :: a); split; [apply Merge_left | reflexivity]|].
    destruct pick.
    + destruct (x g) as [g'|] eqn:E.
      * destruct (IH a (y :: b) g') as (l & Hl & ->).
        exists (x :: l). split; [now apply Merge_a | simpl; now rewrite E].
      * exists (x :: a ++ y :: b). split; [apply Merge_a, Merge_app|].
        simpl. now rewrite E.
    + destruct (y g) as [g'|] eqn:E.
      * destruct (IH (x :: a) b g') as (l & Hl & ->).
        exists (y :: l). split; [now apply Merge_b | simpl; now rewrite E].
      * exists (y :: b ++ x :: a). split.
        -- apply Merge_b. clear. induction b as [|z b IH]; simpl;
             [apply Merge_left | now apply Merge_b].
        -- simpl. now rewrite E.
Qed.

(** The six interleavings of two goroutines of two steps each. *)
Lemma Merge_two (A : Type) (b1 r1 b2 r2 : A) l :
  Merge [b1; r1] [b2; r2] l ->
  l = [b1; r1; b2; r2] \/ l = [b1; b2; r1; r2] \/ l = [b1; b2; r2; r1] \/
  l = [b2; b1; r1; r2] \/ l = [b2; b1; r2; r1] \/ l = [b2; r2; b1; r1].
Proof.
  intros H.
  repeat match goal with
         | H : Merge _ _ _ |- _ => inversion H; clear H; subst
         end; tauto.
Qed.

Lemma Wait_cases (sched : list bool) (f1 f2 : Goroutine St) (s : St) :
  let b1 := body_step f1 in let r1 := return_step f1 in
  let b2 := body_step f2 in let r2 := return_step f2 in
  let g := {| vars := s; first_err := None |} in
  exists l,
    (l = [b1; r1; b2; r2] \/ l = [b1; b2; r1; r2] \/ l = [b1; b2; r2; r1] \/
     l = [b2; b1; r1; r2] \/ l = [b2; b1; r2; r1] \/ l = [b2; r2; b1; r1]) /\
    Wait sched f1 f2 s = match exec l g with
                         | Some g' => Some (vars g', first_err g')
                         | None => None
                         end.
Proof.
  intros b1 r1 b2 r2 g. unfold Wait.
  destruct (interleave_Merge sched (Go f1) (Go f2) g) as (l & Hl & E).
  exists l. split; [exact (Merge_two Hl)|].
  fold g. now rewrite E.
Qed.
End ErrgroupFacts.

(** ** The verdict pipeline *)

Section JudgeFacts.
Context {U : Unicode} {B : Backend} {J : JsonVerdict}.
Variables judgeIntro judgeRules : gostring.

Lemma body_sameRoot (result : JudgeResult) (g : Group Checks) tA bA eA :
  haveSameRoot (Fragment result) (ForbiddenWord result)
    = (tA, Returns (bA, eA)) ->
  body_step (goSameRoot result) g
  = Some {| vars := {| isSameRoot := bA;
                       isTranslated := isTranslated (vars g);
                       checks_err := eA;
                       checks_effects := checks_effects (vars g) ++ tA |};
            first_err := first_err g |}.
Proof. intros H. unfold body_step, goSameRoot; cbn [body]. now rewrite H. Qed.

Lemma body_translation (result : JudgeResult) (fw : forbiddenWord)
    (g : Group Checks) tB bB eB :
  isTranslation (Fragment result) (ForbiddenWord result) (languageName fw)
    = (tB, Returns (bB, eB)) ->
  body_step (goTranslation result fw) g
  = Some {| vars := {| isSameRoot := isSameRoot (vars g);
                       isTranslated := bB;
                       checks_err := eB;
                       checks_effects := checks_effects (vars g) ++ tB |};
            first_err := first_err g |}.
Proof. intros H. unfold body_step, goTranslation; cbn [body]. now rewrite H. Qed.

(** The join of the two confirmation checks, when both come back:
    the two answers are in the shared variables, both requests were
    sent, and the error of the join is an error of one of them. *)
Lemma checks_join (sched : list bool) (result : JudgeResult)
    (fw : forbiddenWord) tA bA eA tB bB eB :
  haveSameRoot (Fragment result) (ForbiddenWord result)
    = (tA, Returns (bA, eA)) ->
  isTranslation (Fragment result) (ForbiddenWord result) (languageName fw)
    = (tB, Returns (bB, eB)) ->
  exists st err,
    Wait sched (goSameRoot result) (goTranslation result fw) checks0
      = Some (st, err) /\
    isSameRoot st = bA /\ isTranslated st = bB /\
    (checks_effects st = tA ++ tB \/ checks_effects st = tB ++ tA) /\
    (eA = None -> eB = None -> err = None) /\
    (forall e, err = Some e -> eA = Some e \/ eB = Some e).
Proof.
  intros HA HB.
  destruct (Wait_cases sched (goSameRoot result) (goTranslation result fw)
              checks0) as (l & Hl & ->).
  destruct Hl as [-> | [-> | [-> | [-> | [-> | ->]]]]];
    repeat (cbn [exec]; unfold return_step;
            rewrite ?(body_sameRoot _ _ HA), ?(body_translation _ _ _ HB));
    cbn; eexists; eexists; (split; [reflexivity|]);
    (repeat split; auto);
    try (intros -> ->; reflexivity);
    destruct eA, eB; intros e' [= <-]; auto.
Qed.

Lemma exec_None (St : Type) (a : action St) (l : list (action St)) :
  In a l -> (forall g, a g = None) -> forall g, exec l g = None.
Proof.
  intros Hin Ha. induction l as [|x l IH]; intros g; [destruct Hin|].
  simpl. destruct Hin as [->|Hin]; [now rewrite Ha|].
  destruct (x g); auto.
Qed.

(** A check that does not come back takes the process with it. *)
Lemma checks_join_panic (sched : list bool) (result : JudgeResult)
    (fw : forbiddenWord) :
  (forall v, snd (haveSameRoot (Fragment result) (ForbiddenWord result))
             <> Returns v) \/
  (forall v, snd (isTranslation (Fragment result) (ForbiddenWord result)
                    (languageName fw)) <> Returns v) ->
  Wait sched (goSameRoot result) (goTranslation result fw) checks0 = None.
Proof.
  intros H.
  destruct (Wait_cases sched (goSameRoot result) (goTranslation result fw)
              checks0) as (l & Hl & ->).
  enough (E : forall g, exec l g = None) by now rewrite E.
  destruct H as [H|H].
  - apply exec_None with (a := body_step (goSameRoot result)).
    + destruct Hl as [-> | [-> | [-> | [-> | [-> | ->]]]]]; simpl; tauto.
    + intros g. unfold body_step, goSameRoot; cbn [body].
      destruct (haveSameRoot _ _) as [t [[b e]| |]]; try reflexivity.
      now destruct (H (b, e)).
  - apply exec_None with (a := body_step (goTranslation result fw)).
    + destruct Hl as [-> | [-> | [-> | [-> | [-> | ->]]]]]; simpl; tauto.
    + intros g. unfold body_step, goTranslation; cbn [body].
      destruct (isTranslation _ _ _) as [t [[b e]| |]]; try reflexivity.
      now destruct (H (b, e)).
Qed.

(** [saidForbidden] once the structured judgment reports a loss and
    both checks have come back. *)
Lemma saidForbidden_checked (sched : list bool) (fw : forbiddenWord)
    (said : gostring) (result : JudgeResult) tA bA eA tB bB eB :
  judged judgeIntro judgeRules fw said result ->
  Lost result = true ->
  haveSameRoot (Fragment result) (ForbiddenWord result)
    = (tA, Returns (bA, eA)) ->
  isTranslation (Fragment result) (ForbiddenWord result) (languageName fw)
    = (tB, Returns (bB, eB)) ->
  exists err,
    (eA = None -> eB = None -> err = None) /\
    (forall e, err = Some e -> eA = Some e \/ eB = Some e) /\
    snd (saidForbidden judgeIntro judgeRules sched fw said)
    = Returns match err with
              | Some e => noViolation (Some e)
              | None =>
                  if bA || bB
                  then (true, Fragment result, ForbiddenWord result, None)
                  else noViolation None
              end.
Proof.
  intros (resp & text & Hg & Ht & Hu) HL HA HB.
  destruct (checks_join sched result fw HA HB)
    as (st & err & HW & <- & <- & _ & Hnone & Hsome).
  exists err. split; [exact Hnone|]. split; [exact Hsome|].
  unfold saidForbidden, generate, bind. rewrite Hg, Ht; cbn [ret].
  rewrite Hu, HL; cbn [negb]. rewrite HW.
  destruct err as [e|]; [reflexivity|].
  destruct (isSameRoot st), (isTranslated st); reflexivity.
Qed.

End JudgeFacts.

(** C1, as the code has it.  When the structured judgment reports no
    loss, [saidForbidden] returns no violation and the judgment is the
    only request it has sent.  When it reports a loss and both
    confirmation checks come back with an answer, the verdict is a
    loss, with the fragment and the proscribed word, exactly when one
    of the two answers is yes, and no violation otherwise; under
    every schedule of the two checks. *)
Theorem saidForbidden_verdict :
  forall (U : Unicode) (B : Backend) (J : JsonVerdict)
         (judgeIntro judgeRules : gostring) (sched : list bool)
         (fw : forbiddenWord) (said : gostring) (result : JudgeResult),
    judged judgeIntro judgeRules fw said result ->
    (Lost result = false ->
     saidForbidden judgeIntro judgeRules sched fw said
     = ([Call (JudgeRequest (systemInstruction judgeIntro judgeRules fw) said)],
        Returns (false, [], [], None))) /\
    (Lost result = true ->
     forall sameRoot translated : bool,
       answers (haveSameRoot (Fragment result) (ForbiddenWord result)) sameRoot ->
       answers (isTranslation (Fragment result) (ForbiddenWord result)
                  (languageName fw)) translated ->
       snd (saidForbidden judgeIntro judgeRules sched fw said)
       = Returns (if sameRoot || translated
                  then (true, Fragment result, ForbiddenWord result, None)
                  else (false, [], [], None))).
Proof.
  intros U B J judgeIntro judgeRules sched fw said result Hj. split.
  - intros HL. destruct Hj as (resp & text & Hg & Ht & Hu).
    unfold saidForbidden, generate, bind. rewrite Hg, Ht; cbn [ret].
    rewrite Hu, HL. reflexivity.
  - intros HL sameRoot translated HA HB. unfold answers in HA, HB.
    destruct (haveSameRoot _ _) as [tA oA] eqn:EA.
    destruct (isTranslation _ _ _) as [tB oB] eqn:EB.
    simpl in HA, HB; subst oA oB.
    destruct (saidForbidden_checked sched Hj HL EA EB) as (err & Hnone & _ & ->).
    now rewrite (Hnone eq_refl eq_refl).
Qed.

Lemma saidForbidden_verdict_witness :
  snd (@saidForbidden Latin1.unicode Script.confirming Script.json [] []
         [true; false] Script.plante (lit "les fleurs poussent"))
  = Returns (true, lit "poussent", lit "Pousser", None).
Proof.
  refine (proj2 (@saidForbidden_verdict Latin1.unicode Script.confirming
                   Script.json [] []
                   [true; false] Script.plante (lit "les fleurs poussent")
                   {| Lost := true; ForbiddenWord := lit "Pousser";
                      Fragment := lit "poussent" |} _)
            eq_refl true false eq_refl eq_refl).
  eexists. eexists. repeat split.
Defined.

(** C1 as stated fails when a check fails: the translation check
    answers yes, the request of the same-root check fails, and
    [saidForbidden] returns the error and no violation. *)
Lemma saidForbidden_failed_check_hides_yes :
  @judged Script.failing Script.json [] [] Script.plante (lit "they grow")
    {| Lost := true; ForbiddenWord := lit "Pousser"; Fragment := lit "grow" |} /\
  answers (@isTranslation Latin1.unicode Script.failing (lit "grow")
             (lit "Pousser") (languageName Script.plante)) true /\
  snd (@saidForbidden Latin1.unicode Script.failing Script.json [] [] []
         Script.plante (lit "they grow"))
  = Returns (false, [], [], Some Script.unavailable).
Proof.
  split; [|split; reflexivity].
  eexists. eexists. repeat split.
Qed.

(** The two judgments of the specification's examples. *)
Example poussent_is_lost :
  @saidForbidden Latin1.unicode Script.confirming Script.json [] [] []
    Script.plante
    (lit "les fleurs poussent")
  = ([Call (JudgeRequest (systemInstruction [] [] Script.plante)
              (lit "les fleurs poussent"));
      Call (PromptRequest
              (lit "Can we say that the words 'poussent' and 'Pousser' share the same root?"
                 ++ answerYesOrNo));
      Call (PromptRequest
              (lit "Can we say that the word 'poussent' is a translation of the French word 'Pousser' in another language?"
                 ++ answerYesOrNo));
      Print (JudgeSameRoot (lit "poussent") (lit "Pousser"))],
     Returns (true, lit "poussent", lit "Pousser", None)).
Proof. reflexivity. Qed.

Example orange_is_a_false_alarm :
  snd (@saidForbidden Latin1.unicode Script.doubting Script.json [] []
         [false; true] Script.fruit (lit "c'est une orange"))
  = Returns (false, [], [], None).
Proof. reflexivity. Qed.

(** C10. Whenever [saidForbidden] returns a non-nil error it returns
    no violation: [lost] is false and both strings are empty.  The
    error is the error of the structured-judgment request, or the
    wrapped error of parsing its answer, or an error one of the two
    confirmation checks returned. *)
Theorem saidForbidden_error_no_violation :
  forall (U : Unicode) (B : Backend) (J : JsonVerdict)
         (judgeIntro judgeRules : gostring) (sched : list bool)
         (fw : forbiddenWord) (said : gostring)
         (lost : bool) (forbiddenSaid forbiddenMatched : gostring) (err : error),
    snd (saidForbidden judgeIntro judgeRules sched fw said)
    = Returns (lost, forbiddenSaid, forbiddenMatched, Some err) ->
    (lost = false /\ forbiddenSaid = [] /\ forbiddenMatched = []) /\
    (GenerateContent (JudgeRequest (systemInstruction judgeIntro judgeRules fw) said)
     = Fail err \/
     (exists resp text cause,
         GenerateContent (JudgeRequest (systemInstruction judgeIntro judgeRules fw) said)
         = Ok resp /\
         firstText resp = ret text /\
         Unmarshal text = Fail cause /\
         err = Errorf_w (lit "failed to parse AI response: ") cause) \/
     (exists result b,
         judged judgeIntro judgeRules fw said result /\ Lost result = true /\
         (snd (haveSameRoot (Fragment result) (ForbiddenWord result))
          = Returns (b, Some err) \/
          snd (isTranslation (Fragment result) (ForbiddenWord result)
                 (languageName fw))
          = Returns (b, Some err)))).
Proof.
  intros U B J judgeIntro judgeRules sched fw said lost fs fm err H.
  unfold saidForbidden, generate, bind in H.
  destruct (GenerateContent
              (JudgeRequest (systemInstruction judgeIntro judgeRules fw) said))
    as [resp|e] eqn:Hg.
  2:{ cbn in H. injection H as <- <- <- <-. auto. }
  destruct (firstText resp) as [t0 [text| |]] eqn:Ht; cbn [ret] in H;
    try (cbn in H; discriminate).
  assert (Ht' : firstText resp = ret text).
  { unfold firstText in Ht |- *. destruct (Candidates resp) as [|c ?];
      [discriminate|]. destruct (Parts c); [discriminate|].
    now injection Ht as <- <-. }
  destruct (Unmarshal text) as [result|cause] eqn:Hu.
  2:{ cbn in H. injection H as <- <- <- <-. split; [auto|]. right; left.
      now exists resp, text, cause. }
  destruct (Lost result) eqn:HL; cbn [negb] in H.
  2:{ cbn in H. discriminate. }
  assert (Hj : judged judgeIntro judgeRules fw said result)
    by now exists resp, text.
  destruct (haveSameRoot (Fragment result) (ForbiddenWord result))
    as [tA [[bA eA]| |]] eqn:EA;
    try (rewrite checks_join_panic in H;
         [cbn in H; discriminate | left; rewrite EA; cbn; discriminate]).
  destruct (isTranslation (Fragment result) (ForbiddenWord result)
              (languageName fw)) as [tB [[bB eB]| |]] eqn:EB;
    try (rewrite checks_join_panic in H;
         [cbn in H; discriminate | right; rewrite EB; cbn; discriminate]).
  destruct (checks_join sched result fw EA EB)
    as (st & werr & HW & _ & _ & _ & _ & Hsome).
  rewrite HW in H.
  destruct werr as [e|].
  - cbn in H. injection H as <- <- <- <-. split; [auto|]. right; right.
    exists result. destruct (Hsome e eq_refl) as [-> | ->].
    + exists bA. rewrite EA. auto.
    + exists bB. rewrite EB. auto.
  - destruct (isSameRoot st), (isTranslated st); cbn in H; discriminate.
Qed.

Lemma saidForbidden_error_no_violation_witness :
  (false = false /\ @nil rune = [] /\ @nil rune = []) /\
  (@GenerateContent Script.failing
     (JudgeRequest (systemInstruction [] [] Script.plante) (lit "they grow"))
   = Fail Script.unavailable \/
   (exists resp text cause,
       @GenerateContent Script.failing
         (JudgeRequest (systemInstruction [] [] Script.plante) (lit "they grow"))
       = Ok resp /\
       firstText resp = ret text /\
       @Unmarshal Script.json text = Fail cause /\
       Script.unavailable = Errorf_w (lit "failed to parse AI response: ") cause) \/
   (exists result b,
       @judged Script.failing Script.json [] [] Script.plante (lit "they grow")
         result /\ Lost result = true /\
       (snd (@haveSameRoot Latin1.unicode Script.failing (Fragment result)
               (ForbiddenWord result))
        = Returns (b, Some Script.unavailable) \/
        snd (@isTranslation Latin1.unicode Script.failing (Fragment result)
               (ForbiddenWord result) (languageName Script.plante))
        = Returns (b, Some Script.unavailable)))).
Proof.
  exact (@saidForbidden_error_no_violation Latin1.unicode Script.failing
           Script.json [] [] [] Script.plante (lit "they grow")
           false [] [] Script.unavailable eq_refl).
Defined.

(** ** A turn of the game *)

Section TurnFacts.
Context {U : Unicode} {B : Backend} {J : JsonVerdict}.
Variables judgeIntro judgeRules : gostring.

Lemma body_judge inner gameWord description (g : Group TurnVars)
    tJ l said matched e :
  saidForbidden judgeIntro judgeRules inner gameWord description
    = (tJ, Returns (l, said, matched, e)) ->
  body_step (goJudge judgeIntro judgeRules inner gameWord description) g
  = Some {| vars := {| lost := l; forbiddenSaid := said;
                       forbiddenMatched := matched;
                       result := result (vars g);
                       main_err := e;
                       turn_effects := turn_effects (vars g) ++ tJ |};
            first_err := first_err g |}.
Proof. intros H. unfold body_step, goJudge; cbn [body]. now rewrite H. Qed.

Lemma body_guess history description (g : Group TurnVars) resp :
  GenerateContent (ChatMessage history description) = Ok resp ->
  body_step (goGuess history description) g
  = Some {| vars := {| lost := lost (vars g);
                       forbiddenSaid := forbiddenSaid (vars g);
                       forbiddenMatched := forbiddenMatched (vars g);
                       result := Some resp;
                       main_err := None;
                       turn_effects := turn_effects (vars g)
                                         ++ [Call (ChatMessage history description)] |};
            first_err := first_err g |}.
Proof. intros H. unfold body_step, goGuess; cbn [body]. now rewrite H. Qed.

Lemma body_guess_any history description (g : Group TurnVars) :
  body_step (goGuess history description) g
  = Some {| vars := {| lost := lost (vars g);
                       forbiddenSaid := forbiddenSaid (vars g);
                       forbiddenMatched := forbiddenMatched (vars g);
                       result :=
                         match GenerateContent (ChatMessage history description) with
                         | Ok resp => Some resp
                         | Fail _ => None
                         end;
                       main_err :=
                         match GenerateContent (ChatMessage history description) with
                         | Ok _ => None
                         | Fail e => Some e
                         end;
                       turn_effects := turn_effects (vars g)
                                         ++ [Call (ChatMessage history description)] |};
            first_err := first_err g |}.
Proof.
  unfold body_step, goGuess; cbn [body].
  now destruct (GenerateContent (ChatMessage history description)).
Qed.

(** The join of any turn in which the judge check comes back: the
    verdict is in the shared variables and both goroutines have made
    their requests, in one order or the other. *)
Lemma turn_join_any outer inner gameWord history description err0
    tJ l said matched e :
  saidForbidden judgeIntro judgeRules inner gameWord description
    = (tJ, Returns (l, said, matched, e)) ->
  exists st werr,
    Wait outer (goJudge judgeIntro judgeRules inner gameWord description)
      (goGuess history description)
      {| lost := false; forbiddenSaid := []; forbiddenMatched := [];
         result := None; main_err := err0; turn_effects := [] |}
    = Some (st, werr) /\
    lost st = l /\ forbiddenSaid st = said /\ forbiddenMatched st = matched /\
    (turn_effects st = tJ ++ [Call (ChatMessage history description)] \/
     turn_effects st = Call (ChatMessage history description) :: tJ).
Proof.
  intros HJ.
  destruct (Wait_cases outer
              (goJudge judgeIntro judgeRules inner gameWord description)
              (goGuess history description)
              {| lost := false; forbiddenSaid := []; forbiddenMatched := [];
                 result := None; main_err := err0; turn_effects := [] |})
    as (l0 & Hl & ->).
  destruct Hl as [-> | [-> | [-> | [-> | [-> | ->]]]]];
    repeat (cbn [exec]; unfold return_step;
            rewrite ?(body_judge _ _ _ _ HJ), ?body_guess_any);
    cbn; eexists; eexists; (split; [reflexivity|]); cbn; auto 10.
Qed.

(** The join of a turn in which both the judge and the guesser come
    back without error: every schedule ends with both results in
    the shared variables, both requests sent, and a nil error. *)
Lemma turn_join outer inner gameWord history description err0
    tJ l said matched resp :
  saidForbidden judgeIntro judgeRules inner gameWord description
    = (tJ, Returns (l, said, matched, None)) ->
  GenerateContent (ChatMessage history description) = Ok resp ->
  exists st,
    Wait outer (goJudge judgeIntro judgeRules inner gameWord description)
      (goGuess history description)
      {| lost := false; forbiddenSaid := []; forbiddenMatched := [];
         result := None; main_err := err0; turn_effects := [] |}
    = Some (st, None) /\
    lost st = l /\ forbiddenSaid st = said /\ forbiddenMatched st = matched /\
    result st = Some resp /\ main_err st = None /\
    (turn_effects st = tJ ++ [Call (ChatMessage history description)] \/
     turn_effects st = Call (ChatMessage history description) :: tJ).
Proof.
  intros HJ HG.
  destruct (Wait_cases outer
              (goJudge judgeIntro judgeRules inner gameWord description)
              (goGuess history description)
              {| lost := false; forbiddenSaid := []; forbiddenMatched := [];
                 result := None; main_err := err0; turn_effects := [] |})
    as (l0 & Hl & ->).
  destruct Hl as [-> | [-> | [-> | [-> | [-> | ->]]]]];
    repeat (cbn [exec]; unfold return_step;
            rewrite ?(body_judge _ _ _ _ HJ), ?(body_guess _ _ _ HG));
    cbn; eexists; (split; [reflexivity|]); cbn; auto 10.
Qed.
End TurnFacts.

(** C6. In every turn in which the judge check comes back, whatever
    its verdict and whatever the guesser's answer, and under every
    schedule: when the loop body goes on after [g.Wait()], the
    judge's requests and the guesser's request have both been made,
    in one order or the other, and each order is the outcome of some
    schedule.  When the verdict is a loss and the guesser has
    answered, the turn prints the loss and the game ends lost, without
    the guess being looked at: whatever the guess, a winning one
    included. *)
Theorem judge_loss_takes_priority :
  forall (U : Unicode) (B : Backend) (J : JsonVerdict)
         (judgeIntro judgeRules : gostring) (inner : list bool)
         (gameWord : forbiddenWord) (history : list gostring)
         (line : gostring) (err : option error)
         (tJ : list Effect) (loss : bool) (said matched : gostring)
         (judgeErr : option error),
    saidForbidden judgeIntro judgeRules inner gameWord (TrimSpace line)
      = (tJ, Returns (loss, said, matched, judgeErr)) ->
    let request := Call (ChatMessage history (TrimSpace line)) in
    let turn := fun outer =>
      turn judgeIntro judgeRules outer inner gameWord history line err in
    (forall outer, exists rest,
        fst (turn outer) = Print describeTheWord :: tJ ++ request :: rest \/
        fst (turn outer) = Print describeTheWord :: request :: tJ ++ rest) /\
    (exists rest,
        fst (turn [true; true]) = Print describeTheWord :: tJ ++ request :: rest) /\
    (exists rest,
        fst (turn [false; false]) = Print describeTheWord :: request :: tJ ++ rest) /\
    (loss = true -> judgeErr = None ->
     forall guess : GenerateContentResponse,
       GenerateContent (ChatMessage history (TrimSpace line)) = Ok guess ->
       (forall outer,
           turn outer
           = (Print describeTheWord
                :: tJ ++ [request; Print (lossMessage said matched)],
              Returns GameLost) \/
           turn outer
           = (Print describeTheWord
                :: request :: tJ ++ [Print (lossMessage said matched)],
              Returns GameLost)) /\
       (forall outer guesses scheds stdin,
           snd (gameLoop judgeIntro judgeRules (S guesses)
                  ((outer, inner) :: scheds) (line :: stdin) gameWord
                  history err)
           = Returns YouLose)).
Proof.
  intros U B J judgeIntro judgeRules inner gameWord history line err tJ
    loss said matched judgeErr HJ request turn0.
  assert (Hany : forall outer, exists st werr,
             Wait outer
               (goJudge judgeIntro judgeRules inner gameWord (TrimSpace line))
               (goGuess history (TrimSpace line))
               {| lost := false; forbiddenSaid := [];
                  forbiddenMatched := []; result := None; main_err := err;
                  turn_effects := [] |}
             = Some (st, werr) /\
             (turn_effects st = tJ ++ [request] \/
              turn_effects st = request :: tJ))
    by (intros outer;
        destruct (turn_join_any judgeIntro judgeRules outer inner gameWord
                    history (TrimSpace line) err HJ)
          as (st & werr & HW & _ & _ & _ & Ht); eauto).
  assert (Hshape : forall outer st werr,
             Wait outer
               (goJudge judgeIntro judgeRules inner gameWord (TrimSpace line))
               (goGuess history (TrimSpace line))
               {| lost := false; forbiddenSaid := [];
                  forbiddenMatched := []; result := None; main_err := err;
                  turn_effects := [] |}
             = Some (st, werr) ->
             exists rest,
               fst (turn0 outer)
               = Print describeTheWord :: turn_effects st ++ rest).
  { intros outer st werr HW. unfold turn0, turn. rewrite HW.
    cbn [bind emit]. destruct (match werr with Some _ => _ | None => _ end)
      as [rest o]. eexists. reflexivity. }
  split; [|split; [|split]].
  - intros outer. destruct (Hany outer) as (st & werr & HW & Ht).
    destruct (Hshape outer st werr HW) as [rest ->].
    exists rest. destruct Ht as [-> | ->]; [left | right];
      now rewrite <- ?app_assoc.
  - destruct (Hany [true; true]) as (st & werr & HW & _).
    destruct (Hshape _ _ _ HW) as [rest ->]. exists rest.
    revert HW. unfold Wait.
    repeat (cbn [interleave exec app Go]; unfold return_step;
            rewrite ?(body_judge _ _ _ _ _ _ HJ), ?body_guess_any).
    cbn. intros [= <- _]. cbn. now rewrite <- app_assoc.
  - destruct (Hany [false; false]) as (st & werr & HW & _).
    destruct (Hshape _ _ _ HW) as [rest ->]. exists rest.
    revert HW. unfold Wait.
    repeat (cbn [interleave exec app Go]; unfold return_step;
            rewrite ?(body_judge _ _ _ _ _ _ HJ), ?body_guess_any).
    cbn. intros [= <- _]. reflexivity.
  - intros -> -> guess HG.
    assert (Hturn : forall outer,
               turn0 outer
               = (Print describeTheWord
                    :: tJ ++ [request; Print (lossMessage said matched)],
                  Returns GameLost) \/
               turn0 outer
               = (Print describeTheWord
                    :: request :: tJ ++ [Print (lossMessage said matched)],
                  Returns GameLost)).
    { intros outer.
      destruct (turn_join judgeIntro judgeRules outer inner gameWord history
                  (TrimSpace line) err HJ HG)
        as (st & HW & Hl & Hs & Hm & _ & _ & Ht).
      unfold turn0, turn, request, lossMessage.
      rewrite HW. cbn [bind emit]. rewrite Hl, Hs, Hm.
      destruct Ht as [-> | ->]; [left | right];
        destruct (gostring_eqb (normalize said) (normalize matched));
        cbn; rewrite <- ?app_assoc; reflexivity. }
    split; [exact Hturn|].
    intros outer guesses scheds stdin. cbn [gameLoop hd_tl fst snd].
    fold (turn0 outer). destruct (Hturn outer) as [-> | ->]; reflexivity.
Qed.

Lemma judge_loss_takes_priority_witness :
  fst (@isWinning Latin1.unicode Script.plante (lit "plante")) = true /\
  snd (@gameLoop Latin1.unicode Script.confirming Script.json [] [] 3
         [([false; true], [])] [lit "les fleurs poussent" ++ [10%N]]
         Script.plante [] None)
  = Returns YouLose.
Proof.
  split; [reflexivity|].
  exact (proj2
           (proj2 (proj2 (proj2
              (@judge_loss_takes_priority Latin1.unicode Script.confirming
                 Script.json [] [] [] Script.plante []
                 (lit "les fleurs poussent" ++ [10%N]) None
                 (fst (@saidForbidden Latin1.unicode Script.confirming
                         Script.json [] [] [] Script.plante
                         (lit "les fleurs poussent")))
                 true (lit "poussent") (lit "Pousser") None eq_refl)))
              eq_refl eq_refl (Script.response (lit "plante")) eq_refl)
           [false; true] 2 [] []).
Defined.

(** ** The live game *)

Section LiveFacts.
Context {W : LiveWire}.

Lemma humanSpeechLoop_fanOut (msgs : list bytes)
    (frames : list LiveRealtimeInput) (rest : list (Result bytes)) :
  Forall2 (fun m f => UnmarshalRealtimeInput m = Ok f) msgs frames ->
  humanSpeechLoop (map Ok msgs ++ rest)
  = (fanOut frames ++ fst (humanSpeechLoop rest), snd (humanSpeechLoop rest)).
Proof.
  induction 1 as [|m f msgs frames Hm _ IH]; simpl.
  - now destruct (humanSpeechLoop rest).
  - rewrite Hm, IH. reflexivity.
Qed.

Lemma sentTo_app (s : Session) (a b : list LiveEvent) :
  sentTo s (a ++ b) = sentTo s a ++ sentTo s b.
Proof.
  induction a as [|e a IH]; simpl; [reflexivity|].
  destruct e; auto. destruct (Session_eqb s s0); simpl; now rewrite IH.
Qed.

Lemma sentTo_fanOut (s : Session) (frames : list LiveRealtimeInput) :
  sentTo s (fanOut frames) = frames.
Proof.
  induction frames as [|f frames IH]; simpl; [reflexivity|].
  fold (fanOut frames). destruct s; simpl; now rewrite IH.
Qed.

Lemma sentTo_noSend (s : Session) (t : list LiveEvent) :
  noSend t = true -> sentTo s t = [].
Proof.
  induction t as [|e t IH]; simpl; [reflexivity|].
  destruct e; simpl; auto; discriminate.
Qed.

(** What the handler does before and after the human speech loop of
    an established game. *)
Lemma liveGame_established (r : Environment) (l : Lang) :
  established r l ->
  liveGame r
  = ([Println (StartingGame (gameID r)
                 (TrimPrefix (path r) (lit "/live/")) (forbiddenWords r));
      Connect Guesser (guesserPrompt l);
      Connect Judge (judgePrompt (Join (forbiddenWords r) (lit ", ")));
      GoFunc GuessingLoop]
       ++ fst (humanSpeechLoop (clientReads r))
       ++ match snd (humanSpeechLoop (clientReads r)) with
          | Returned => [GoFunc JudgeLoop; CloseSession Judge;
                         CloseSession Guesser; CloseClient]
          | _ => []
          end,
     snd (humanSpeechLoop (clientReads r))).
Proof.
  intros (Hl & Hu & Hg & Hj). unfold liveGame. rewrite Hl, Hu, Hg, Hj.
  destruct (humanSpeechLoop (clientReads r)) as [t [| |]]; simpl;
    now rewrite ?app_nil_r.
Qed.

(** The two loops started with [go] send nothing to the sessions. *)
Lemma guessingLoop_noSend receives writes :
  noSend (fst (guessingLoop receives writes)) = true.
Proof.
  revert writes. induction receives as [|[message|err] receives IH];
    intros writes; simpl; try reflexivity.
  destruct (Marshal message) as [b|err]; [|reflexivity].
  destruct (hd_tl None writes) as [[err|] writes']; [reflexivity|].
  specialize (IH writes'). destruct (guessingLoop receives writes'). exact IH.
Qed.

Lemma judgeLoop_noSend gameID receives :
  noSend (fst (judgeLoop gameID receives)) = true.
Proof.
  induction receives as [|[message|err] receives IH]; simpl; try reflexivity.
  destruct (judgeLoop gameID receives) as [t s].
  destruct (ServerContent message) as [sc|]; [|exact IH].
  destruct (OutputTranscription sc); exact IH.
Qed.

(** One move of the pool takes the first event of the thread that
    moves and leaves the other threads as they were. *)
Lemma next_spec (t : Thread) (p p' : Pool) (e : LiveEvent) :
  next t p = Some (e, p') ->
  eventsOf t p = e :: eventsOf t p' /\
  forall t', t' <> t -> eventsOf t' p' = eventsOf t' p.
Proof.
  destruct t; simpl.
  - destruct (handler p) as [|e0 h] eqn:E; [discriminate|].
    intros [= <- <-]. split; [reflexivity|].
    intros [] H; simpl; congruence.
  - destruct (guessingStarted p); [|discriminate].
    destruct (guessing p) as [|e0 g] eqn:E; [discriminate|].
    intros [= <- <-]. split; [reflexivity|].
    intros [] H; simpl; congruence.
  - destruct (judgeStarted p); [|discriminate].
    destruct (judging p) as [|e0 j] eqn:E; [discriminate|].
    intros [= <- <-]. split; [reflexivity|].
    intros [] H; simpl; congruence.
Qed.

(** An event of a run is an event of the thread that performed it. *)
Lemma run_In (sched : list Thread) :
  forall (p : Pool) (t : Thread) (e : LiveEvent),
    In (t, e) (run sched p) -> In e (eventsOf t p).
Proof.
  induction sched as [|t0 sched IH]; intros p t e; simpl; [tauto|].
  destruct (next t0 p) as [[e0 p']|] eqn:E; [|apply IH].
  destruct (next_spec _ _ E) as [Hhd Htl].
  assert (Hstep : (t0, e0) = (t, e) \/ In (t, e) (run sched p') ->
                  In e (eventsOf t p)).
  { intros [[= <- <-]|H].
    - rewrite Hhd. now left.
    - apply IH in H. destruct t, t0;
        try (rewrite Hhd; now right);
        match goal with
        | |- In e (eventsOf ?t p) => rewrite <- (Htl t) by discriminate
        end; exact H. }
  destruct (isFatal e0); simpl; intros H; apply Hstep; tauto.
Qed.

(** At any point of a run, what a session has been sent is an initial
    part of what the handler sends it in program order. *)
Lemma run_sentTo_prefix (s : Session) (sched : list Thread) :
  forall p : Pool,
    noSend (guessing p) = true -> noSend (judging p) = true ->
    exists later,
      sentTo s (handler p) = sentTo s (map snd (run sched p)) ++ later.
Proof.
  induction sched as [|t sched IH]; intros p Hg Hj; simpl.
  - now exists (sentTo s (handler p)).
  - destruct (next t p) as [[e p']|] eqn:E; [|now apply IH].
    destruct (next_spec _ _ E) as [Hhd Htl].
    assert (Hg' : noSend (guessing p') = true).
    { pose proof (Htl GuessingLoop) as H1.
      destruct t; simpl in H1, Hhd;
        [ rewrite H1 by discriminate; exact Hg
        | rewrite Hhd in Hg; simpl in Hg; now apply andb_true_iff in Hg
        | rewrite H1 by discriminate; exact Hg ]. }
    assert (Hj' : noSend (judging p') = true).
    { pose proof (Htl JudgeLoop) as H1.
      destruct t; simpl in H1, Hhd;
        [ rewrite H1 by discriminate; exact Hj
        | rewrite H1 by discriminate; exact Hj
        | rewrite Hhd in Hj; simpl in Hj; now apply andb_true_iff in Hj ]. }
    destruct (IH p' Hg' Hj') as [later Hlater].
    destruct t.
    + simpl in Hhd. rewrite Hhd.
      destruct (isFatal e) eqn:Ef.
      * destruct e; try discriminate. simpl. now exists (sentTo s (handler p')).
      * simpl map. change ((e :: handler p')) with ([e] ++ handler p').
        change (e :: map snd (run sched p'))
          with ([e] ++ map snd (run sched p')).
        rewrite !sentTo_app, Hlater, app_assoc. now exists later.
    + assert (He : isSend e = false).
      { simpl in Hhd. rewrite Hhd in Hg. simpl in Hg.
        apply andb_true_iff in Hg. now destruct (isSend e). }
      pose proof (Htl Handler ltac:(discriminate)) as Hh. simpl in Hh.
      rewrite Hh in Hlater.
      destruct (isFatal e); simpl.
      * destruct e; try discriminate; now exists (sentTo s (handler p)).
      * destruct e; try discriminate; now exists later.
    + assert (He : isSend e = false).
      { simpl in Hhd. rewrite Hhd in Hj. simpl in Hj.
        apply andb_true_iff in Hj. now destruct (isSend e). }
      pose proof (Htl Handler ltac:(discriminate)) as Hh. simpl in Hh.
      rewrite Hh in Hlater.
      destruct (isFatal e); simpl.
      * destruct e; try discriminate; now exists (sentTo s (handler p)).
      * destruct e; try discriminate; now exists later.
Qed.
End LiveFacts.

(** C2. While the reads from the client succeed and the frames
    deserialize, the human speech loop forwards each frame, as
    deserialized, to the guesser's session and then to the judge's
    session, frame after frame; each session is sent the frames in
    the order the client sent them, none missing; and at any point
    of any run of the game a session has been sent an initial part of
    that sequence. *)
Theorem frames_fan_out_in_order :
  forall (W : LiveWire) (r : Environment) (l : Lang) (msgs : list bytes)
         (frames : list LiveRealtimeInput) (rest : list (Result bytes)),
    established r l ->
    clientReads r = map Ok msgs ++ rest ->
    Forall2 (fun m f => UnmarshalRealtimeInput m = Ok f) msgs frames ->
    fst (humanSpeechLoop (clientReads r))
    = fanOut frames ++ fst (humanSpeechLoop rest) /\
    (forall s, sentTo s (fst (liveGame r))
               = frames ++ sentTo s (fst (humanSpeechLoop rest))) /\
    (forall sched s, exists later,
        sentTo s (fst (liveGame r))
        = sentTo s (map snd (runGame sched r)) ++ later).
Proof.
  intros W r l msgs frames rest He Hr Hf.
  pose proof (humanSpeechLoop_fanOut rest Hf) as Hloop. rewrite <- Hr in Hloop.
  split; [now rewrite Hloop|]. split.
  - intros s. rewrite (liveGame_established He). cbn [fst].
    rewrite !sentTo_app, Hloop. cbn [fst snd].
    rewrite sentTo_app, sentTo_fanOut.
    assert (Hq : sentTo s (match snd (humanSpeechLoop rest) with
                           | Returned => [GoFunc JudgeLoop; CloseSession Judge;
                                          CloseSession Guesser; CloseClient]
                           | _ => []
                           end) = [])
      by now destruct (snd (humanSpeechLoop rest)).
    rewrite Hq. simpl. now rewrite app_nil_r.
  - intros sched s. unfold runGame.
    apply (run_sentTo_prefix s sched (pool r)); simpl.
    + apply guessingLoop_noSend.
    + apply judgeLoop_noSend.
Qed.

Lemma frames_fan_out_in_order_witness :
  @sentTo Scenario.wire Guesser (fst (liveGame Scenario.game))
  = [Scenario.audio1; Scenario.audio2] ++ [] /\
  @sentTo Scenario.wire Judge (fst (liveGame Scenario.game))
  = [Scenario.audio1; Scenario.audio2] ++ [].
Proof.
  assert (He : @established Scenario.game fr) by (repeat split).
  assert (Hf : Forall2 (fun m f => @UnmarshalRealtimeInput Scenario.wire m = Ok f)
                 [Scenario.audio1; Scenario.audio2]
                 [Scenario.audio1; Scenario.audio2])
    by (repeat constructor).
  pose proof (proj1 (proj2 (@frames_fan_out_in_order Scenario.wire Scenario.game
                              fr [Scenario.audio1; Scenario.audio2]
                              [Scenario.audio1; Scenario.audio2]
                              [Fail Scenario.closed] He eq_refl Hf))) as H.
  split; [exact (H Guesser) | exact (H Judge)].
Defined.

Section RelayFacts.
Context {W : LiveWire}.

Lemma humanSpeechLoop_events (reads : list (Result bytes)) (e : LiveEvent) :
  In e (fst (humanSpeechLoop reads)) ->
  isWrite e = false /\ isGoFunc JudgeLoop e = false.
Proof.
  induction reads as [|[message|err] reads IH]; simpl; [tauto| |].
  - destruct (UnmarshalRealtimeInput message) as [f|err].
    + destruct (humanSpeechLoop reads) as [t s]. simpl.
      intros [<-|[<-|H]]; auto.
    + simpl. intros [<-|[]]; auto.
  - intros [<-|[]]; auto.
Qed.

(** The handler itself writes nothing to the client. *)
Lemma liveGame_no_write (r : Environment) (e : LiveEvent) :
  In e (fst (liveGame r)) -> isWrite e = false.
Proof.
  unfold liveGame.
  destruct (langOf _) as [l|]; [|simpl; intros [<-|[<-|[]]]; reflexivity].
  destruct (upgrade r); [simpl; intros [<-|[]]; reflexivity|].
  destruct (connectGuesser r);
    [simpl; intros [<-|[<-|[<-|[]]]]; reflexivity|].
  destruct (connectJudge r);
    [simpl; intros [<-|[<-|[<-|[<-|[]]]]]; reflexivity|].
  destruct (humanSpeechLoop (clientReads r)) as [t s] eqn:E.
  assert (Ht : In e t -> isWrite e = false).
  { intros H. apply (humanSpeechLoop_events (clientReads r)). now rewrite E. }
  destruct s; simpl; rewrite ?in_app_iff; simpl;
    intuition (subst; auto).
Qed.

(** Every message the guessing loop writes to the client is the
    serialization of a message it received from the guesser's
    session. *)
Lemma guessingLoop_writes receives : forall writes (b : bytes),
  In (WriteMessage b) (fst (guessingLoop receives writes)) ->
  exists message, In (Ok message) receives /\ Marshal message = Ok b.
Proof.
  induction receives as [|[message|err] receives IH]; intros writes b; simpl.
  - tauto.
  - destruct (Marshal message) as [mb|err] eqn:Em.
    + destruct (hd_tl None writes) as [[err|] writes'].
      * simpl. intros [[= <-]|[H|[]]]; [|discriminate]. exists message. auto.
      * specialize (IH writes' b).
        destruct (guessingLoop receives writes') as [t s]. simpl.
        intros [[= <-]|H]; [exists message; auto|].
        destruct (IH H) as (m & Hm & Hb). exists m. auto.
    + simpl. intros [H|[]]. discriminate.
  - intros [H|[]]. discriminate.
Qed.

(** The judge loop only logs: the disconnection, or the text of an
    output transcription it received. *)
Lemma judgeLoop_events gameID receives (e : LiveEvent) :
  In e (fst (judgeLoop gameID receives)) ->
  (exists err, In (Fail err) receives /\ e = Println (JudgeDeconnected err)) \/
  (exists message sc ot,
      In (Ok message) receives /\ ServerContent message = Some sc /\
      OutputTranscription sc = Some ot /\
      e = Println (JudgeSays gameID (Text ot))).
Proof.
  induction receives as [|[message|err] receives IH]; simpl; [tauto| |].
  - destruct (judgeLoop gameID receives) as [t s]. simpl in IH.
    assert (Hrest : In e t ->
              (exists err, (Ok message = Fail err \/ In (Fail err) receives) /\
                           e = Println (JudgeDeconnected err)) \/
              (exists m sc ot, (Ok message = Ok m \/ In (Ok m) receives) /\
                               ServerContent m = Some sc /\
                               OutputTranscription sc = Some ot /\
                               e = Println (JudgeSays gameID (Text ot)))).
    { intros H. destruct (IH H) as [(err & H1 & H2)|(m & sc & ot & H1 & H2)].
      - left. exists err. auto.
      - right. exists m, sc, ot. tauto. }
    destruct (ServerContent message) as [sc|] eqn:Esc; [|exact Hrest].
    destruct (OutputTranscription sc) as [ot|] eqn:Eot; [|exact Hrest].
    simpl. intros [<-|H]; [|auto].
    right. exists message, sc, ot. auto.
  - intros [<-|[]]. left. exists err. auto.
Qed.

(** [log.Fatal] is the last event of a run. *)
Lemma run_ends_at_Fatal (sched : list Thread) :
  forall (p : Pool) before te after,
    run sched p = before ++ te :: after ->
    isFatal (snd te) = true -> after = [].
Proof.
  induction sched as [|t sched IH]; intros p before te after; simpl.
  - destruct before; discriminate.
  - destruct (next t p) as [[e p']|]; [|apply IH].
    destruct (isFatal e) eqn:Ef.
    + destruct before as [|x [|y before]]; simpl; try discriminate.
      intros H _. injection H as _ <-. reflexivity.
    + destruct before as [|x before]; simpl.
      * intros [= <- <-]. simpl. congruence.
      * intros [= <- H] Hf. exact (IH _ _ _ _ H Hf).
Qed.

Lemma quiet_cons (e : LiveEvent) (h : list LiveEvent) :
  quiet (e :: h) = if isGoFunc JudgeLoop e then noSend h else quiet h.
Proof. destruct e as [| | | | t | | | |]; try reflexivity. now destruct t. Qed.

Lemma noSend_quiet (h : list LiveEvent) : noSend h = true -> quiet h = true.
Proof.
  induction h as [|e h IH]; [reflexivity|].
  rewrite quiet_cons. simpl. intros H. apply andb_true_iff in H.
  destruct (isGoFunc JudgeLoop e); tauto.
Qed.

Lemma quiet_app (a b : list LiveEvent) :
  (forall e, In e a -> isGoFunc JudgeLoop e = false) ->
  quiet (a ++ b) = quiet b.
Proof.
  induction a as [|e a IH]; intros H; [reflexivity|].
  simpl app. rewrite quiet_cons, (H e (or_introl eq_refl)).
  apply IH. intros e' He'. apply H. now right.
Qed.

(** In the handler's program nothing is sent to a session once the
    judge loop has been started. *)
Lemma liveGame_quiet (r : Environment) : quiet (fst (liveGame r)) = true.
Proof.
  unfold liveGame.
  destruct (langOf _) as [l|]; [|reflexivity].
  destruct (upgrade r); [reflexivity|].
  destruct (connectGuesser r); [reflexivity|].
  destruct (connectJudge r); [reflexivity|].
  destruct (humanSpeechLoop (clientReads r)) as [t s] eqn:E.
  assert (Ht : forall e, In e t -> isGoFunc JudgeLoop e = false).
  { intros e H. apply (humanSpeechLoop_events (clientReads r)). now rewrite E. }
  assert (Hq : quiet t = true).
  { rewrite <- (app_nil_r t). now rewrite (quiet_app t _ Ht). }
  destruct s; simpl; try exact Hq.
  now rewrite (quiet_app t _ Ht).
Qed.
End RelayFacts.

Section RunFacts.
Context {W : LiveWire}.

Lemma run_noSend (sched : list Thread) (p : Pool) :
  noSend (handler p) = true -> noSend (guessing p) = true ->
  noSend (judging p) = true ->
  noSend (map snd (run sched p)) = true.
Proof.
  intros Hh Hg Hj. apply forallb_forall. intros e He.
  apply in_map_iff in He. destruct He as [[t e'] [<- He]]. simpl.
  apply run_In in He.
  destruct t; simpl in He;
    [ exact (proj1 (forallb_forall _ _) Hh _ He)
    | exact (proj1 (forallb_forall _ _) Hg _ He)
    | exact (proj1 (forallb_forall _ _) Hj _ He) ].
Qed.

Lemma noSend_tail (e : LiveEvent) (h : list LiveEvent) :
  noSend (e :: h) = true -> noSend h = true.
Proof. simpl. intros H. now apply andb_true_iff in H. Qed.

(** The judge loop is started by the handler's [go] statement, and in
    the handler's program no frame is forwarded after it: so in every
    run the judge loop moves only when the forwarding is over. *)
Lemma run_sendsBeforeJudge (sched : list Thread) :
  forall p : Pool,
    quiet (handler p) = true ->
    (judgeStarted p = true -> noSend (handler p) = true) ->
    noSend (guessing p) = true -> noSend (judging p) = true ->
    sendsBeforeJudge (run sched p) = true.
Proof.
  induction sched as [|t sched IH]; intros p Hq Hs Hg Hj; [reflexivity|].
  cbn [run]. destruct t; cbn [next].
  - destruct (handler p) as [|e h] eqn:Eh; [apply IH; rewrite ?Eh; auto|].
    destruct (isFatal e); [reflexivity|]. cbn [sendsBeforeJudge].
    rewrite quiet_cons in Hq.
    apply IH; cbn [handler guessing judging judgeStarted]; auto.
    + destruct (isGoFunc JudgeLoop e); [now apply noSend_quiet | exact Hq].
    + destruct (isGoFunc JudgeLoop e); [intros _; exact Hq|].
      rewrite orb_false_r. intros H. exact (noSend_tail _ _ (Hs H)).
  - destruct (guessingStarted p) eqn:Egs; [|now apply IH].
    destruct (guessing p) as [|e g] eqn:Eg; [apply IH; rewrite ?Eg; auto|].
    destruct (isFatal e); [reflexivity|]. cbn [sendsBeforeJudge].
    apply IH; cbn [handler guessing judging judgeStarted]; auto.
    exact (noSend_tail _ _ Hg).
  - destruct (judgeStarted p) eqn:Ej;
      [|apply IH; auto; rewrite Ej; discriminate].
    destruct (judging p) as [|e j] eqn:Ejd; [apply IH; rewrite ?Ejd, ?Ej; auto|].
    destruct (isFatal e); [reflexivity|]. cbn [sendsBeforeJudge].
    apply run_noSend; cbn [handler guessing judging]; auto.
    exact (noSend_tail _ _ Hj).
Qed.

(** Until the handler reaches its second [go] statement the judge
    loop does not move. *)
Lemma run_judge_idle (sched : list Thread) :
  forall p : Pool,
    judgeStarted p = false ->
    (forall e, In e (handler p) -> isGoFunc JudgeLoop e = false) ->
    judgeActive (run sched p) = false.
Proof.
  induction sched as [|t sched IH]; intros p Hj Hh; [reflexivity|].
  cbn [run]. destruct t; cbn [next].
  - destruct (handler p) as [|e h] eqn:Eh; [apply IH; rewrite ?Eh; auto|].
    assert (He : isGoFunc JudgeLoop e = false) by (apply Hh; now left).
    destruct (isFatal e); [reflexivity|]. cbn [judgeActive existsb fst orb].
    apply IH; cbn [handler judgeStarted].
    + now rewrite Hj, He.
    + intros e' H. apply Hh. now right.
  - destruct (guessingStarted p); [|now apply IH].
    destruct (guessing p) as [|e g] eqn:Eg; [apply IH; rewrite ?Eg; auto|].
    destruct (isFatal e); [reflexivity|]. cbn [judgeActive existsb fst orb].
    apply IH; cbn [handler judgeStarted]; auto.
  - rewrite Hj. now apply IH.
Qed.

(** Whatever is written to the client in a run is written by the
    guessing loop, and is the serialization of a message received
    from the guesser's session. *)
Lemma run_write_origin (sched : list Thread) (r : Environment)
    (t : Thread) (b : bytes) :
  In (t, WriteMessage b) (runGame sched r) ->
  t = GuessingLoop /\
  exists message,
    In (Ok message) (guesserReceives r) /\ Marshal message = Ok b.
Proof.
  intros H. apply run_In in H. destruct t; simpl in H.
  - apply liveGame_no_write in H. discriminate.
  - split; [reflexivity|]. exact (guessingLoop_writes _ _ _ H).
  - apply judgeLoop_events in H.
    destruct H as [(err & _ & H)|(m & sc & ot & _ & _ & _ & H)]; discriminate.
Qed.
End RunFacts.

(** C7. In every run of a live game, whatever is written to the
    client is written by the guessing loop and is the serialization
    of a message received from the guesser's session; and whatever
    the judge loop does is a log line: the disconnection of the
    judge's session, or the text of an output transcription received
    from it. *)
Theorem client_hears_only_the_guesser :
  forall (W : LiveWire) (sched : list Thread) (r : Environment)
         (t : Thread) (e : LiveEvent),
    In (t, e) (runGame sched r) ->
    (forall b, e = WriteMessage b ->
               t = GuessingLoop /\
               exists message,
                 In (Ok message) (guesserReceives r) /\ Marshal message = Ok b) /\
    (t = JudgeLoop ->
     (exists err, In (Fail err) (judgeReceives r) /\
                  e = Println (JudgeDeconnected err)) \/
     (exists message sc ot,
         In (Ok message) (judgeReceives r) /\
         ServerContent message = Some sc /\
         OutputTranscription sc = Some ot /\
         e = Println (JudgeSays (gameID r) (Text ot)))).
Proof.
  intros W sched r t e H. split.
  - intros b ->. exact (run_write_origin _ _ _ _ H).
  - intros ->. apply run_In in H. simpl in H.
    exact (judgeLoop_events _ _ _ H).
Qed.

Lemma client_hears_only_the_guesser_witness :
  In (GuessingLoop, @WriteMessage Scenario.wire (lit "arbre"))
    (runGame [Handler; Handler; Handler; Handler; GuessingLoop] Scenario.game) /\
  exists message,
    In (Ok message) (guesserReceives Scenario.game) /\
    @Marshal Scenario.wire message = Ok (lit "arbre").
Proof.
  assert (H : In (GuessingLoop, @WriteMessage Scenario.wire (lit "arbre"))
                (runGame [Handler; Handler; Handler; Handler; GuessingLoop]
                   Scenario.game))
    by (vm_compute; tauto).
  split; [exact H|].
  exact (proj2 (proj1 (@client_hears_only_the_guesser Scenario.wire _ _ _ _ H)
                  (lit "arbre") eq_refl)).
Defined.

(** C8, what the code does.  In every run of every game, each frame
    forwarded to a session is forwarded before the judge loop makes
    its first move: the handler starts the judge loop only after the
    human speech loop has ended.  While the player stays connected,
    the judge loop does not run at all, whatever the judge's session
    has to say. *)
Theorem judge_loop_starts_after_fan_out :
  (forall (W : LiveWire) (sched : list Thread) (r : Environment),
      sendsBeforeJudge (runGame sched r) = true) /\
  (forall sched : list Thread,
      judgeActive (@runGame Scenario.wire sched Scenario.ongoing) = false).
Proof.
  split.
  - intros W sched r. unfold runGame.
    apply run_sendsBeforeJudge; cbn [pool handler guessing judging judgeStarted].
    + apply liveGame_quiet.
    + discriminate.
    + apply guessingLoop_noSend.
    + apply judgeLoop_noSend.
  - intros sched. unfold runGame. apply run_judge_idle; [reflexivity|].
    intros e H. vm_compute in H.
    repeat (destruct H as [<-|H]; [reflexivity|]). destruct H.
Qed.

(** A run of the example game: the judge's session has had its
    transcription ready from the start, and the judge loop logs it
    only after the player has left. *)
Example judge_speaks_after_the_player_left :
  @runGame Scenario.wire
    [JudgeLoop; Handler; Handler; Handler; Handler; JudgeLoop; Handler;
     Handler; JudgeLoop; Handler; Handler; Handler; JudgeLoop; Handler;
     Handler; JudgeLoop]
    Scenario.game
  = [(Handler, @Println Scenario.wire
                 (StartingGame (lit "aB3x") (lit "fr")
                    [lit "Pousser"; lit "Feuille"]));
     (Handler, Connect Guesser (guesserPrompt fr));
     (Handler, Connect Judge (judgePrompt (lit "Pousser, Feuille")));
     (Handler, GoFunc GuessingLoop);
     (Handler, @SendRealtimeInput Scenario.wire Guesser Scenario.audio1);
     (Handler, @SendRealtimeInput Scenario.wire Judge Scenario.audio1);
     (Handler, @SendRealtimeInput Scenario.wire Guesser Scenario.audio2);
     (Handler, @SendRealtimeInput Scenario.wire Judge Scenario.audio2);
     (Handler, Println (ReadFromClientError Scenario.closed));
     (Handler, GoFunc JudgeLoop);
     (Handler, CloseSession Judge);
     (JudgeLoop, Println (JudgeSays (lit "aB3x") (lit "poussent")))].
Proof. reflexivity. Qed.

(** C3, what the code does.  A frame that is not JSON makes the
    handler call [log.Fatal]: the process exits, nothing is written
    to the client about it, and no goroutine moves afterwards. *)
Theorem malformed_frame_exits_the_process :
  @liveGame Scenario.wire Scenario.malformed
  = ([@Println Scenario.wire
        (StartingGame (lit "aB3x") (lit "fr") [lit "Pousser"; lit "Feuille"]);
      Connect Guesser (guesserPrompt fr);
      Connect Judge (judgePrompt (lit "Pousser, Feuille"));
      GoFunc GuessingLoop;
      @SendRealtimeInput Scenario.wire Guesser Scenario.audio1;
      @SendRealtimeInput Scenario.wire Judge Scenario.audio1;
      Fatal (UnmarshalMessageError Scenario.garbage
               (Error (lit "invalid character")))],
     ProcessExit) /\
  (forall sched : list Thread,
      forallb (gostring_eqb (lit "arbre"))
        (written (@runGame Scenario.wire sched Scenario.malformed)) = true) /\
  written (@runGame Scenario.wire
             [Handler; Handler; Handler; Handler; Handler; Handler; Handler;
              GuessingLoop; JudgeLoop; Handler]
             Scenario.malformed) = [].
Proof.
  split; [reflexivity|]. split; [|reflexivity].
  intros sched. apply forallb_forall. intros b Hb.
  unfold written in Hb. apply in_flat_map in Hb.
  destruct Hb as [[t e] [Hin Hb]]. simpl in Hb.
  destruct e; simpl in Hb; try contradiction. destruct Hb as [<-|[]].
  destruct (@run_write_origin Scenario.wire _ _ _ _ Hin)
    as (_ & message & Hm & Hb).
  simpl in Hm, Hb. destruct Hm as [[= <-]|[H|[]]]; [|discriminate].
  now injection Hb as <-.
Qed.

(** C4, what the code does.  A failed upgrade and a failed connection
    to either live session make the handler call [log.Fatal]: the
    process exits.  A failed read from the client only ends the
    game. *)
Theorem upgrade_or_connect_failure_exits_the_process :
  @liveGame Scenario.wire Scenario.plainGet
  = ([@Fatal Scenario.wire (UpgradeError Scenario.handshake)], ProcessExit) /\
  @liveGame Scenario.wire Scenario.guesserDown
  = ([@Println Scenario.wire (StartingGame (lit "aB3x") (lit "fr") []);
      Connect Guesser (guesserPrompt fr);
      Fatal (ConnectToModelError Scenario.unavailable)],
     ProcessExit) /\
  @liveGame Scenario.wire Scenario.judgeDown
  = ([@Println Scenario.wire (StartingGame (lit "aB3x") (lit "fr") []);
      Connect Guesser (guesserPrompt fr);
      Connect Judge (judgePrompt []);
      Fatal (ConnectToModelError Scenario.unavailable)],
     ProcessExit) /\
  snd (@liveGame Scenario.wire Scenario.game) = Returned.
Proof. repeat split. Qed.

(* ================================================================== *)
(** * Part III: further properties of the code                         *)
(* ================================================================== *)

Lemma gostring_eqb_eq (s t : gostring) : gostring_eqb s t = true <-> s = t.
Proof.
  revert t; induction s as [|c s IH]; intros [|d t]; simpl;
    try (split; [discriminate | intros H; discriminate]);
    try (split; reflexivity).
  rewrite andb_true_iff, N.eqb_eq, IH. split.
  - now intros [-> ->].
  - now intros [= -> ->].
Qed.

Lemma ToLower_length {U : Unicode} (s : gostring) :
  List.length (ToLower s) = List.length s.
Proof. apply length_map. Qed.

(** ** The two confirmation checks *)

Section CheckFacts.
Context {U : Unicode} {B : Backend}.

(** What a yes/no check does with the answer to its one request. *)
Lemma yes_no_check (request : Request) :
  let check : Io (bool * option error) :=
    r <- generate request ;;
    match r with
    | Fail e => ret (false, Some e)
    | Ok resp =>
        text <- firstText resp ;;
        ret (gostring_eqb (ToLower text) (lit "yes"), None)
    end in
  fst check = [Call request] /\
  (forall e, GenerateContent request = Fail e ->
             check = ([Call request], Returns (false, Some e))) /\
  (forall yes e, snd check = Returns (yes, e) ->
     (yes = true ->
      e = None /\
      exists resp text,
        GenerateContent request = Ok resp /\ firstText resp = ret text /\
        ToLower text = lit "yes")) /\
  (forall resp text,
      GenerateContent request = Ok resp -> firstText resp = ret text ->
      List.length text <> 3%nat ->
      check = ([Call request], Returns (false, None))).
Proof.
  intros check. unfold check, generate, bind.
  destruct (GenerateContent request) as [resp|e0] eqn:Hg.
  - assert (Hft : (exists text, firstText resp = ret text) \/
                  firstText resp = panic).
    { unfold firstText. destruct (Candidates resp) as [|c ?]; [now right|].
      destruct (Parts c) as [|t ?]; [now right|]. left. now exists t. }
    destruct Hft as [[text Ht]| Ht]; rewrite Ht; cbn -[lit].
    + split; [reflexivity|]. split; [discriminate|]. split.
      * intros yes e [= <- <-] Hyes. split; [reflexivity|].
        exists resp, text. rewrite gostring_eqb_eq in Hyes. auto.
      * intros resp' text' [= <-] Ht'. rewrite Ht in Ht'.
        injection Ht' as <-. intros Hlen.
        destruct (gostring_eqb (ToLower text) (lit "yes")) eqn:E;
          [|reflexivity].
        apply gostring_eqb_eq in E. exfalso. apply Hlen.
        rewrite <- ToLower_length, E. reflexivity.
    + split; [reflexivity|]. split; [discriminate|]. split.
      * discriminate.
      * intros resp' text' [= <-] Ht'. rewrite Ht in Ht'. discriminate.
  - cbn. split; [reflexivity|]. split.
    + now intros e [= <-].
    + split; [|discriminate]. intros yes e [= <- <-]. discriminate.
Qed.

Lemma haveSameRoot_effects (word1 word2 : gostring) :
  fst (haveSameRoot word1 word2)
  = [Call (PromptRequest (sameRootPrompt word1 word2))].
Proof.
  exact (proj1 (yes_no_check (PromptRequest (sameRootPrompt word1 word2)))).
Qed.

Lemma isTranslation_effects (word1 word2 word2Lang : gostring) :
  fst (isTranslation word1 word2 word2Lang)
  = [Call (PromptRequest (translationPrompt word1 word2 word2Lang))].
Proof.
  exact (proj1 (yes_no_check
                  (PromptRequest (translationPrompt word1 word2 word2Lang)))).
Qed.
End CheckFacts.

(** X1. [haveSameRoot] and [isTranslation] each send one request,
    their own prompt, and nothing else.  A failed request gives
    [(false, err)].  They say yes only with a nil error and only to
    an answer that lowercases to exactly "yes": an answer of any
    other length, such as "Yes." or "yes" with a line end, is a no. *)
Theorem confirmation_checks_take_exactly_yes :
  forall (U : Unicode) (B : Backend) (word1 word2 word2Lang : gostring),
    let sameRoot := PromptRequest (sameRootPrompt word1 word2) in
    let translation :=
      PromptRequest (translationPrompt word1 word2 word2Lang) in
    (fst (haveSameRoot word1 word2) = [Call sameRoot] /\
     fst (isTranslation word1 word2 word2Lang) = [Call translation]) /\
    (forall e,
        (GenerateContent sameRoot = Fail e ->
         snd (haveSameRoot word1 word2) = Returns (false, Some e)) /\
        (GenerateContent translation = Fail e ->
         snd (isTranslation word1 word2 word2Lang) = Returns (false, Some e))) /\
    (forall e,
        (snd (haveSameRoot word1 word2) = Returns (true, e) ->
         e = None /\
         exists resp text,
           GenerateContent sameRoot = Ok resp /\ firstText resp = ret text /\
           ToLower text = lit "yes") /\
        (snd (isTranslation word1 word2 word2Lang) = Returns (true, e) ->
         e = None /\
         exists resp text,
           GenerateContent translation = Ok resp /\ firstText resp = ret text /\
           ToLower text = lit "yes")) /\
    (forall resp text,
        List.length text <> 3%nat -> firstText resp = ret text ->
        (GenerateContent sameRoot = Ok resp ->
         snd (haveSameRoot word1 word2) = Returns (false, None)) /\
        (GenerateContent translation = Ok resp ->
         snd (isTranslation word1 word2 word2Lang) = Returns (false, None))).
Proof.
  intros U B word1 word2 word2Lang sameRoot translation.
  destruct (yes_no_check sameRoot) as (A1 & A2 & A3 & A4).
  destruct (yes_no_check translation) as (B1 & B2 & B3 & B4).
  split; [split; [exact A1 | exact B1]|]. split; [|split].
  - intros e. split; intros H.
    + exact (f_equal snd (A2 e H)).
    + exact (f_equal snd (B2 e H)).
  - intros e. split; intros H.
    + exact (A3 true e H eq_refl).
    + exact (B3 true e H eq_refl).
  - intros resp text Hlen Ht. split; intros H.
    + exact (f_equal snd (A4 resp text H Ht Hlen)).
    + exact (f_equal snd (B4 resp text H Ht Hlen)).
Qed.

(** ** More on the verdict pipeline *)

Section VerdictFacts.
Context {U : Unicode} {B : Backend} {J : JsonVerdict}.
Variables judgeIntro judgeRules : gostring.

(** [saidForbidden], effects and result, once the structured
    judgment reports a loss and both checks have come back. *)
Lemma saidForbidden_lost_run (sched : list bool) (fw : forbiddenWord)
    (said : gostring) (result : JudgeResult) tA bA eA tB bB eB :
  judged judgeIntro judgeRules fw said result ->
  Lost result = true ->
  haveSameRoot (Fragment result) (ForbiddenWord result)
    = (tA, Returns (bA, eA)) ->
  isTranslation (Fragment result) (ForbiddenWord result) (languageName fw)
    = (tB, Returns (bB, eB)) ->
  exists mid err,
    (mid = tA ++ tB \/ mid = tB ++ tA) /\
    (eA = None -> eB = None -> err = None) /\
    (forall e, err = Some e -> eA = Some e \/ eB = Some e) /\
    saidForbidden judgeIntro judgeRules sched fw said
    = (Call (JudgeRequest (systemInstruction judgeIntro judgeRules fw) said)
         :: mid
         ++ match err with
            | Some _ => []
            | None =>
                if negb bA && negb bB
                then [Print (JudgeNotSure (Fragment result) (ForbiddenWord result))]
                else
                  (if bA
                   then [Print (JudgeSameRoot (Fragment result)
                                  (ForbiddenWord result))]
                   else [])
                  ++ (if bB
                      then [Print (JudgeTranslationOf (Fragment result)
                                     (ForbiddenWord result))]
                      else [])
            end,
       Returns match err with
               | Some e => noViolation (Some e)
               | None =>
                   if negb bA && negb bB then noViolation None
                   else (true, Fragment result, ForbiddenWord result, None)
               end).
Proof.
  intros (resp & text & Hg & Ht & Hu) HL HA HB.
  destruct (checks_join sched result fw HA HB)
    as (st & err & HW & <- & <- & Hmid & Hnone & Hsome).
  exists (checks_effects st), err.
  split; [exact Hmid|]. split; [exact Hnone|]. split; [exact Hsome|].
  unfold saidForbidden, generate, bind. rewrite Hg, Ht; cbn [ret].
  rewrite Hu, HL; cbn [negb]. rewrite HW.
  destruct err as [e|]; [reflexivity|].
  destruct (isSameRoot st), (isTranslated st); cbn;
    rewrite ?app_nil_r; reflexivity.
Qed.

(** The ways [saidForbidden] can return. *)
Lemma saidForbidden_returns (sched : list bool) (fw : forbiddenWord)
    (said : gostring) (v : Verdict) :
  snd (saidForbidden judgeIntro judgeRules sched fw said) = Returns v ->
  let request :=
    Call (JudgeRequest (systemInstruction judgeIntro judgeRules fw) said) in
  (fst (saidForbidden judgeIntro judgeRules sched fw said) = [request] /\
   exists err, v = noViolation err) \/
  (exists result tA bA eA tB bB eB,
      judged judgeIntro judgeRules fw said result /\ Lost result = true /\
      haveSameRoot (Fragment result) (ForbiddenWord result)
        = (tA, Returns (bA, eA)) /\
      isTranslation (Fragment result) (ForbiddenWord result) (languageName fw)
        = (tB, Returns (bB, eB))).
Proof.
  intros H request. unfold saidForbidden, generate, bind in H |- *.
  destruct (GenerateContent
              (JudgeRequest (systemInstruction judgeIntro judgeRules fw) said))
    as [resp|e] eqn:Hg.
  2:{ left. cbn in H |- *. injection H as <-. eauto. }
  destruct (firstText resp) as [t0 [text| |]] eqn:Ht; cbn [ret] in H |- *;
    try (cbn in H; discriminate).
  assert (Ht' : firstText resp = ret text /\ t0 = []).
  { unfold firstText in Ht |- *. destruct (Candidates resp) as [|c ?];
      [discriminate|]. destruct (Parts c); [discriminate|].
    now injection Ht as <- <-. }
  destruct Ht' as [Ht' ->].
  destruct (Unmarshal text) as [result|cause] eqn:Hu.
  2:{ left. cbn in H |- *. injection H as <-. eauto. }
  destruct (Lost result) eqn:HL; cbn [negb] in H |- *.
  2:{ left. cbn in H |- *. injection H as <-. eauto. }
  right.
  assert (Hj : judged judgeIntro judgeRules fw said result)
    by now exists resp, text.
  destruct (haveSameRoot (Fragment result) (ForbiddenWord result))
    as [tA [[bA eA]| |]] eqn:EA;
    try (rewrite checks_join_panic in H;
         [cbn in H; discriminate | left; rewrite EA; cbn; discriminate]).
  destruct (isTranslation (Fragment result) (ForbiddenWord result)
              (languageName fw)) as [tB [[bB eB]| |]] eqn:EB;
    try (rewrite checks_join_panic in H;
         [cbn in H; discriminate | right; rewrite EB; cbn; discriminate]).
  exists result, tA, bA, eA, tB, bB, eB. auto.
Qed.
End VerdictFacts.

(** X2. A loss is only ever reported after confirmation.  Whenever
    [saidForbidden] returns [lost = true], under any schedule and
    whatever the backend does: the error is nil, the structured
    judgment had reported a loss, the two strings returned are its
    fragment and its proscribed word, at least one of the two
    confirmation checks answered yes, and the judge's line for that
    check has been printed. *)
Theorem saidForbidden_loss_is_confirmed :
  forall (U : Unicode) (B : Backend) (J : JsonVerdict)
         (judgeIntro judgeRules : gostring) (sched : list bool)
         (fw : forbiddenWord) (said forbiddenSaid forbiddenMatched : gostring)
         (err : option error),
    snd (saidForbidden judgeIntro judgeRules sched fw said)
    = Returns (true, forbiddenSaid, forbiddenMatched, err) ->
    err = None /\
    exists result,
      judged judgeIntro judgeRules fw said result /\ Lost result = true /\
      forbiddenSaid = Fragment result /\
      forbiddenMatched = ForbiddenWord result /\
      ((answers (haveSameRoot forbiddenSaid forbiddenMatched) true /\
        In (JudgeSameRoot forbiddenSaid forbiddenMatched)
          (printed (fst (saidForbidden judgeIntro judgeRules sched fw said)))) \/
       (answers (isTranslation forbiddenSaid forbiddenMatched (languageName fw))
          true /\
        In (JudgeTranslationOf forbiddenSaid forbiddenMatched)
          (printed (fst (saidForbidden judgeIntro judgeRules sched fw said))))).
Proof.
  intros U B J judgeIntro judgeRules sched fw said fs fm err H.
  destruct (saidForbidden_returns _ _ _ _ _ H)
    as [[_ [e He]]|(result & tA & bA & eA & tB & bB & eB & Hj & HL & EA & EB)];
    [discriminate|].
  destruct (saidForbidden_lost_run sched Hj HL EA EB)
    as (mid & werr & Hmid & _ & _ & Hrun).
  rewrite Hrun in H |- *. cbn [fst snd] in H |- *.
  assert (HA : forall e, bA = true -> eA = e -> answers
              (haveSameRoot (Fragment result) (ForbiddenWord result)) true).
  { intros e -> _. unfold answers. rewrite EA. cbn.
    destruct (yes_no_check
                (PromptRequest (sameRootPrompt (Fragment result)
                                  (ForbiddenWord result))))
      as (_ & _ & A3 & _).
    destruct (A3 true eA) as [-> _]; [|reflexivity|reflexivity].
    change (snd (haveSameRoot (Fragment result) (ForbiddenWord result))
            = Returns (true, eA)). now rewrite EA. }
  assert (HB : forall e, bB = true -> eB = e -> answers
              (isTranslation (Fragment result) (ForbiddenWord result)
                 (languageName fw)) true).
  { intros e -> _. unfold answers. rewrite EB. cbn.
    destruct (yes_no_check
                (PromptRequest (translationPrompt (Fragment result)
                                  (ForbiddenWord result) (languageName fw))))
      as (_ & _ & A3 & _).
    destruct (A3 true eB) as [-> _]; [|reflexivity|reflexivity].
    change (snd (isTranslation (Fragment result) (ForbiddenWord result)
                   (languageName fw)) = Returns (true, eB)). now rewrite EB. }
  assert (Hp : forall (a b c : list Effect) m,
             In (Print m) c -> In m (printed (a ++ b ++ c))).
  { intros a b c m Hin.
    assert (Hpr : forall t, In (Print m) t -> In m (printed t)).
    { induction t as [|[r|m'] t IH]; simpl; [tauto| |].
      - intros [Hx|Hx]; [discriminate | auto].
      - intros [[= ->]|Hx]; auto. }
    apply Hpr. rewrite !in_app_iff. auto. }
  destruct werr as [e|]; [discriminate|].
  destruct bA, bB; cbn in H; try discriminate; cbn [negb andb];
    injection H as <- <- <-;
    (split; [reflexivity|]); exists result;
    (split; [exact Hj|]); (split; [exact HL|]);
    (split; [reflexivity|]); (split; [reflexivity|]).
  - left. split; [exact (HA eA eq_refl eq_refl)|].
    apply (Hp [_] mid). simpl. auto.
  - left. split; [exact (HA eA eq_refl eq_refl)|].
    apply (Hp [_] mid). simpl. auto.
  - right. split; [exact (HB eB eq_refl eq_refl)|].
    apply (Hp [_] mid). simpl. auto.
Qed.

Lemma saidForbidden_loss_is_confirmed_witness :
  snd (@saidForbidden Latin1.unicode Script.confirming Script.json [] []
         [false] Script.plante (lit "les fleurs poussent"))
  = Returns (true, lit "poussent", lit "Pousser", None) /\
  @None error = None.
Proof.
  split; [reflexivity|].
  exact (proj1 (@saidForbidden_loss_is_confirmed Latin1.unicode
                  Script.confirming Script.json [] [] [false] Script.plante
                  (lit "les fleurs poussent") (lit "poussent") (lit "Pousser")
                  None eq_refl)).
Defined.

Lemma calls_app (a b : list Effect) : calls (a ++ b) = calls a ++ calls b.
Proof.
  induction a as [|[r|m] a IH]; simpl; [reflexivity| |]; now rewrite ?IH.
Qed.

(** X3. The requests of a [saidForbidden] that returns: the
    structured judgment first, and then either nothing more (the
    verdict is then no violation), or, after a judgment of loss, the
    same-root question and the translation question about its
    fragment and its proscribed word, once each, in either order. *)
Theorem saidForbidden_requests :
  forall (U : Unicode) (B : Backend) (J : JsonVerdict)
         (judgeIntro judgeRules : gostring) (sched : list bool)
         (fw : forbiddenWord) (said : gostring) (v : Verdict),
    snd (saidForbidden judgeIntro judgeRules sched fw said) = Returns v ->
    let sent := calls (fst (saidForbidden judgeIntro judgeRules sched fw said)) in
    let judgment := JudgeRequest (systemInstruction judgeIntro judgeRules fw) said in
    (sent = [judgment] /\ exists err, v = (false, [], [], err)) \/
    (exists result,
        judged judgeIntro judgeRules fw said result /\ Lost result = true /\
        let sameRoot :=
          PromptRequest (sameRootPrompt (Fragment result) (ForbiddenWord result)) in
        let translation :=
          PromptRequest (translationPrompt (Fragment result)
                           (ForbiddenWord result) (languageName fw)) in
        sent = [judgment; sameRoot; translation] \/
        sent = [judgment; translation; sameRoot]).
Proof.
  intros U B J judgeIntro judgeRules sched fw said v H sent judgment.
  destruct (saidForbidden_returns _ _ _ _ _ H)
    as [[Hf [e He]]|(result & tA & bA & eA & tB & bB & eB & Hj & HL & EA & EB)].
  - left. unfold sent. rewrite Hf. split; [reflexivity | now exists e].
  - right. exists result. split; [exact Hj|]. split; [exact HL|].
    intros sameRoot translation.
    destruct (saidForbidden_lost_run sched Hj HL EA EB)
      as (mid & werr & Hmid & _ & _ & Hrun).
    assert (HtA : tA = [Call sameRoot]).
    { pose proof (proj1 (yes_no_check sameRoot)) as H1.
      change (fst (haveSameRoot (Fragment result) (ForbiddenWord result))
              = [Call sameRoot]) in H1. now rewrite EA in H1. }
    assert (HtB : tB = [Call translation]).
    { pose proof (proj1 (yes_no_check translation)) as H1.
      change (fst (isTranslation (Fragment result) (ForbiddenWord result)
                     (languageName fw)) = [Call translation]) in H1.
      now rewrite EB in H1. }
    unfold sent. rewrite Hrun. cbn [fst calls]. rewrite calls_app.
    assert (Hprints : calls
              match werr with
              | Some _ => []
              | None =>
                  if negb bA && negb bB
                  then [Print (JudgeNotSure (Fragment result)
                                 (ForbiddenWord result))]
                  else
                    (if bA
                     then [Print (JudgeSameRoot (Fragment result)
                                    (ForbiddenWord result))]
                     else [])
                    ++ (if bB
                        then [Print (JudgeTranslationOf (Fragment result)
                                       (ForbiddenWord result))]
                        else [])
              end = [])
      by (destruct werr, bA, bB; reflexivity).
    rewrite Hprints, app_nil_r. subst tA tB.
    destruct Hmid as [-> | ->]; [left | right]; reflexivity.
Qed.

Lemma saidForbidden_requests_witness :
  snd (@saidForbidden Latin1.unicode Script.doubting Script.json [] []
         [true] Script.fruit (lit "c'est une orange"))
  = Returns (false, [], [], None) /\
  (calls (fst (@saidForbidden Latin1.unicode Script.doubting Script.json [] []
                 [true] Script.fruit (lit "c'est une orange")))
   = [JudgeRequest (systemInstruction [] [] Script.fruit)
        (lit "c'est une orange");
      PromptRequest (sameRootPrompt (lit "orange") (lit "Agrume"));
      PromptRequest (translationPrompt (lit "orange") (lit "Agrume")
                       (lit "French"))]).
Proof.
  split; [reflexivity|].
  destruct (@saidForbidden_requests Latin1.unicode Script.doubting Script.json
              [] [] [true] Script.fruit (lit "c'est une orange")
              (false, [], [], None) eq_refl)
    as [[H _]|_]; [discriminate H | reflexivity].
Defined.

(** ** More on the guess-match predicate and on [textOf] *)

Lemma Contains_refl (s : gostring) : Contains s s = true.
Proof. apply Contains_spec. exists [], []. now rewrite app_nil_r. Qed.

Lemma Contains_nil (s : gostring) : Contains s [] = true.
Proof. apply Contains_spec. now exists [], s. Qed.

(** X4. The secret word itself is a winning guess, in any letter
    case: a guess that lowercases to the same string as the word
    wins. *)
Theorem isWinning_own_word :
  forall (U : Unicode) (fw : forbiddenWord) (guess : gostring),
    ToLower guess = ToLower (Word fw) ->
    isWinning fw guess = (true, None).
Proof.
  intros U fw guess H. unfold isWinning, normalize. rewrite H.
  now rewrite Contains_refl.
Qed.

Lemma isWinning_own_word_witness :
  @ToLower Latin1.unicode (lit "PLANTE")
  = @ToLower Latin1.unicode (Word Script.plante) /\
  @isWinning Latin1.unicode Script.plante (lit "PLANTE") = (true, None).
Proof.
  split; [reflexivity|].
  exact (@isWinning_own_word Latin1.unicode Script.plante (lit "PLANTE") eq_refl).
Defined.

(** X5. A catalog entry whose word normalizes to the empty string
    (an empty word, or one made of nonspacing marks only) is won by
    every guess, the empty guess included. *)
Theorem isWinning_empty_word :
  forall (U : Unicode) (fw : forbiddenWord),
    normalize (Word fw) = [] ->
    forall guess : gostring, isWinning fw guess = (true, None).
Proof.
  intros U fw H guess. unfold isWinning. rewrite H.
  now rewrite Contains_nil.
Qed.

Lemma isWinning_empty_word_witness :
  @normalize Latin1.unicode
    (Word {| Word := [769%N]; Forbidden := []; languageName := lit "French" |})
  = [] /\
  @isWinning Latin1.unicode
    {| Word := [769%N]; Forbidden := []; languageName := lit "French" |} []
  = (true, None).
Proof.
  split; [reflexivity|].
  exact (@isWinning_empty_word Latin1.unicode
           {| Word := [769%N]; Forbidden := []; languageName := lit "French" |}
           eq_refl []).
Defined.


(** ** More on the turn *)

Section TurnCases.
Context {U : Unicode} {B : Backend} {J : JsonVerdict}.
Variables judgeIntro judgeRules : gostring.

(** The join of a turn in which the judge check comes back, in full:
    the verdict and the guesser's answer are in the shared variables;
    the error [g.Wait()] returns is the error of the goroutine that
    returned first with one, as read from the shared [err] when it
    returned. *)
Lemma turn_join_full outer inner gameWord history description err0
    tJ l said matched eJ :
  saidForbidden judgeIntro judgeRules inner gameWord description
    = (tJ, Returns (l, said, matched, eJ)) ->
  let request := ChatMessage history description in
  let resG := match GenerateContent request with
              | Ok resp => Some resp
              | Fail _ => None
              end in
  let eG := match GenerateContent request with
            | Ok _ => None
            | Fail e => Some e
            end in
  exists st werr,
    Wait outer (goJudge judgeIntro judgeRules inner gameWord description)
      (goGuess history description)
      {| lost := false; forbiddenSaid := []; forbiddenMatched := [];
         result := None; main_err := err0; turn_effects := [] |}
    = Some (st, werr) /\
    lost st = l /\ forbiddenSaid st = said /\ forbiddenMatched st = matched /\
    result st = resG /\
    (turn_effects st = tJ ++ [Call request] \/
     turn_effects st = Call request :: tJ) /\
    ((werr = match eJ with Some e => Some e | None => eG end /\ main_err st = eG) \/
     (werr = eG /\ main_err st = eG) \/
     (werr = eJ /\ main_err st = eJ) \/
     (werr = match eG with Some e => Some e | None => eJ end /\ main_err st = eJ)).
Proof.
  intros HJ request resG eG.
  destruct (Wait_cases outer
              (goJudge judgeIntro judgeRules inner gameWord description)
              (goGuess history description)
              {| lost := false; forbiddenSaid := []; forbiddenMatched := [];
                 result := None; main_err := err0; turn_effects := [] |})
    as (l0 & Hl & ->).
  destruct Hl as [-> | [-> | [-> | [-> | [-> | ->]]]]];
    repeat (cbn [exec]; unfold return_step;
            rewrite ?(body_judge _ _ _ _ _ _ HJ), ?body_guess_any);
    cbn; fold request; fold resG; fold eG;
    eexists; eexists; (split; [reflexivity|]); cbn;
    repeat (split; [auto; fail|]); auto 10;
    clearbody resG eG; destruct eG, eJ; auto 10.
Qed.

(** A [saidForbidden] that does not return takes the turn with it. *)
Lemma turn_join_panic outer inner gameWord history description err0 :
  (forall v, snd (saidForbidden judgeIntro judgeRules inner gameWord description)
             <> Returns v) ->
  Wait outer (goJudge judgeIntro judgeRules inner gameWord description)
    (goGuess history description)
    {| lost := false; forbiddenSaid := []; forbiddenMatched := [];
       result := None; main_err := err0; turn_effects := [] |}
  = None.
Proof.
  intros H.
  destruct (Wait_cases outer
              (goJudge judgeIntro judgeRules inner gameWord description)
              (goGuess history description)
              {| lost := false; forbiddenSaid := []; forbiddenMatched := [];
                 result := None; main_err := err0; turn_effects := [] |})
    as (l & Hl & ->).
  enough (E : forall g, exec l g = None) by now rewrite E.
  apply exec_None
    with (a := body_step (goJudge judgeIntro judgeRules inner gameWord description)).
  - destruct Hl as [-> | [-> | [-> | [-> | [-> | ->]]]]]; simpl; tauto.
  - intros g. unfold body_step, goJudge; cbn [body].
    destruct (saidForbidden _ _ _ _ _) as [t [[[[l0 s0] m0] e0]| |]];
      try reflexivity.
    now destruct (H (l0, s0, m0, e0)).
Qed.

(** The turn after the join. *)
Lemma turn_after_join outer inner gameWord history line err st werr :
  Wait outer
    (goJudge judgeIntro judgeRules inner gameWord (TrimSpace line))
    (goGuess history (TrimSpace line))
    {| lost := false; forbiddenSaid := []; forbiddenMatched := [];
       result := None; main_err := err; turn_effects := [] |}
  = Some (st, werr) ->
  turn judgeIntro judgeRules outer inner gameWord history line err
  = let (t, o) :=
      match werr with
      | Some _ => logFatal
      | None =>
          if lost st
          then ([Print (lossMessage (forbiddenSaid st) (forbiddenMatched st))],
                Returns GameLost)
          else evaluateGuess gameWord (result st) (main_err st)
      end in
    (Print describeTheWord :: turn_effects st ++ t, o).
Proof.
  intros HW. unfold turn. rewrite HW. cbn [bind emit].
  destruct werr as [e|]; [reflexivity|].
  destruct (lost st).
  - unfold lossMessage.
    destruct (gostring_eqb (normalize (forbiddenSaid st))
                (normalize (forbiddenMatched st))); reflexivity.
  - unfold evaluateGuess.
    destruct (bind (textOf (result st)) _) as [t o]. reflexivity.
Qed.
End TurnCases.

Lemma textOf_text (res : GenerateContentResponse) (text : gostring) :
  firstText res = ret text -> textOf (Some res) = ret text.
Proof.
  unfold textOf, checkNotEmpty, firstText, bind, ret, panic.
  destruct (Candidates res) as [|c cs]; [discriminate|].
  destruct (Parts c) as [|t ts]; [discriminate|].
  now intros [= ->].
Qed.

Lemma printed_app (a b : list Effect) : printed (a ++ b) = printed a ++ printed b.
Proof.
  induction a as [|[r|m] a IH]; simpl; [reflexivity| |]; now rewrite ?IH.
Qed.

(** X7. A turn in which the judge finds no violation and the guesser
    answers is decided by the guess alone, under every schedule: the
    guess is printed; if its normalized text contains the normalized
    word the win is announced and the game is won; otherwise nothing
    more is printed and the loop goes on with one guess fewer, the
    description added to the chat history. *)
Theorem turn_decided_by_guess :
  forall (U : Unicode) (B : Backend) (J : JsonVerdict)
         (judgeIntro judgeRules : gostring) (outer inner : list bool)
         (gameWord : forbiddenWord) (history : list gostring)
         (line : gostring) (err : option error)
         (tJ : list Effect) (said matched : gostring)
         (guess : GenerateContentResponse) (text : gostring),
    saidForbidden judgeIntro judgeRules inner gameWord (TrimSpace line)
      = (tJ, Returns (false, said, matched, None)) ->
    GenerateContent (ChatMessage history (TrimSpace line)) = Ok guess ->
    firstText guess = ret text ->
    let won := Contains (normalize text) (normalize (Word gameWord)) in
    let t := turn judgeIntro judgeRules outer inner gameWord history line err in
    snd t = Returns (if won then GameWon else NextTurn None) /\
    printed (fst t)
    = describeTheWord :: printed tJ
        ++ aiGuess text :: (if won then [aiGuessedTheWord] else []) /\
    (forall guesses scheds stdin,
        snd (gameLoop judgeIntro judgeRules (S guesses)
               ((outer, inner) :: scheds) (line :: stdin) gameWord history err)
        = if won then Returns YouWin
          else snd (gameLoop judgeIntro judgeRules guesses scheds stdin
                      gameWord (history ++ [TrimSpace line]) None)).
Proof.
  intros U B J judgeIntro judgeRules outer inner gameWord history line err
    tJ said matched guess text HJ HG Ht won t.
  destruct (turn_join judgeIntro judgeRules outer inner gameWord history
              (TrimSpace line) err HJ HG)
    as (st & HW & Hl & _ & _ & Hr & He & Heff).
  assert (Htext : textOf (Some guess) = ret text)
    by (apply textOf_text; exact Ht).
  assert (Hturn : t = (Print describeTheWord :: turn_effects st
                         ++ Print (aiGuess text)
                              :: (if won then [Print aiGuessedTheWord] else []),
                       Returns (if won then GameWon else NextTurn None))).
  { unfold t. rewrite (turn_after_join _ _ _ _ _ _ _ _ HW), Hl, Hr, He.
    unfold evaluateGuess. rewrite Htext. unfold isWinning, won.
    cbn [bind ret emit].
    destruct (Contains (normalize text) (normalize (Word gameWord)));
      reflexivity. }
  split; [now rewrite Hturn|]. split.
  - rewrite Hturn. cbn [fst printed]. rewrite printed_app.
    assert (Hp : printed (turn_effects st) = printed tJ).
    { destruct Heff as [-> | ->]; [|reflexivity].
      rewrite printed_app. simpl. now rewrite app_nil_r. }
    rewrite Hp. now destruct won.
  - intros guesses scheds stdin. cbn [gameLoop hd_tl fst snd]. fold t.
    rewrite Hturn. unfold bind.
    destruct won; [reflexivity|].
    destruct (gameLoop judgeIntro judgeRules guesses scheds stdin gameWord
                (history ++ [TrimSpace line]) None). reflexivity.
Qed.

Lemma turn_decided_by_guess_witness :
  snd (@saidForbidden Latin1.unicode Play.winning Script.json [] [] []
         Script.plante (@TrimSpace Latin1.unicode Play.line))
  = Returns (false, [], [], None) /\
  snd (@gameLoop Latin1.unicode Play.winning Script.json [] [] 3
         [([true], [])] [Play.line] Script.plante [] None)
  = Returns YouWin.
Proof.
  split; [reflexivity|].
  exact (proj2 (proj2
           (@turn_decided_by_guess Latin1.unicode Play.winning Script.json
              [] [] [true] [] Script.plante [] Play.line None
              (fst (@saidForbidden Latin1.unicode Play.winning Script.json
                      [] [] [] Script.plante
                      (@TrimSpace Latin1.unicode Play.line)))
              [] [] (Script.response (lit "Une plante")) (lit "Une plante")
              eq_refl eq_refl eq_refl))
           2 [] []).
Defined.

(** X8. When the guesser's request fails in a turn whose judge check
    comes back without error, the game never goes on and is never
    won, under any schedule: the process exits through [log.Fatal];
    or, when both goroutines return after the judge's assignment to
    the shared [err] has overwritten the guesser's error, a confirmed
    loss is still reported, and without a loss [textOf] dereferences
    the nil result and the program panics.  The exit and the panic
    are each the outcome of some schedule. *)
Theorem failed_guess_never_continues :
  forall (U : Unicode) (B : Backend) (J : JsonVerdict)
         (judgeIntro judgeRules : gostring) (inner : list bool)
         (gameWord : forbiddenWord) (history : list gostring)
         (line : gostring) (err : option error)
         (tJ : list Effect) (loss : bool) (said matched : gostring)
         (e : error),
    saidForbidden judgeIntro judgeRules inner gameWord (TrimSpace line)
      = (tJ, Returns (loss, said, matched, None)) ->
    GenerateContent (ChatMessage history (TrimSpace line)) = Fail e ->
    let turn := fun outer =>
      turn judgeIntro judgeRules outer inner gameWord history line err in
    (forall outer,
        snd (turn outer) = Exits \/
        (loss = true /\ snd (turn outer) = Returns GameLost) \/
        (loss = false /\ snd (turn outer) = Panics)) /\
    snd (turn [false; false]) = Exits /\
    (loss = false -> snd (turn [false; true]) = Panics).
Proof.
  intros U B J judgeIntro judgeRules inner gameWord history line err tJ
    loss said matched e HJ HG turn0.
  assert (Hall : forall outer,
             exists st werr,
               Wait outer
                 (goJudge judgeIntro judgeRules inner gameWord (TrimSpace line))
                 (goGuess history (TrimSpace line))
                 {| lost := false; forbiddenSaid := []; forbiddenMatched := [];
                    result := None; main_err := err; turn_effects := [] |}
               = Some (st, werr) /\
               lost st = loss /\ result st = None /\
               (werr = Some e \/ werr = None)).
  { intros outer.
    destruct (turn_join_full judgeIntro judgeRules outer inner gameWord history
                (TrimSpace line) err HJ)
      as (st & werr & HW & Hl & _ & _ & Hr & _ & Hw).
    rewrite HG in Hr, Hw. exists st, werr.
    repeat (split; [assumption|]).
    destruct Hw as [[-> _]|[[-> _]|[[-> _]|[-> _]]]]; auto. }
  assert (Hout : forall outer st werr,
             Wait outer
               (goJudge judgeIntro judgeRules inner gameWord (TrimSpace line))
               (goGuess history (TrimSpace line))
               {| lost := false; forbiddenSaid := []; forbiddenMatched := [];
                  result := None; main_err := err; turn_effects := [] |}
             = Some (st, werr) ->
             lost st = loss -> result st = None ->
             snd (turn0 outer)
             = match werr with
               | Some _ => Exits
               | None => if loss then Returns GameLost else Panics
               end).
  { intros outer st werr HW Hl Hr. unfold turn0.
    rewrite (turn_after_join _ _ _ _ _ _ _ _ HW), Hl, Hr.
    destruct werr; [reflexivity|]. destruct loss; reflexivity. }
  split; [|split].
  - intros outer. destruct (Hall outer) as (st & werr & HW & Hl & Hr & Hw).
    rewrite (Hout _ _ _ HW Hl Hr).
    destruct Hw as [-> | ->]; [now left|]. destruct loss; auto.
  - destruct (Hall [false; false]) as (st & werr & HW & Hl & Hr & _).
    rewrite (Hout _ _ _ HW Hl Hr).
    revert HW. unfold Wait.
    repeat (cbn [interleave exec app Go]; unfold return_step;
            rewrite ?(body_judge _ _ _ _ _ _ HJ), ?body_guess_any).
    rewrite HG. cbn. now intros [= _ <-].
  - intros ->. destruct (Hall [false; true]) as (st & werr & HW & Hl & Hr & _).
    rewrite (Hout _ _ _ HW Hl Hr).
    revert HW. unfold Wait.
    repeat (cbn [interleave exec app Go]; unfold return_step;
            rewrite ?(body_judge _ _ _ _ _ _ HJ), ?body_guess_any).
    rewrite HG. cbn. now intros [= _ <-].
Qed.

Lemma failed_guess_never_continues_witness :
  snd (@saidForbidden Latin1.unicode Play.guesserDown Script.json [] [] []
         Script.plante (@TrimSpace Latin1.unicode Play.line))
  = Returns (false, [], [], None) /\
  snd (@turn Latin1.unicode Play.guesserDown Script.json [] []
         [false; true] [] Script.plante [] Play.line None)
  = Panics.
Proof.
  split; [reflexivity|].
  exact (proj2 (proj2
           (@failed_guess_never_continues Latin1.unicode Play.guesserDown
              Script.json [] [] [] Script.plante [] Play.line None
              (fst (@saidForbidden Latin1.unicode Play.guesserDown Script.json
                      [] [] [] Script.plante
                      (@TrimSpace Latin1.unicode Play.line)))
              false [] [] Script.unavailable eq_refl eq_refl))
           eq_refl).
Defined.

(** X9. When the judge check of a turn returns an error and the
    guesser answers, under any schedule either the process exits
    through [log.Fatal], or the error is lost and the turn goes on as
    if the judge had found no violation: the guess is printed and
    tested.  Both happen: the exit when the judge's goroutine returns
    before the guesser's assignment to the shared [err], the loss of
    the error when that assignment comes between the judge's
    assignment and its [return err]. *)
Theorem failed_judge_exits_or_is_dropped :
  forall (U : Unicode) (B : Backend) (J : JsonVerdict)
         (judgeIntro judgeRules : gostring) (inner : list bool)
         (gameWord : forbiddenWord) (history : list gostring)
         (line : gostring) (err : option error)
         (tJ : list Effect) (e : error) (guess : GenerateContentResponse),
    saidForbidden judgeIntro judgeRules inner gameWord (TrimSpace line)
      = (tJ, Returns (false, [], [], Some e)) ->
    GenerateContent (ChatMessage history (TrimSpace line)) = Ok guess ->
    let turn := fun outer =>
      turn judgeIntro judgeRules outer inner gameWord history line err in
    (forall outer,
        snd (turn outer) = Exits \/
        snd (turn outer) = snd (evaluateGuess gameWord (Some guess) None)) /\
    snd (turn [true; true]) = Exits /\
    snd (turn [true; false]) = snd (evaluateGuess gameWord (Some guess) None).
Proof.
  intros U B J judgeIntro judgeRules inner gameWord history line err tJ
    e guess HJ HG turn0.
  assert (Hall : forall outer,
             exists st werr,
               Wait outer
                 (goJudge judgeIntro judgeRules inner gameWord (TrimSpace line))
                 (goGuess history (TrimSpace line))
                 {| lost := false; forbiddenSaid := []; forbiddenMatched := [];
                    result := None; main_err := err; turn_effects := [] |}
               = Some (st, werr) /\
               lost st = false /\ result st = Some guess /\
               (werr = Some e \/ (werr = None /\ main_err st = None))).
  { intros outer.
    destruct (turn_join_full judgeIntro judgeRules outer inner gameWord history
                (TrimSpace line) err HJ)
      as (st & werr & HW & Hl & _ & _ & Hr & _ & Hw).
    rewrite HG in Hr, Hw. exists st, werr.
    repeat (split; [assumption|]).
    destruct Hw as [[-> _]|[[-> ->]|[[-> _]|[-> _]]]]; auto. }
  assert (Hout : forall outer st werr,
             Wait outer
               (goJudge judgeIntro judgeRules inner gameWord (TrimSpace line))
               (goGuess history (TrimSpace line))
               {| lost := false; forbiddenSaid := []; forbiddenMatched := [];
                  result := None; main_err := err; turn_effects := [] |}
             = Some (st, werr) ->
             lost st = false -> result st = Some guess ->
             snd (turn0 outer)
             = match werr with
               | Some _ => Exits
               | None => snd (evaluateGuess gameWord (Some guess) (main_err st))
               end).
  { intros outer st werr HW Hl Hr. unfold turn0.
    rewrite (turn_after_join _ _ _ _ _ _ _ _ HW), Hl, Hr.
    destruct werr; [reflexivity|].
    now destruct (evaluateGuess gameWord (Some guess) (main_err st)). }
  split; [|split].
  - intros outer. destruct (Hall outer) as (st & werr & HW & Hl & Hr & Hw).
    rewrite (Hout _ _ _ HW Hl Hr).
    destruct Hw as [-> | [-> ->]]; auto.
  - destruct (Hall [true; true]) as (st & werr & HW & Hl & Hr & _).
    rewrite (Hout _ _ _ HW Hl Hr).
    revert HW. unfold Wait.
    repeat (cbn [interleave exec app Go]; unfold return_step;
            rewrite ?(body_judge _ _ _ _ _ _ HJ), ?body_guess_any).
    rewrite HG. cbn. now intros [= _ <-].
  - destruct (Hall [true; false]) as (st & werr & HW & Hl & Hr & _).
    rewrite (Hout _ _ _ HW Hl Hr).
    revert HW. unfold Wait.
    repeat (cbn [interleave exec app Go]; unfold return_step;
            rewrite ?(body_judge _ _ _ _ _ _ HJ), ?body_guess_any).
    rewrite HG. cbn. now intros [= <- <-].
Qed.

Lemma failed_judge_exits_or_is_dropped_witness :
  @saidForbidden Latin1.unicode Play.judgeDown Script.json [] [] []
    Script.plante (@TrimSpace Latin1.unicode Play.line)
  = ([Call (JudgeRequest (systemInstruction [] [] Script.plante)
              (lit "elle est verte"))],
     Returns (false, [], [], Some Script.unavailable)) /\
  snd (@turn Latin1.unicode Play.judgeDown Script.json [] []
         [true; false] [] Script.plante [] Play.line None)
  = Returns GameWon.
Proof.
  split; [reflexivity|].
  exact (proj2 (proj2
           (@failed_judge_exits_or_is_dropped Latin1.unicode Play.judgeDown
              Script.json [] [] [] Script.plante [] Play.line None
              _ Script.unavailable (Script.response (lit "Une plante"))
              eq_refl eq_refl))).
Defined.

(** ** The length of a game *)

Lemma prompts_app (a b : list Effect) : prompts (a ++ b) = prompts a + prompts b.
Proof.
  induction a as [|[r|m] a IH]; simpl; [reflexivity|exact IH|].
  destruct m; simpl; now rewrite ?IH.
Qed.

Lemma guessesAsked_app (a b : list Effect) :
  guessesAsked (a ++ b) = guessesAsked a + guessesAsked b.
Proof.
  induction a as [|[r|m] a IH]; simpl; [reflexivity| |exact IH].
  destruct r; simpl; now rewrite ?IH.
Qed.

Section LengthFacts.
Context {U : Unicode} {B : Backend} {J : JsonVerdict}.
Variables judgeIntro judgeRules : gostring.

(** The judge neither prompts the player nor talks to the guesser. *)
Lemma saidForbidden_counts (sched : list bool) (fw : forbiddenWord)
    (said : gostring) (v : Verdict) :
  snd (saidForbidden judgeIntro judgeRules sched fw said) = Returns v ->
  prompts (fst (saidForbidden judgeIntro judgeRules sched fw said)) = 0 /\
  guessesAsked (fst (saidForbidden judgeIntro judgeRules sched fw said)) = 0.
Proof.
  intros H.
  destruct (saidForbidden_returns _ _ _ _ _ H)
    as [[Hf _]|(result & tA & bA & eA & tB & bB & eB & Hj & HL & EA & EB)].
  - rewrite Hf. split; reflexivity.
  - destruct (saidForbidden_lost_run sched Hj HL EA EB)
      as (mid & werr & Hmid & _ & _ & Hrun).
    assert (HtA : tA = [Call (PromptRequest
                                (sameRootPrompt (Fragment result)
                                   (ForbiddenWord result)))]).
    { pose proof (haveSameRoot_effects (Fragment result) (ForbiddenWord result))
        as H1. now rewrite EA in H1. }
    assert (HtB : tB = [Call (PromptRequest
                                (translationPrompt (Fragment result)
                                   (ForbiddenWord result) (languageName fw)))]).
    { pose proof (isTranslation_effects (Fragment result) (ForbiddenWord result)
                    (languageName fw)) as H1. now rewrite EB in H1. }
    rewrite Hrun. cbn [fst]. subst tA tB.
    destruct Hmid as [-> | ->]; destruct werr, bA, bB; split; reflexivity.
Qed.

Lemma evaluateGuess_counts (gameWord : forbiddenWord)
    (res : option GenerateContentResponse) (err : option error) :
  prompts (fst (evaluateGuess gameWord res err)) = 0 /\
  guessesAsked (fst (evaluateGuess gameWord res err)) = 0.
Proof.
  unfold evaluateGuess, textOf, checkNotEmpty, firstText, isWinning.
  destruct res as [r|]; [|split; reflexivity].
  destruct (Candidates r) as [|c cs]; [split; reflexivity|].
  destruct (Parts c) as [|t ts]; [split; reflexivity|].
  cbn. destruct (Contains (normalize t) (normalize (Word gameWord)));
    split; reflexivity.
Qed.

(** A pass through the loop body prompts the player once and sends
    the guesser at most one message, exactly one when it returns. *)
Lemma turn_counts outer inner gameWord history line err :
  let t := turn judgeIntro judgeRules outer inner gameWord history line err in
  prompts (fst t) = 1 /\ guessesAsked (fst t) <= 1 /\
  (forall v, snd t = Returns v -> guessesAsked (fst t) = 1).
Proof.
  intros t.
  destruct (saidForbidden judgeIntro judgeRules inner gameWord (TrimSpace line))
    as [tJ [[[[l s] m] eJ]| |]] eqn:HJ.
  - destruct (turn_join_full judgeIntro judgeRules outer inner gameWord history
                (TrimSpace line) err HJ)
      as (st & werr & HW & _ & _ & _ & _ & Heff & _).
    destruct (saidForbidden_counts inner gameWord (TrimSpace line)
                (v := (l, s, m, eJ))) as [Hp Hg]; [now rewrite HJ|].
    rewrite HJ in Hp, Hg. cbn [fst] in Hp, Hg.
    assert (Hst : prompts (turn_effects st) = 0 /\
                  guessesAsked (turn_effects st) = 1).
    { destruct Heff as [-> | ->].
      - rewrite prompts_app, guessesAsked_app, Hp, Hg. split; reflexivity.
      - cbn. rewrite Hp, Hg. split; reflexivity. }
    destruct Hst as [Hp' Hg'].
    unfold t. rewrite (turn_after_join _ _ _ _ _ _ _ _ HW).
    assert (Htail : forall tl o,
               (tl, o) = match werr with
                         | Some _ => logFatal
                         | None =>
                             if lost st
                             then ([Print (lossMessage (forbiddenSaid st)
                                             (forbiddenMatched st))],
                                   Returns GameLost)
                             else evaluateGuess gameWord (result st) (main_err st)
                         end ->
               prompts tl = 0 /\ guessesAsked tl = 0).
    { intros tl o. destruct werr; [now intros [= -> _]|].
      destruct (lost st).
      - intros [= -> _]. unfold lossMessage.
        destruct (gostring_eqb _ _); split; reflexivity.
      - intros Heq.
        pose proof (evaluateGuess_counts gameWord (result st) (main_err st))
          as Hc. rewrite <- Heq in Hc. exact Hc. }
    destruct (match werr with Some _ => _ | None => _ end) as [tl o].
    destruct (Htail tl o eq_refl) as [Hp'' Hg''].
    cbn [fst snd prompts guessesAsked].
    rewrite prompts_app, guessesAsked_app, Hp', Hg', Hp'', Hg''.
    repeat split; auto.
  - assert (HW : Wait outer
                   (goJudge judgeIntro judgeRules inner gameWord (TrimSpace line))
                   (goGuess history (TrimSpace line))
                   {| lost := false; forbiddenSaid := [];
                      forbiddenMatched := []; result := None; main_err := err;
                      turn_effects := [] |} = None)
      by (apply turn_join_panic; intros v; rewrite HJ; discriminate).
    unfold t, turn. rewrite HW. cbn. repeat split; auto. discriminate.
  - assert (HW : Wait outer
                   (goJudge judgeIntro judgeRules inner gameWord (TrimSpace line))
                   (goGuess history (TrimSpace line))
                   {| lost := false; forbiddenSaid := [];
                      forbiddenMatched := []; result := None; main_err := err;
                      turn_effects := [] |} = None)
      by (apply turn_join_panic; intros v; rewrite HJ; discriminate).
    unfold t, turn. rewrite HW. cbn. repeat split; auto. discriminate.
Qed.
End LengthFacts.

(** X10. A game started with [guesses] guesses prompts the player at
    most [guesses] times and sends the guesser at most [guesses]
    messages, whatever the player, the backend and the schedules do
    (three of each for [play]).  When it ends with the word revealed,
    every guess has been used: exactly [guesses] prompts, exactly
    [guesses] messages to the guesser, and the line revealing the
    word is the last effect. *)
Theorem game_is_bounded :
  forall (U : Unicode) (B : Backend) (J : JsonVerdict)
         (judgeIntro judgeRules : gostring) (guesses : nat)
         (scheds : list (list bool * list bool)) (stdin : list gostring)
         (gameWord : forbiddenWord) (history : list gostring)
         (err : option error),
    let game := gameLoop judgeIntro judgeRules guesses scheds stdin gameWord
                  history err in
    prompts (fst game) <= guesses /\
    guessesAsked (fst game) <= guesses /\
    (snd game = Returns OutOfGuesses ->
     prompts (fst game) = guesses /\
     guessesAsked (fst game) = guesses /\
     exists t, fst game = t ++ [Print (wordWas (Word gameWord))]).
Proof.
  intros U B J judgeIntro judgeRules guesses.
  induction guesses as [|n IH]; intros scheds stdin gameWord history err game.
  - unfold game. cbn. repeat split; auto. now exists [].
  - unfold game. cbn [gameLoop].
    destruct (hd_tl ([], []) scheds) as [sc scheds'].
    destruct (hd_tl [] stdin) as [line stdin'].
    destruct (turn_counts judgeIntro judgeRules (fst sc) (snd sc) gameWord
                history line err) as (Hp & Hg & Hr).
    destruct (turn judgeIntro judgeRules (fst sc) (snd sc) gameWord history
                line err) as [tl [[| |err']| |]]; cbn [fst snd] in Hp, Hg, Hr;
      cbn [bind ret fst snd]; rewrite ?app_nil_r;
      try (split; [lia | split; [lia | discriminate]]).
    specialize (IH scheds' stdin' gameWord (history ++ [TrimSpace line]) err').
    cbv zeta in IH.
    destruct (gameLoop judgeIntro judgeRules n scheds' stdin' gameWord
                (history ++ [TrimSpace line]) err') as [tg og].
    cbn [fst snd] in IH |- *. destruct IH as (IHp & IHg & IHo).
    rewrite prompts_app, guessesAsked_app.
    pose proof (Hr _ eq_refl) as Hg1.
    split; [lia|]. split; [lia|].
    intros Ho. destruct (IHo Ho) as (-> & -> & t & ->).
    split; [lia|]. split; [lia|].
    exists (tl ++ t). now rewrite app_assoc.
Qed.

(** ** More on the live game handler *)

Section HandlerFacts.
Context {W : LiveWire}.

Lemma langOf_None (lang : gostring) :
  langOf lang = None <->
  lang <> lit "en" /\ lang <> lit "fr" /\ lang <> lit "ar".
Proof.
  unfold langOf.
  destruct (gostring_eqb lang (lit "en")) eqn:E1;
    [apply gostring_eqb_eq in E1; split; [discriminate | tauto]|].
  destruct (gostring_eqb lang (lit "fr")) eqn:E2;
    [apply gostring_eqb_eq in E2; split; [discriminate | tauto]|].
  destruct (gostring_eqb lang (lit "ar")) eqn:E3;
    [apply gostring_eqb_eq in E3; split; [discriminate | tauto]|].
  split; [intros _|reflexivity].
  repeat split; intros H; apply gostring_eqb_eq in H; congruence.
Qed.

Lemma connects_app s (a b : list LiveEvent) :
  connects s (a ++ b) = connects s a + connects s b.
Proof.
  induction a as [|e a IH]; simpl; [reflexivity|].
  destruct e; auto. rewrite IH. lia.
Qed.

Lemma closes_app s (a b : list LiveEvent) :
  closes s (a ++ b) = closes s a + closes s b.
Proof.
  induction a as [|e a IH]; simpl; [reflexivity|].
  destruct e; auto. rewrite IH. lia.
Qed.

(** The human speech loop connects and closes nothing. *)
Lemma humanSpeechLoop_holds (reads : list (Result bytes)) :
  forall s,
    connects s (fst (humanSpeechLoop reads)) = 0 /\
    closes s (fst (humanSpeechLoop reads)) = 0 /\
    ~ In CloseClient (fst (humanSpeechLoop reads)).
Proof.
  intros s. induction reads as [|[message|err] reads IH]; simpl.
  - auto.
  - destruct (UnmarshalRealtimeInput message) as [f|e].
    + destruct (humanSpeechLoop reads) as [t st]. cbn [fst] in IH |- *.
      simpl. destruct IH as (I1 & I2 & I3). repeat split; auto.
      intros [F|[F|F]]; try discriminate. auto.
    + simpl. repeat split; auto. intros [F|[]]. discriminate.
  - repeat split; auto. intros [F|[]]. discriminate.
Qed.
End HandlerFacts.

(** X11. The handler answers "not found" exactly for the requests
    whose path, after [/live/], is not literally [en], [fr] or [ar]
    (so [EN], [en/] and the empty language are refused); it then
    only logs the language and returns: no upgrade, no connection to
    the backend, no goroutine. *)
Theorem unsupported_language_is_not_found :
  forall (W : LiveWire) (r : Environment),
    let lang := TrimPrefix (path r) (lit "/live/") in
    (lang <> lit "en" /\ lang <> lit "fr" /\ lang <> lit "ar") <->
    liveGame r = ([Println (UnsupportedLanguage lang); NotFound], Returned).
Proof.
  intros W r lang. rewrite <- langOf_None. fold lang. unfold liveGame.
  fold lang. destruct (langOf lang) as [l|]; [|tauto].
  split; [discriminate|]. intros H. exfalso.
  destruct (upgrade r); [discriminate|].
  destruct (connectGuesser r); [discriminate|].
  destruct (connectJudge r); [discriminate|].
  destruct (humanSpeechLoop (clientReads r)) as [t [| |]]; discriminate.
Qed.

Section LoopShapes.
Context {W : LiveWire}.

(** The human speech loop is decided by the first read that fails or
    does not deserialize. *)
Lemma humanSpeechLoop_prefix (reads : list (Result bytes)) :
  exists msgs frames rest,
    reads = map Ok msgs ++ rest /\
    Forall2 (fun m f => UnmarshalRealtimeInput m = Ok f) msgs frames /\
    match rest with
    | [] => humanSpeechLoop reads = (fanOut frames, Blocked)
    | Fail e :: _ =>
        humanSpeechLoop reads
        = (fanOut frames ++ [Println (ReadFromClientError e)], Returned)
    | Ok bad :: _ =>
        exists e,
          UnmarshalRealtimeInput bad = Fail e /\
          humanSpeechLoop reads
          = (fanOut frames ++ [Fatal (UnmarshalMessageError bad e)],
             ProcessExit)
    end.
Proof.
  induction reads as [|[message|err] reads IH].
  - exists [], [], []. repeat split; constructor.
  - destruct (UnmarshalRealtimeInput message) as [f|e] eqn:Em.
    + destruct IH as (msgs & frames & rest & -> & Hf & IH).
      exists (message :: msgs), (f :: frames), rest.
      split; [reflexivity|]. split; [now constructor|].
      cbn [map app humanSpeechLoop]. rewrite Em.
      destruct rest as [|[bad|e] rest].
      * now rewrite IH.
      * destruct IH as (e & Hbad & IH). exists e. now rewrite IH.
      * now rewrite IH.
    + exists [], [], (Ok message :: reads).
      split; [reflexivity|]. split; [constructor|].
      exists e. split; [exact Em|]. cbn [humanSpeechLoop]. now rewrite Em.
  - exists [], [], (Fail err :: reads). repeat split; constructor.
Qed.

Lemma humanSpeechLoop_not_fail (msgs : list bytes)
    (frames : list LiveRealtimeInput) (bad : bytes) (e : error)
    (rest : list (Result bytes)) :
  Forall2 (fun m f => UnmarshalRealtimeInput m = Ok f) msgs frames ->
  UnmarshalRealtimeInput bad = Fail e ->
  snd (humanSpeechLoop (map Ok msgs ++ Ok bad :: rest)) = ProcessExit.
Proof.
  intros Hf Hb. rewrite (humanSpeechLoop_fanOut _ Hf). cbn [snd].
  cbn [humanSpeechLoop]. now rewrite Hb.
Qed.

(** The guessing loop forwards, in order, the serializations of an
    initial part of what the guesser's session delivers. *)
Lemma guessingLoop_prefix receives : forall writes,
  exists msgs rest,
    receives = map Ok msgs ++ rest /\
    Forall2 (fun m b => Marshal m = Ok b) msgs
      (writesOf (fst (guessingLoop receives writes))).
Proof.
  induction receives as [|[message|err] receives IH]; intros writes.
  - exists [], []. split; [reflexivity | constructor].
  - cbn [guessingLoop]. destruct (Marshal message) as [mb|e] eqn:Em.
    + destruct (hd_tl None writes) as [[e|] writes'].
      * exists [message], receives. split; [reflexivity|].
        simpl. constructor; [exact Em | constructor].
      * destruct (IH writes') as (msgs & rest & -> & Hf).
        destruct (guessingLoop (map Ok msgs ++ rest) writes') as [t s].
        exists (message :: msgs), rest. split; [reflexivity|].
        cbn [fst writesOf] in Hf |- *. now constructor.
    + exists [], (Ok message :: receives). split; [reflexivity | constructor].
  - exists [], (Fail err :: receives). split; [reflexivity | constructor].
Qed.

(** A failed write is the last one. *)
Lemma guessingLoop_write_failure receives : forall writes n e,
  nth_error writes n = Some (Some e) ->
  List.length (writesOf (fst (guessingLoop receives writes))) <= S n.
Proof.
  induction receives as [|[message|err] receives IH]; intros writes n e Hn;
    cbn [guessingLoop]; [simpl; lia| |simpl; lia].
  destruct (Marshal message) as [mb|e']; [|simpl; lia].
  destruct writes as [|[w|] writes]; cbn [hd_tl].
  - destruct n; discriminate.
  - simpl. lia.
  - destruct n as [|n]; [discriminate|]. cbn [nth_error] in Hn.
    specialize (IH writes n e Hn).
    destruct (guessingLoop receives writes) as [t s].
    cbn [fst writesOf List.length] in IH |- *. lia.
Qed.

(** The loop goes on while the messages serialize and the writes
    succeed. *)
Lemma guessingLoop_goes_on (msgs : list LiveServerMessage) (bs : list bytes) :
  Forall2 (fun m b => Marshal m = Ok b) msgs bs ->
  forall writes,
    (forall w, In w (firstn (List.length msgs) writes) -> w = None) ->
    guessingLoop (map Ok msgs) writes = (map WriteMessage bs, Blocked).
Proof.
  induction 1 as [|m b msgs bs Hm _ IH]; intros writes Hw; [reflexivity|].
  cbn [map guessingLoop]. rewrite Hm.
  destruct writes as [|w writes]; cbn [hd_tl].
  - rewrite IH; [reflexivity|]. intros w. rewrite firstn_nil. intros [].
  - assert (w = None) as -> by (apply Hw; now left).
    rewrite IH; [reflexivity|]. intros w H1. apply Hw. now right.
Qed.

(** What the judge loop logs for a list of messages. *)
Lemma judgeLoop_prefix gameID receives :
  exists msgs rest,
    receives = map Ok msgs ++ rest /\
    let says := map (fun text => Println (JudgeSays gameID text))
                    (flat_map transcript msgs) in
    match rest with
    | [] => judgeLoop gameID receives = (says, Blocked)
    | Fail e :: _ =>
        judgeLoop gameID receives
        = (says ++ [Println (JudgeDeconnected e)], Returned)
    | Ok _ :: _ => False
    end.
Proof.
  induction receives as [|[message|err] receives IH].
  - exists [], []. split; reflexivity.
  - destruct IH as (msgs & rest & -> & IH).
    exists (message :: msgs), rest. split; [reflexivity|].
    cbn [map app judgeLoop flat_map]. cbv zeta in IH |- *.
    rewrite map_app.
    destruct rest as [|[bad|e] rest]; [|contradiction|]; rewrite IH;
      unfold transcript;
      (destruct (ServerContent message) as [sc|]; [|reflexivity]);
      destruct (OutputTranscription sc) as [ot|]; reflexivity.
  - exists [], (Fail err :: receives). split; reflexivity.
Qed.
End LoopShapes.

(** X12. When the handler returns after a game it has closed, in this
    order, the judge's session, the guesser's session and the
    client's connection, each once, as the last things it does after
    starting the judge loop; it had connected each session once and
    closed nothing before.  When it has not returned (the client is
    still there, or the process has exited through [log.Fatal]) nothing
    has been closed. *)
Theorem handler_closes_what_it_opened :
  forall (W : LiveWire) (r : Environment),
    match snd (liveGame r) with
    | Returned =>
        fst (liveGame r)
        = [Println (UnsupportedLanguage (TrimPrefix (path r) (lit "/live/")));
           NotFound] \/
        exists before,
          fst (liveGame r)
          = before ++ [GoFunc JudgeLoop; CloseSession Judge;
                       CloseSession Guesser; CloseClient] /\
          (forall s, connects s before = 1 /\ closes s before = 0) /\
          ~ In CloseClient before
    | _ =>
        (forall s, closes s (fst (liveGame r)) = 0) /\
        ~ In CloseClient (fst (liveGame r))
    end.
Proof.
  intros W r. unfold liveGame.
  destruct (langOf _) as [l|]; [|left; reflexivity].
  destruct (upgrade r).
  { cbn. split; [auto|]. intros [F|[]]. discriminate. }
  destruct (connectGuesser r).
  { cbn. split; [auto|]. intros [F|[F|[F|[]]]]; discriminate. }
  destruct (connectJudge r).
  { cbn. split; [auto|]. intros [F|[F|[F|[F|[]]]]]; discriminate. }
  pose proof (humanSpeechLoop_holds (clientReads r)) as Hh.
  destruct (humanSpeechLoop (clientReads r)) as [t [| |]]; cbn [fst snd] in Hh |- *.
  - split.
    + intros s. rewrite !closes_app. destruct (Hh s) as (_ & -> & _). reflexivity.
    + intros F. destruct (Hh Guesser) as (_ & _ & Hc).
      cbn in F. destruct F as [F|[F|[F|[F|F]]]]; try discriminate. auto.
  - right. eexists. split; [reflexivity|]. split.
    + intros s. rewrite !connects_app, !closes_app.
      destruct (Hh s) as (-> & -> & _). destruct s; split; reflexivity.
    + intros F. destruct (Hh Guesser) as (_ & _ & Hc).
      cbn in F. destruct F as [F|[F|[F|[F|F]]]]; try discriminate. auto.
  - split.
    + intros s. rewrite !closes_app. destruct (Hh s) as (_ & -> & _). reflexivity.
    + intros F. destruct (Hh Guesser) as (_ & _ & Hc).
      cbn in F. destruct F as [F|[F|[F|[F|F]]]]; try discriminate. auto.
Qed.

(** X13. The requests that take the whole server down are exactly
    these: the language is supported and the upgrade fails, or a
    connection to the model fails, or the client, after any number of
    well-formed frames, sends one that does not deserialize.  An
    unsupported language, a failed read or silence never do. *)
Theorem handler_exits_exactly_when :
  forall (W : LiveWire) (r : Environment),
    snd (liveGame r) = ProcessExit <->
    (exists l, langOf (TrimPrefix (path r) (lit "/live/")) = Some l) /\
    (upgrade r <> None \/ connectGuesser r <> None \/ connectJudge r <> None \/
     exists msgs frames bad e rest,
       clientReads r = map Ok msgs ++ Ok bad :: rest /\
       Forall2 (fun m f => UnmarshalRealtimeInput m = Ok f) msgs frames /\
       UnmarshalRealtimeInput bad = Fail e).
Proof.
  intros W r. unfold liveGame.
  destruct (langOf _) as [l|].
  2:{ split; [discriminate|]. intros [[l Hl] _]. discriminate. }
  destruct (upgrade r) as [eu|].
  { split; [intros _|reflexivity]. split; [now exists l|]. left. discriminate. }
  destruct (connectGuesser r) as [eg|].
  { split; [intros _|reflexivity]. split; [now exists l|].
    right. left. discriminate. }
  destruct (connectJudge r) as [ej|].
  { split; [intros _|reflexivity]. split; [now exists l|].
    right. right. left. discriminate. }
  destruct (humanSpeechLoop_prefix (clientReads r))
    as (msgs & frames & rest & Hr & Hf & Hs).
  split.
  - intros H. split; [now exists l|]. do 3 right.
    destruct rest as [|[bad|e] rest].
    + rewrite Hs in H. discriminate.
    + destruct Hs as (e & Hb & _). now exists msgs, frames, bad, e, rest.
    + rewrite Hs in H. discriminate.
  - intros [_ [F|[F|[F|(msgs' & frames' & bad & e & rest' & Hr' & Hf' & Hb)]]]];
      try congruence.
    pose proof (@humanSpeechLoop_not_fail W msgs' frames' bad e rest' Hf' Hb)
      as He.
    rewrite <- Hr' in He.
    destruct (humanSpeechLoop (clientReads r)) as [t s]. cbn [snd] in He.
    now subst s.
Qed.

(** X14. Whatever the request and whatever the client sends, the
    guesser's session and the judge's session are sent the same
    frames in the same order.  In a game that was set up these are
    the deserializations of the frames the client sent before its
    first failed read or malformed frame, and what comes first
    decides how the handler stands: still reading, returned, or the
    process gone.  When the game could not be set up nothing is
    sent. *)
Theorem both_sessions_get_the_same_frames :
  forall (W : LiveWire) (r : Environment),
    exists msgs frames rest,
      clientReads r = map Ok msgs ++ rest /\
      Forall2 (fun m f => UnmarshalRealtimeInput m = Ok f) msgs frames /\
      ((exists l, established r l) ->
       (forall s, sentTo s (fst (liveGame r)) = frames) /\
       match rest with
       | [] => snd (liveGame r) = Blocked
       | Fail _ :: _ => snd (liveGame r) = Returned
       | Ok bad :: _ =>
           snd (liveGame r) = ProcessExit /\
           exists e, UnmarshalRealtimeInput bad = Fail e
       end) /\
      ((forall l, ~ established r l) ->
       forall s, sentTo s (fst (liveGame r)) = []).
Proof.
  intros W r.
  destruct (humanSpeechLoop_prefix (clientReads r))
    as (msgs & frames & rest & Hr & Hf & Hs).
  exists msgs, frames, rest. split; [exact Hr|]. split; [exact Hf|].
  unfold established, liveGame.
  destruct (langOf _) as [l|].
  2:{ split; [intros [l [F _]]; discriminate | intros _ s; reflexivity]. }
  destruct (upgrade r).
  { split; [intros [l' (_ & F & _)]; discriminate | intros _ s; reflexivity]. }
  destruct (connectGuesser r).
  { split; [intros [l' (_ & _ & F & _)]; discriminate
           | intros _ s; reflexivity]. }
  destruct (connectJudge r).
  { split; [intros [l' (_ & _ & _ & F)]; discriminate
           | intros _ s; reflexivity]. }
  split; [intros _ | intros F; now destruct (F l)].
  destruct rest as [|[bad|e] rest].
  - rewrite Hs. cbn [fst snd]. split; [|reflexivity]. intros s.
    rewrite !sentTo_app, !sentTo_fanOut. cbn. now rewrite ?app_nil_r.
  - destruct Hs as (e & Hb & ->). cbn [fst snd]. split.
    + intros s. rewrite !sentTo_app, !sentTo_fanOut. cbn.
      now rewrite ?app_nil_r.
    + split; [reflexivity | now exists e].
  - rewrite Hs. cbn [fst snd]. split; [|reflexivity]. intros s.
    rewrite !sentTo_app, !sentTo_fanOut. cbn. now rewrite ?app_nil_r.
Qed.

(** X15. The guessing loop writes to the client the serializations of
    an initial part of the messages the guesser's session delivers,
    one write per message and in the order of delivery; a write that
    fails is its last; and as long as messages serialize and writes
    succeed it goes on, whatever the messages hold. *)
Theorem guessing_loop_forwards_in_order :
  forall (W : LiveWire) (receives : list (Result LiveServerMessage))
         (writes : list (option error)),
    (exists msgs rest,
        receives = map Ok msgs ++ rest /\
        Forall2 (fun m b => Marshal m = Ok b) msgs
          (writesOf (fst (guessingLoop receives writes)))) /\
    (forall n e,
        nth_error writes n = Some (Some e) ->
        List.length (writesOf (fst (guessingLoop receives writes))) <= S n) /\
    (forall msgs bs,
        receives = map Ok msgs ->
        Forall2 (fun m b => Marshal m = Ok b) msgs bs ->
        (forall w, In w (firstn (List.length msgs) writes) -> w = None) ->
        guessingLoop receives writes = (map WriteMessage bs, Blocked)).
Proof.
  intros W receives writes. split; [apply guessingLoop_prefix|]. split.
  - intros n e. apply guessingLoop_write_failure.
  - intros msgs bs -> Hf Hw. now apply guessingLoop_goes_on.
Qed.

(** X16. The judge loop never takes the process down and stops only
    when the judge's session fails: until then it logs the text of
    every output transcription it receives, in the order received,
    and passes over the messages that have none. *)
Theorem judge_loop_logs_every_transcription :
  forall (W : LiveWire) (gameID : gostring)
         (receives : list (Result LiveServerMessage)),
    snd (judgeLoop gameID receives) <> ProcessExit /\
    exists msgs rest,
      receives = map Ok msgs ++ rest /\
      let says := map (fun text => Println (JudgeSays gameID text))
                      (flat_map transcript msgs) in
      match rest with
      | [] => judgeLoop gameID receives = (says, Blocked)
      | Fail e :: _ =>
          judgeLoop gameID receives
          = (says ++ [Println (JudgeDeconnected e)], Returned)
      | Ok _ :: _ => False
      end.
Proof.
  intros W gameID receives.
  destruct (judgeLoop_prefix gameID receives) as (msgs & rest & Hr & Hs).
  split; [|now exists msgs, rest].
  destruct rest as [|[bad|e] rest]; [|contradiction|]; cbv zeta in Hs;
    rewrite Hs; discriminate.
Qed.

Section StartFacts.
Context {W : LiveWire}.

Lemma next_started (t : Thread) (p p' : Pool) (e : LiveEvent) :
  next t p = Some (e, p') -> started t p = true.
Proof.
  destruct t; simpl; [reflexivity| |].
  - destruct (guessingStarted p); [reflexivity | discriminate].
  - destruct (judgeStarted p); [reflexivity | discriminate].
Qed.

Lemma next_starts (t0 t : Thread) (p p' : Pool) (e : LiveEvent) :
  next t0 p = Some (e, p') ->
  started t p = false -> started t p' = true ->
  t0 = Handler /\ e = GoFunc t.
Proof.
  destruct t0; simpl.
  - destruct (handler p) as [|e0 h]; [discriminate|]. intros [= <- <-].
    destruct t; simpl; try discriminate; intros -> H;
      destruct e0 as [| | | |[| |]| | | |]; try discriminate; auto.
  - destruct (guessingStarted p) eqn:E; [|discriminate].
    destruct (guessing p); [discriminate|]. intros [= <- <-].
    destruct t; simpl; congruence.
  - destruct (judgeStarted p) eqn:E; [|discriminate].
    destruct (judging p); [discriminate|]. intros [= <- <-].
    destruct t; simpl; congruence.
Qed.

(** A goroutine moves only after the handler's [go] statement for
    it. *)
Lemma run_started (sched : list Thread) :
  forall (p : Pool) before t e after,
    run sched p = before ++ (t, e) :: after ->
    started t p = false ->
    In (Handler, GoFunc t) before.
Proof.
  induction sched as [|t0 sched IH]; intros p before t e after; simpl.
  - destruct before; discriminate.
  - destruct (next t0 p) as [[e0 p']|] eqn:E; [|apply IH].
    assert (Hfirst : (t0, e0) = (t, e) -> started t p = false -> False).
    { intros [= -> ->] Hs. rewrite (@next_started _ _ _ _ E) in Hs.
      discriminate. }
    destruct (isFatal e0).
    + destruct before as [|x [|y before]]; simpl; try discriminate.
      intros [= H1 H2] Hs. exfalso. apply Hfirst; congruence.
    + destruct before as [|x before]; simpl.
      * intros [= H1 H2] Hs. exfalso. apply Hfirst; congruence.
      * intros [= <- H] Hs. destruct (started t p') eqn:Es'.
        -- destruct (@next_starts _ _ _ _ _ E Hs Es') as [-> ->]. now left.
        -- right. exact (IH _ _ _ _ _ H Es').
Qed.

(** The handler's events happen in the order of its program. *)
Lemma run_handler_order (sched : list Thread) :
  forall (p : Pool) before e after,
    run sched p = before ++ (Handler, e) :: after ->
    exists pre post,
      handler p = pre ++ e :: post /\
      forall e', In e' pre -> In (Handler, e') before.
Proof.
  induction sched as [|t0 sched IH]; intros p before e after; simpl.
  - destruct before; discriminate.
  - destruct (next t0 p) as [[e0 p']|] eqn:E; [|apply IH].
    destruct (next_spec _ _ E) as [Hhd Htl].
    assert (Hfirst : (t0, e0) = (Handler, e) ->
              exists pre post, handler p = pre ++ e :: post /\
                forall e', In e' pre -> In (Handler, e') (@nil (Thread * LiveEvent))).
    { intros [= -> ->]. exists [], (handler p'). split; [exact Hhd|].
      intros e' []. }
    destruct (isFatal e0).
    + destruct before as [|x [|y before]]; simpl; try discriminate.
      intros [= H1 H2]. apply Hfirst. congruence.
    + destruct before as [|x before]; simpl.
      * intros [= H1 H2]. apply Hfirst. congruence.
      * intros [= <- H]. destruct (IH _ _ _ _ H) as (pre & post & Hp & Hin).
        destruct t0.
        -- exists (e0 :: pre), post. simpl in Hhd. rewrite Hhd, Hp.
           split; [reflexivity|]. intros e' [<-|H']; [now left|].
           right. auto.
        -- exists pre, post.
           pose proof (Htl Handler) as Hh. cbn [eventsOf] in Hh.
           rewrite <- Hh, Hp by discriminate.
           split; [reflexivity|]. intros e' H'. right. auto.
        -- exists pre, post.
           pose proof (Htl Handler) as Hh. cbn [eventsOf] in Hh.
           rewrite <- Hh, Hp by discriminate.
           split; [reflexivity|]. intros e' H'. right. auto.
Qed.

(** In the handler's program a [go] statement comes after both
    connections. *)
Lemma liveGame_go (r : Environment) (t : Thread) pre post :
  fst (liveGame r) = pre ++ GoFunc t :: post ->
  exists l,
    established r l /\
    In (Connect Guesser (guesserPrompt l)) pre /\
    In (Connect Judge (judgePrompt (Join (forbiddenWords r) (lit ", ")))) pre.
Proof.
  unfold established, liveGame.
  destruct (langOf _) as [l|].
  2:{ cbn [fst]. do 3 (destruct pre as [|? pre]; try discriminate). }
  destruct (upgrade r).
  { cbn [fst]. do 2 (destruct pre as [|? pre]; try discriminate). }
  destruct (connectGuesser r).
  { cbn [fst app]. do 4 (destruct pre as [|? pre]; try discriminate). }
  destruct (connectJudge r).
  { cbn [fst app]. do 5 (destruct pre as [|? pre]; try discriminate). }
  intros H. exists l. split; [auto|].
  assert (H' : exists tail,
             pre ++ GoFunc t :: post
             = Println (StartingGame (gameID r)
                          (TrimPrefix (path r) (lit "/live/"))
                          (forbiddenWords r))
                 :: Connect Guesser (guesserPrompt l)
                 :: Connect Judge
                      (judgePrompt (Join (forbiddenWords r) (lit ", ")))
                 :: tail).
  { rewrite <- H. destruct (humanSpeechLoop (clientReads r)) as [tr [| |]];
      cbn [fst app]; eexists; reflexivity. }
  destruct H' as [tail H'].
  destruct pre as [|a [|b [|c pre]]]; try discriminate.
  injection H' as -> -> -> _. simpl. auto.
Qed.

(** The handler starts the judge loop only when a read from the
    client has failed. *)
Lemma liveGame_go_judge (r : Environment) :
  In (GoFunc JudgeLoop) (fst (liveGame r)) ->
  exists msgs frames err rest,
    clientReads r = map Ok msgs ++ Fail err :: rest /\
    Forall2 (fun m f => UnmarshalRealtimeInput m = Ok f) msgs frames.
Proof.
  intros H.
  assert (Hr : snd (humanSpeechLoop (clientReads r)) = Returned).
  { revert H. unfold liveGame.
    destruct (langOf _) as [l|];
      [|cbn; intros [F|[F|[]]]; discriminate].
    destruct (upgrade r); [cbn; intros [F|[]]; discriminate|].
    destruct (connectGuesser r);
      [cbn; intros [F|[F|[F|[]]]]; discriminate|].
    destruct (connectJudge r);
      [cbn; intros [F|[F|[F|[F|[]]]]]; discriminate|].
    pose proof (@humanSpeechLoop_events W (clientReads r) (GoFunc JudgeLoop))
      as He.
    destruct (humanSpeechLoop (clientReads r)) as [tr [| |]];
      cbn [fst snd app] in He |- *; auto;
      intros [F|[F|[F|[F|F]]]]; try discriminate;
      destruct (He F) as [_ F']; discriminate. }
  destruct (humanSpeechLoop_prefix (clientReads r))
    as (msgs & frames & rest & Hreads & Hf & Hs).
  destruct rest as [|[bad|e] rest].
  - rewrite Hs in Hr. discriminate.
  - destruct Hs as (e & _ & Hs). rewrite Hs in Hr. discriminate.
  - now exists msgs, frames, e, rest.
Qed.
End StartFacts.

(** X17. In every run of a game, whatever a goroutine other than the
    handler does (the guessing loop writing to the client, the judge
    loop logging) comes after the handler's [go] statement for it,
    and that after the successful connection of both sessions: with
    an unsupported language, a failed upgrade or a failed connection
    neither loop ever moves. *)
Theorem loops_run_only_in_a_game_set_up :
  forall (W : LiveWire) (sched : list Thread) (r : Environment)
         (before after : list (Thread * LiveEvent)) (t : Thread)
         (e : LiveEvent),
    runGame sched r = before ++ (t, e) :: after ->
    t <> Handler ->
    In (Handler, GoFunc t) before /\
    exists l,
      established r l /\
      In (Handler, Connect Guesser (guesserPrompt l)) before /\
      In (Handler,
          Connect Judge (judgePrompt (Join (forbiddenWords r) (lit ", "))))
        before.
Proof.
  intros W sched r before after t e Hrun Ht.
  assert (Hgo : In (Handler, GoFunc t) before).
  { apply (@run_started _ _ _ _ _ _ _ Hrun). destruct t; [congruence| |]; reflexivity. }
  split; [exact Hgo|].
  apply in_split in Hgo. destruct Hgo as (b1 & b2 & ->).
  unfold runGame in Hrun. rewrite <- app_assoc in Hrun. cbn [app] in Hrun.
  destruct (@run_handler_order _ _ _ _ _ _ Hrun) as (pre & post & Hp & Hin).
  cbn [pool handler] in Hp.
  destruct (@liveGame_go _ _ _ _ _ Hp) as (l & He & Hg & Hj).
  exists l. split; [exact He|].
  split; apply in_or_app; left; auto.
Qed.

Lemma loops_run_only_in_a_game_set_up_witness :
  In (Handler, @GoFunc Scenario.wire GuessingLoop)
    [(Handler, Println (StartingGame (lit "aB3x") (lit "fr")
                          [lit "Pousser"; lit "Feuille"]));
     (Handler, Connect Guesser (guesserPrompt fr));
     (Handler, Connect Judge (judgePrompt (lit "Pousser, Feuille")));
     (Handler, GoFunc GuessingLoop)].
Proof.
  refine (proj1 (@loops_run_only_in_a_game_set_up Scenario.wire
                   [Handler; Handler; Handler; Handler; GuessingLoop]
                   Scenario.game _ [] GuessingLoop
                   (WriteMessage (lit "arbre")) _ _)).
  - vm_compute. reflexivity.
  - discriminate.
Defined.

(** X18. In every run of every game the judge loop moves only once a
    read from the client has failed, that is, after the player has
    left: as long as the client's frames arrive, well formed or not,
    nothing the judge's session says is ever looked at. *)
Theorem judge_loop_waits_for_the_client_to_leave :
  forall (W : LiveWire) (sched : list Thread) (r : Environment)
         (e : LiveEvent),
    In (JudgeLoop, e) (runGame sched r) ->
    exists msgs frames err rest,
      clientReads r = map Ok msgs ++ Fail err :: rest /\
      Forall2 (fun m f => UnmarshalRealtimeInput m = Ok f) msgs frames.
Proof.
  intros W sched r e H. apply in_split in H. destruct H as (b1 & b2 & H).
  pose proof (@run_started _ _ _ _ _ _ _ H eq_refl) as Hgo.
  assert (Hin : In (Handler, GoFunc JudgeLoop) (runGame sched r)).
  { rewrite H. apply in_or_app. now left. }
  apply run_In in Hin. exact (@liveGame_go_judge _ _ Hin).
Qed.

Lemma judge_loop_waits_for_the_client_to_leave_witness :
  exists msgs frames err rest,
    clientReads Scenario.game = map Ok msgs ++ Fail err :: rest /\
    Forall2 (fun m f => @UnmarshalRealtimeInput Scenario.wire m = Ok f)
      msgs frames.
Proof.
  apply (@judge_loop_waits_for_the_client_to_leave Scenario.wire
           [Handler; Handler; Handler; Handler; Handler; Handler; Handler;
            Handler; Handler; Handler; JudgeLoop]
           Scenario.game
           (Println (JudgeSays (lit "aB3x") (lit "poussent")))).
  vm_compute. tauto.
Defined.

(** ** Random choices and the start of the turn-based game *)

Lemma Intn_range (draw n : Z) :
  (0 < n)%Z -> exists k, Intn draw n = Returns k /\ (0 <= k < n)%Z.
Proof.
  intros Hn. unfold Intn. destruct (Z.leb_spec n 0); [lia|].
  exists (draw mod n)%Z. split; [reflexivity|].
  apply Z.mod_pos_bound. lia.
Qed.



Section StartupFacts.
Context {U : Unicode}.

Lemma choose_code (allWords : wordsByLang) (l : Lang) :
  choose allWords (codeOf l)
  = Some {| words := wordsOf allWords l; currentPhrases := l;
            instructions := l; langName := nameOf l |}.
Proof. destruct l; reflexivity. Qed.

Lemma choose_None (allWords : wordsByLang) (lang : gostring) :
  (forall l, lang <> codeOf l) -> choose allWords lang = None.
Proof.
  intros H. unfold choose.
  destruct (gostring_eqb lang (lit "fr")) eqn:E1;
    [apply gostring_eqb_eq in E1; destruct (H fr E1)|].
  destruct (gostring_eqb lang (lit "en")) eqn:E2;
    [apply gostring_eqb_eq in E2; destruct (H en E2)|].
  destruct (gostring_eqb lang (lit "ar")) eqn:E3;
    [apply gostring_eqb_eq in E3; destruct (H ar E3)|].
  reflexivity.
Qed.

Lemma languageLoop_skips (allWords : wordsByLang) (skipped : list gostring) :
  forall fuel stdin,
    (forall s, In s skipped -> forall l, TrimSpace s <> codeOf l) ->
    languageLoop (List.length skipped + fuel) allWords (skipped ++ stdin)
    = (List.length skipped + fst (languageLoop fuel allWords stdin),
       snd (languageLoop fuel allWords stdin)).
Proof.
  induction skipped as [|s skipped IH]; intros fuel stdin Hs.
  - simpl. now destruct (languageLoop fuel allWords stdin).
  - cbn [List.length Nat.add app languageLoop hd_tl].
    rewrite choose_None by (apply Hs; now left).
    rewrite IH by (intros s' H'; apply Hs; now right). reflexivity.
Qed.
End StartupFacts.

(** X20. The language loop of [main] takes the first line of the
    input that, white space at both ends removed, is exactly [fr],
    [en] or [ar]: every line before it costs one more prompt and is
    thrown away, the words, phrases, instructions and language name
    are those of that language, and the lines after it are left for
    the game. *)
Theorem language_loop_takes_first_valid_line :
  forall (U : Unicode) (allWords : wordsByLang) (skipped : list gostring)
         (line : gostring) (rest : list gostring) (l : Lang) (fuel : nat),
    (forall s, In s skipped -> forall l', TrimSpace s <> codeOf l') ->
    TrimSpace line = codeOf l ->
    List.length skipped < fuel ->
    languageLoop fuel allWords (skipped ++ line :: rest)
    = (S (List.length skipped),
       Some ({| words := wordsOf allWords l; currentPhrases := l;
                instructions := l; langName := nameOf l |}, rest)).
Proof.
  intros U allWords skipped line rest l fuel Hs Hl Hfuel.
  replace fuel with (List.length skipped + S (fuel - S (List.length skipped)))
    by lia.
  rewrite languageLoop_skips by exact Hs.
  cbn [languageLoop hd_tl]. rewrite Hl, choose_code. cbn [fst snd].
  f_equal. lia.
Qed.

Lemma language_loop_takes_first_valid_line_witness :
  @languageLoop Latin1.unicode 5 {| En := []; Fr := [Script.plante]; Ar := [] |}
    ([lit "FR"; lit "french"] ++ (lit " fr" ++ [10%N]) :: [lit "une boisson"])
  = (3, Some ({| words := [Script.plante]; currentPhrases := fr;
                 instructions := fr;
                 langName := lit "French" |}, [lit "une boisson"])).
Proof.
  apply (@language_loop_takes_first_valid_line Latin1.unicode
           {| En := []; Fr := [Script.plante]; Ar := [] |}
           [lit "FR"; lit "french"] (lit " fr" ++ [10%N])
           [lit "une boisson"] fr 5).
  - intros s [<-|[<-|[]]] []; vm_compute; discriminate.
  - vm_compute. reflexivity.
  - simpl. lia.
Defined.

(** X21. When no line of the input is a language code the loop never
    ends: the error of the read at end of input is ignored, the empty
    line it yields is no language, and the prompt is printed again,
    round after round. *)
Theorem language_loop_spins_at_end_of_input :
  forall (U : Unicode) (allWords : wordsByLang) (stdin : list gostring),
    (forall s, In s stdin -> forall l, TrimSpace s <> codeOf l) ->
    forall fuel, languageLoop fuel allWords stdin = (fuel, None).
Proof.
  intros U allWords stdin Hs fuel. revert stdin Hs.
  induction fuel as [|fuel IH]; intros stdin Hs; [reflexivity|].
  cbn [languageLoop]. destruct stdin as [|s stdin]; cbn [hd_tl].
  - rewrite choose_None by (intros []; discriminate).
    rewrite IH by (intros s []). reflexivity.
  - rewrite choose_None by (apply Hs; now left).
    rewrite IH by (intros s' H'; apply Hs; now right). reflexivity.
Qed.

Lemma language_loop_spins_at_end_of_input_witness :
  @languageLoop Latin1.unicode 7 {| En := []; Fr := [Script.plante]; Ar := [] |}
    [lit "Fr"; lit "francais"]
  = (7, None).
Proof.
  apply (@language_loop_spins_at_end_of_input Latin1.unicode).
  intros s [<-|[<-|[]]] []; vm_compute; discriminate.
Defined.

(** X22. The word of the game is one of the words of the language
    chosen, with the name of that language; the lines printed about
    it, after an empty one, hold its word and its proscribed words
    joined by a comma and a space.  When the word list of the
    language is empty the program panics instead, in [rand.Intn],
    before anything is printed about a word. *)
Theorem picked_word_is_of_the_language :
  forall (draw : Z) (c : Choice),
    (words c = [] -> pickWord draw c = Panics) /\
    (words c <> [] ->
     exists w,
       In w (words c) /\
       pickWord draw c
       = Returns {| Word := Word w; Forbidden := Forbidden w;
                    languageName := langName c |} /\
       forall gameWord, pickWord draw c = Returns gameWord ->
         announce c gameWord
         = [emptyLine;
            wordToDescribe (currentPhrases c) (Word w);
            forbiddenWordsAre (currentPhrases c)
              (Join (Forbidden w) (lit ", "))]).
Proof.
  intros draw c. unfold pickWord. split.
  - intros ->. reflexivity.
  - intros Hw.
    destruct (@Intn_range draw (Z.of_nat (List.length (words c))))
      as (k & -> & Hk).
    { destruct (words c); [congruence | simpl; lia]. }
    destruct (nth_error (words c) (Z.to_nat k)) as [w|] eqn:Ew.
    + exists w. split; [exact (nth_error_In _ _ Ew)|].
      split; [reflexivity|]. intros gameWord [= <-]. reflexivity.
    + exfalso. apply nth_error_None in Ew. lia.
Qed.
